(** * Excalidraw MCP app: streaming recovery, scene resolution, geometry
      normalisation and camera animation

    A shallow embedding of the diagram pipeline of the Excalidraw MCP app:

    - the shared helpers of the widget ([parsePartialElements],
      [excludeIncompleteLastItem], [extractViewportAndElements]);
    - the [create_view] tool handler of the server (size guard, JSON parse,
      checkpoint restore, delete directives, checkpoint save);
    - the geometry passes of the widget ([ensureArrowBindings],
      [forceTriangleArrowhead], [assignGroupIdsForNestedShapes],
      [reorderElementsForArrows]);
    - the camera tick [animateViewBox];
    - the directive loop of a streaming frame, the file names of the vault
      notes ([sanitizeFilenamePart]), the upload frame ([concatBuffers]) and
      the [save_checkpoint] tool handler;
    - the titles of the widget ([deriveTitleFromElements],
      [mergeGroupTitleTextIntoShapes]) and the bounds of the exported scene
      ([computeSceneBounds], [sceneToSvgViewBox]).

    JavaScript values that reach the code as [any] are embedded as JSON
    values with an explicit [undefined] (the [None] of a property read) and an
    explicit [TypeError] (the [None] of a computation that throws).

    The numbers of the geometry passes and of the camera are binary64
    floats, with the operations of the code in the order of the code. The
    titles and the scene bounds, of whose numbers the statements use the
    order only, read them as exact rationals. *)

From Stdlib Require Import ZArith QArith Qabs Qminmax Lqa Ascii String List Bool Lia.
From Stdlib Require Import DecimalString Floats.
From stdpp Require Import gmap strings list.

Local Open Scope string_scope.
Local Open Scope Z_scope.
Local Open Scope list_scope.

(* ===================================================================== *)
(** ** JavaScript strings *)
(* ===================================================================== *)

(** A JavaScript string is a sequence of UTF-16 code units; the embedding
    keeps the code units below 256, one [ascii] each. *)

Module JsString.

Definition quote : ascii := "034"%char.

(** [dq s] is [s] with every apostrophe replaced by the JSON string
    delimiter, so that JSON texts can be written as plain literals. *)
Fixpoint dq (s : string) : string :=
  match s with
  | EmptyString => EmptyString
  | String c r => String (if Ascii.eqb c "'"%char then quote else c) (dq r)
  end.

(** White space removed by [String.prototype.trim] (code units < 256):
    TAB, LF, VT, FF, CR, SP and NBSP. *)
Definition is_js_space (c : ascii) : bool :=
  let n := nat_of_ascii c in
  ((9 <=? n)%nat && (n <=? 13)%nat) || (n =? 32)%nat || (n =? 160)%nat.

Fixpoint trimStart (s : string) : string :=
  match s with
  | EmptyString => EmptyString
  | String c r => if is_js_space c then trimStart r else s
  end.

Fixpoint rev_onto (s acc : string) : string :=
  match s with
  | EmptyString => acc
  | String c r => rev_onto r (String c acc)
  end.

Definition rev (s : string) : string := rev_onto s EmptyString.

Definition trimEnd (s : string) : string := rev (trimStart (rev s)).

Definition trim (s : string) : string := trimEnd (trimStart s).

(** [s.startsWith(c)] for a one-character needle. *)
Definition startsWith (c : ascii) (s : string) : bool :=
  match s with
  | String c' _ => Ascii.eqb c' c
  | EmptyString => false
  end.

(** [s.lastIndexOf(c)] for a one-character needle: the index of the last
    occurrence, [-1] when there is none. *)
Fixpoint lastIndexOf_from (c : ascii) (s : string) (i : Z) (found : Z) : Z :=
  match s with
  | EmptyString => found
  | String c' r =>
      lastIndexOf_from c r (i + 1) (if Ascii.eqb c' c then i else found)
  end.

Definition lastIndexOf (c : ascii) (s : string) : Z :=
  lastIndexOf_from c s 0 (-1).

(** Whether [c] occurs in [s]. *)
Fixpoint has_char (c : ascii) (s : string) : bool :=
  match s with
  | EmptyString => false
  | String c' r => Ascii.eqb c' c || has_char c r
  end.

(** [s.substring(0, n)] for [0 <= n]. *)
Definition substring0 (n : Z) (s : string) : string :=
  String.substring 0 (Z.to_nat n) s.

(** [s.split(",")]: never empty, the empty string splits to [[""]]. *)
Fixpoint split_on (sep : ascii) (s : string) (cur : string) : list string :=
  match s with
  | EmptyString => [rev cur]
  | String c r =>
      if Ascii.eqb c sep then rev cur :: split_on sep r EmptyString
      else split_on sep r (String c cur)
  end.

Definition split (sep : ascii) (s : string) : list string :=
  split_on sep s EmptyString.

(** [s.replace(/-/g, "")]. *)
Fixpoint remove_char (c : ascii) (s : string) : string :=
  match s with
  | EmptyString => EmptyString
  | String c' r => if Ascii.eqb c' c then remove_char c r else String c' (remove_char c r)
  end.

(** [s.slice(0, n)] for [0 <= n]. *)
Definition slice0 (n : nat) (s : string) : string := String.substring 0 n s.

(** Decimal numeral of an integer, as [String(n)] prints it. *)
Definition of_Z (z : Z) : string :=
  DecimalString.NilZero.string_of_int (Z.to_int z).

End JsString.

(* ===================================================================== *)
(** ** JSON values and [JSON.parse] *)
(* ===================================================================== *)

(** Values produced by [JSON.parse]. Numbers are kept to the integers (the
    element format writes coordinates, sizes and ids as integer literals);
    an object is the list of its members in source order, a later member
    overriding an earlier one with the same key. *)
#[warnings="-register-all"]
Inductive json : Type :=
| JNull
| JBool (b : bool)
| JNum (n : Z)
| JStr (s : string)
| JArr (items : list json)
| JObj (members : list (string * json)).

(** A property read [v.k]: [None] is [undefined]. *)
Fixpoint lookup_member (k : string) (ms : list (string * json)) : option json :=
  match ms with
  | [] => None
  | (k', v) :: rest =>
      match lookup_member k rest with
      | Some v' => Some v'
      | None => if String.eqb k' k then Some v else None
      end
  end.

(** [{...o, k: v}] on the members of [o]. *)
Fixpoint set_member (k : string) (v : json) (ms : list (string * json))
  : list (string * json) :=
  match ms with
  | [] => [(k, v)]
  | (k', v') :: rest =>
      if String.eqb k' k then (k, v) :: filter (fun p => negb (String.eqb (fst p) k)) rest
      else (k', v') :: set_member k v rest
  end.

Module Json.

(** JSON white space: SP, TAB, LF, CR. *)
Definition is_ws (c : ascii) : bool :=
  let n := nat_of_ascii c in
  (n =? 32)%nat || (n =? 9)%nat || (n =? 10)%nat || (n =? 13)%nat.

Fixpoint skip_ws (l : list ascii) : list ascii :=
  match l with
  | c :: r => if is_ws c then skip_ws r else l
  | [] => []
  end.

Definition is_digit (c : ascii) : bool :=
  let n := nat_of_ascii c in (48 <=? n)%nat && (n <=? 57)%nat.

Definition digit_val (c : ascii) : Z := Z.of_nat (nat_of_ascii c) - 48.

Fixpoint read_digits (l : list ascii) (acc : Z) : Z * list ascii :=
  match l with
  | c :: r => if is_digit c then read_digits r (10 * acc + digit_val c) else (acc, l)
  | [] => (acc, [])
  end.

(** The continuation of an integer literal: a fraction or an exponent takes
    the literal out of the embedded subset. *)
Definition int_ends (l : list ascii) : bool :=
  match l with
  | c :: _ => negb (Ascii.eqb c "."%char || Ascii.eqb c "e"%char || Ascii.eqb c "E"%char)
  | [] => true
  end.

(** [int = zero / ( digit1-9 *DIGIT )]: no leading zero. *)
Definition read_nat (l : list ascii) : option (Z * list ascii) :=
  match l with
  | c :: r =>
      if Ascii.eqb c "0"%char then
        match r with
        | c' :: _ => if is_digit c' then None else if int_ends r then Some (0, r) else None
        | [] => Some (0, [])
        end
      else if is_digit c then
        let '(n, r') := read_digits l 0 in
        if int_ends r' then Some (n, r') else None
      else None
  | [] => None
  end.

Definition read_number (l : list ascii) : option (json * list ascii) :=
  match l with
  | c :: r =>
      if Ascii.eqb c "-"%char then
        match read_nat r with Some (n, r') => Some (JNum (- n), r') | None => None end
      else
        match read_nat l with Some (n, r') => Some (JNum n, r') | None => None end
  | [] => None
  end.

Definition hex_val (c : ascii) : option Z :=
  let n := nat_of_ascii c in
  if ((48 <=? n) && (n <=? 57))%nat then Some (Z.of_nat n - 48)
  else if ((65 <=? n) && (n <=? 70))%nat then Some (Z.of_nat n - 55)
  else if ((97 <=? n) && (n <=? 102))%nat then Some (Z.of_nat n - 87)
  else None.

(** The body of a string literal, after its opening quote. [\uXXXX] is read
    when the code unit is below 256. *)
Fixpoint read_string (l : list ascii) (acc : string) : option (string * list ascii) :=
  match l with
  | [] => None
  | c :: r =>
      if Ascii.eqb c JsString.quote then Some (JsString.rev acc, r)
      else if Ascii.eqb c "\"%char then
        match r with
        | e :: r' =>
            let simple (x : ascii) := read_string r' (String x acc) in
            if Ascii.eqb e JsString.quote then simple JsString.quote
            else if Ascii.eqb e "\"%char then simple "\"%char
            else if Ascii.eqb e "/"%char then simple "/"%char
            else if Ascii.eqb e "b"%char then simple "008"%char
            else if Ascii.eqb e "f"%char then simple "012"%char
            else if Ascii.eqb e "n"%char then simple "010"%char
            else if Ascii.eqb e "r"%char then simple "013"%char
            else if Ascii.eqb e "t"%char then simple "009"%char
            else if Ascii.eqb e "u"%char then
              match r' with
              | h1 :: h2 :: h3 :: h4 :: r'' =>
                  match hex_val h1, hex_val h2, hex_val h3, hex_val h4 with
                  | Some 0, Some 0, Some a, Some b =>
                      read_string r'' (String (ascii_of_nat (Z.to_nat (16 * a + b))) acc)
                  | _, _, _, _ => None
                  end
              | _ => None
              end
            else None
        | [] => None
        end
      else if (nat_of_ascii c <? 32)%nat then None
      else read_string r (String c acc)
  end.

Definition read_literal (lit : list ascii) (v : json) (l : list ascii)
  : option (json * list ascii) :=
  if decide (take (length lit) l = lit) then Some (v, drop (length lit) l) else None.

(** Recursive descent on the grammar of ECMA-404; [fuel] bounds the nesting
    and the number of items. *)
Fixpoint read_value (fuel : nat) (l : list ascii) : option (json * list ascii) :=
  match fuel with
  | O => None
  | S fuel' =>
      match skip_ws l with
      | [] => None
      | c :: r =>
          if Ascii.eqb c "["%char then
            match skip_ws r with
            | c' :: r' =>
                if Ascii.eqb c' "]"%char then Some (JArr [], r')
                else read_items fuel' r []
            | [] => None
            end
          else if Ascii.eqb c "{"%char then
            match skip_ws r with
            | c' :: r' =>
                if Ascii.eqb c' "}"%char then Some (JObj [], r')
                else read_members fuel' r []
            | [] => None
            end
          else if Ascii.eqb c JsString.quote then
            match read_string r EmptyString with
            | Some (s, r') => Some (JStr s, r')
            | None => None
            end
          else if Ascii.eqb c "t"%char then read_literal (list_ascii_of_string "true") (JBool true) (c :: r)
          else if Ascii.eqb c "f"%char then read_literal (list_ascii_of_string "false") (JBool false) (c :: r)
          else if Ascii.eqb c "n"%char then read_literal (list_ascii_of_string "null") JNull (c :: r)
          else read_number (c :: r)
      end
  end
with read_items (fuel : nat) (l : list ascii) (acc : list json)
  : option (json * list ascii) :=
  match fuel with
  | O => None
  | S fuel' =>
      match read_value fuel' l with
      | None => None
      | Some (v, r) =>
          match skip_ws r with
          | c :: r' =>
              if Ascii.eqb c ","%char then read_items fuel' r' (v :: acc)
              else if Ascii.eqb c "]"%char then Some (JArr (List.rev (v :: acc)), r')
              else None
          | [] => None
          end
      end
  end
with read_members (fuel : nat) (l : list ascii) (acc : list (string * json))
  : option (json * list ascii) :=
  match fuel with
  | O => None
  | S fuel' =>
      match skip_ws l with
      | q :: r0 =>
          if Ascii.eqb q JsString.quote then
            match read_string r0 EmptyString with
            | None => None
            | Some (k, r1) =>
                match skip_ws r1 with
                | c1 :: r2 =>
                    if Ascii.eqb c1 ":"%char then
                      match read_value fuel' r2 with
                      | None => None
                      | Some (v, r3) =>
                          match skip_ws r3 with
                          | c :: r' =>
                              if Ascii.eqb c ","%char then read_members fuel' r' ((k, v) :: acc)
                              else if Ascii.eqb c "}"%char then Some (JObj (List.rev ((k, v) :: acc)), r')
                              else None
                          | [] => None
                          end
                      end
                    else None
                | [] => None
                end
            end
          else None
      | [] => None
      end
  end.

(** [JSON.parse(s)]: [None] when it throws a [SyntaxError]. A number with
    a fraction or an exponent, or a [\u] escape above [00ff], is outside the
    embedded subset and is answered by [None] as well. *)
Definition parse (s : string) : option json :=
  let l := list_ascii_of_string s in
  match read_value (2 * length l + 2) l with
  | Some (v, r) => match skip_ws r with [] => Some v | _ => None end
  | None => None
  end.

End Json.

(* ===================================================================== *)
(** ** JavaScript operations on [any] values *)
(* ===================================================================== *)

(** A value that may be [undefined]. *)
Abbreviation jsval := (option json).

(** A computation that may throw a [TypeError]: [None] is the throw. *)
Abbreviation throws A := (option A).

(** [v.k]. Reading a property of [null] throws; the keys the code reads
    ([type], [id], [ids], [containerId], [x], [y], [width], [height]) are
    own properties of objects only, so they are [undefined] on every other
    value. *)
Definition get (v : json) (k : string) : throws jsval :=
  match v with
  | JNull => None
  | JObj ms => Some (lookup_member k ms)
  | _ => Some None
  end.

(** [v.type === t] for a string literal [t]. *)
Definition type_is (t : string) (v : json) : throws bool :=
  ty ← get v "type";
  Some (match ty with Some (JStr s) => String.eqb s t | _ => false end).

(** [a ?? b]. *)
Definition nullish_or (a b : jsval) : jsval :=
  match a with
  | None | Some JNull => b
  | Some _ => a
  end.

(** Truthiness of a value: [!!v]. *)
Definition truthy (v : jsval) : bool :=
  match v with
  | None | Some JNull => false
  | Some (JBool b) => b
  | Some (JNum n) => negb (n =? 0)
  | Some (JStr s) => negb (String.eqb s "")
  | Some (JArr _) | Some (JObj _) => true
  end.

Fixpoint join_with (sep : string) (l : list string) : string :=
  match l with
  | [] => ""
  | [s] => s
  | s :: r => s +:+ sep +:+ join_with sep r
  end.

(** [String(v)] on a JSON value; an array prints its items joined by commas,
    [null] items as the empty string. *)
Fixpoint js_String (v : json) : string :=
  match v with
  | JNull => "null"
  | JBool true => "true"
  | JBool false => "false"
  | JNum n => JsString.of_Z n
  | JStr s => s
  | JArr items =>
      join_with "," (List.map (fun x => match x with JNull => "" | _ => js_String x end) items)
  | JObj _ => "[object Object]"
  end.

Definition String_of (v : jsval) : string :=
  match v with
  | None => "undefined"
  | Some v => js_String v
  end.

(** [set.has(v)] for a [Set<string>]: only a string can be a member. *)
Definition has (ids : gset string) (v : jsval) : bool :=
  match v with
  | Some (JStr s) => bool_decide (s ∈ ids)
  | _ => false
  end.

(** [for (const id of String(el.ids ?? el.id).split(",")) ids.add(id.trim())]. *)
Definition add_delete_ids (el : json) (ids : gset string) : throws (gset string) :=
  a ← get el "ids";
  b ← get el "id";
  Some (foldl (fun acc id => acc ∪ {[ JsString.trim id ]}) ids
          (JsString.split ","%char (String_of (nullish_or a b)))).

(** [arr.filter(p)] for a predicate that may throw. *)
Fixpoint filterM (p : json -> throws bool) (l : list json) : throws (list json) :=
  match l with
  | [] => Some []
  | v :: r =>
      b ← p v;
      r' ← filterM p r;
      Some (if b : bool then v :: r' else r')
  end.

(** [arr.find(p)]: the first item that satisfies [p]; the items after it are
    not visited. *)
Fixpoint findM (p : json -> throws bool) (l : list json) : throws jsval :=
  match l with
  | [] => Some None
  | v :: r =>
      b ← p v;
      if b : bool then Some (Some v) else findM p r
  end.

(** The items of an array value; any other value has no [find], [filter]
    or iterator over items. *)
Definition as_array (v : json) : throws (list json) :=
  match v with
  | JArr items => Some items
  | _ => None
  end.

(* ===================================================================== *)
(** ** Widget: shared helpers *)
(* ===================================================================== *)

Record ViewportRect (num : Type) : Type := mkViewport
  { x : num; y : num; width : num; height : num }.
Arguments mkViewport {num} _ _ _ _.
Arguments x {num} _.
Arguments y {num} _.
Arguments width {num} _.
Arguments height {num} _.

Section Helpers.

(** [JSON.parse]: [None] when it throws. *)
Variable JSON_parse : string -> option json.

(** [parsePartialElements(str)]. *)
Definition parsePartialElements (str : option string) : json :=
  match str with
  | None => JArr []
  | Some str =>
      if negb (JsString.startsWith "["%char (JsString.trim str)) then JArr []
      else
        match JSON_parse str with
        | Some v => v
        | None =>
            let last := JsString.lastIndexOf "}"%char str in
            if last <? 0 then JArr []
            else
              match JSON_parse (JsString.substring0 (last + 1) str +:+ "]") with
              | Some v => v
              | None => JArr []
              end
        end
  end.

(** [excludeIncompleteLastItem(arr)]. *)
Definition excludeIncompleteLastItem {T : Type} (arr : list T) : list T :=
  if (length arr =? 0)%nat then []
  else if (length arr <=? 1)%nat then []
  else take (length arr - 1) arr.

Record Extracted : Type := mkExtracted
  { viewport : option (ViewportRect jsval);
    drawElements : list json;
    restoreId : jsval;
    deleteIds : gset string }.

(** One turn of the loop of [extractViewportAndElements]. *)
Definition extract_step (acc : Extracted) (el : json) : throws Extracted :=
  isCam ← type_is "cameraUpdate" el;
  if isCam : bool then
    ex ← get el "x"; ey ← get el "y"; ew ← get el "width"; eh ← get el "height";
    Some (mkExtracted (Some (mkViewport ex ey ew eh)) (drawElements acc) (restoreId acc) (deleteIds acc))
  else
    isRestore ← type_is "restoreCheckpoint" el;
    if isRestore : bool then
      i ← get el "id";
      Some (mkExtracted (viewport acc) (drawElements acc) i (deleteIds acc))
    else
      isDelete ← type_is "delete" el;
      if isDelete : bool then
        ids ← add_delete_ids el (deleteIds acc);
        Some (mkExtracted (viewport acc) (drawElements acc) (restoreId acc) ids)
      else
        Some (mkExtracted (viewport acc) (drawElements acc ++ [el]) (restoreId acc) (deleteIds acc)).

Fixpoint extract_loop (acc : Extracted) (elements : list json) : throws Extracted :=
  match elements with
  | [] => Some acc
  | el :: rest => acc' ← extract_step acc el; extract_loop acc' rest
  end.

(** [{ ...el, opacity: 1 }]. *)
Definition with_opacity_1 (el : json) : json :=
  match el with
  | JObj ms => JObj (set_member "opacity" (JNum 1) ms)
  | _ => el
  end.

(** Elements named by a delete directive are hidden, not removed. *)
Definition hide_deleted (ids : gset string) (el : json) : throws json :=
  i ← get el "id";
  c ← get el "containerId";
  Some (if has ids i || has ids c then with_opacity_1 el else el).

(** [extractViewportAndElements(elements)]. *)
Definition extractViewportAndElements (elements : list json) : throws Extracted :=
  acc ← extract_loop (mkExtracted None [] None ∅) elements;
  processedDraw ←
    (if bool_decide (deleteIds acc = ∅) then Some (drawElements acc)
     else mapM (hide_deleted (deleteIds acc)) (drawElements acc));
  Some (mkExtracted (viewport acc) processedDraw (restoreId acc) (deleteIds acc)).

(** The array handed to [extractViewportAndElements] by the effect of
    [DiagramView] when the tool input is final. *)
Definition finalFrameElements (str : string) : throws (list json) :=
  as_array (parsePartialElements (Some str)).

(** The array handed to [extractViewportAndElements] when the tool input is
    still streaming. *)
Definition streamFrameElements (str : string) : throws (list json) :=
  parsed ← as_array (parsePartialElements (Some str));
  Some (excludeIncompleteLastItem parsed).

End Helpers.

(** *** The directives of a streaming frame *)

(** The loop of the streaming branch of [DiagramView] over the recovered
    array, run before the last item is dropped: the restore id and the
    delete ids. *)
Definition stream_directive_step (acc : jsval * gset string) (el : json)
  : throws (jsval * gset string) :=
  isRestore ← type_is "restoreCheckpoint" el;
  if isRestore : bool then
    i ← get el "id"; Some (i, snd acc)
  else
    isDelete ← type_is "delete" el;
    if isDelete : bool then
      ids ← add_delete_ids el (snd acc); Some (fst acc, ids)
    else Some acc.

Fixpoint stream_directive_loop (acc : jsval * gset string) (parsed : list json)
  : throws (jsval * gset string) :=
  match parsed with
  | [] => Some acc
  | el :: rest => acc' ← stream_directive_step acc el; stream_directive_loop acc' rest
  end.

Definition streamDirectives (parsed : list json) : throws (jsval * gset string) :=
  stream_directive_loop (None, ∅) parsed.

(* ===================================================================== *)
(** ** Server: the checkpoint store and the [create_view] tool *)
(* ===================================================================== *)

(** What the store keeps under a checkpoint id: the value of [elements], an
    array for every checkpoint written by [create_view] (the [save_checkpoint]
    tool stores the value it finds in its data, whatever it is), and the
    plan. *)
Record Checkpoint : Type := mkCheckpoint
  { elements : json; plan : option string }.

(** Modelled from the spec: the [CheckpointStore] interface, whose module
    (checkpoint-store) is not among the sources. [save(id, {elements, plan})]
    and [load(id)], which answers the stored checkpoint or nothing. [load]
    receives whatever value the caller read from the element. *)
Class CheckpointStore (S : Type) : Type :=
  { load : S -> json -> option Checkpoint;
    save : S -> string -> Checkpoint -> S }.

(** A store kept in a finite map: [save] overwrites, [load] looks the id up;
    only a string names a checkpoint. *)
#[export] Instance MapStore : CheckpointStore (gmap string Checkpoint) :=
  {| load st i := match i with JStr s => st !! s | _ => None end;
     save st i c := <[ i := c ]> st |}.

(** Maximum allowed size for element/data input strings (5 MB). *)
Definition MAX_INPUT_BYTES : Z := 5 * 1024 * 1024.

Record CallToolResult : Type := mkResult
  { text : string; isError : bool; structuredContent : option string }.

(** What the handler asked of its collaborators, in order. *)
Inductive event : Type :=
| EvParse
| EvLoad (i : json)
| EvSave (i : string).

Record Outcome (S : Type) : Type := mkOutcome
  { result : throws CallToolResult;
    store_after : S;
    trace : list event }.
Arguments mkOutcome {S} _ _ _.
Arguments result {S} _.
Arguments store_after {S} _.
Arguments trace {S} _.

Definition text_too_large : string :=
  "Elements input exceeds " +:+ JsString.of_Z MAX_INPUT_BYTES
  +:+ " byte limit. Reduce the number of elements or use checkpoints to build incrementally.".

Definition text_invalid_json (message : string) : string :=
  "Invalid JSON in elements: " +:+ message
  +:+ ". Ensure no comments, no trailing commas, and proper quoting.".

Definition text_not_found (i : jsval) : string :=
  JsString.dq "Checkpoint '" +:+ String_of i
  +:+ JsString.dq "' not found — it may have expired or never existed. Please recreate the diagram from scratch.".

Definition text_displayed (checkpointId ratioHint : string) : string :=
  JsString.dq "Diagram displayed! Checkpoint id: '" +:+ checkpointId +:+ JsString.dq "'.
If user asks to create a new diagram - simply create a new one from scratch.
However, if the user wants to edit something on this diagram '" +:+ checkpointId +:+ JsString.dq "', take these steps:
1) read widget context (using read_widget_context tool) to check if user made any manual edits first
2) decide whether you want to make new diagram from scratch OR - use this one as starting checkpoint:
  simply start from the first element [{'type':'restoreCheckpoint','id':'" +:+ checkpointId +:+ JsString.dq "'}, ...your new elements...]
  this will use same diagram state as the user currently sees, including any manual edits they made in fullscreen, allowing you to add elements on top.
  To remove elements, use: {'type':'delete','ids':'<id1>,<id2>'}" +:+ ratioHint.

(** The delete ids of the input: every [delete] entry contributes. *)
Fixpoint collect_delete_ids (parsed : list json) (ids : gset string) : throws (gset string) :=
  match parsed with
  | [] => Some ids
  | el :: rest =>
      isDelete ← type_is "delete" el;
      ids' ← (if isDelete : bool then add_delete_ids el ids else Some ids);
      collect_delete_ids rest ids'
  end.

(** [el => !deleteIds.has(el.id) && !deleteIds.has(el.containerId)]. *)
Definition survives (ids : gset string) (el : json) : throws bool :=
  i ← get el "id";
  c ← get el "containerId";
  Some (negb (has ids i) && negb (has ids c)).

(** [el => el.type !== "restoreCheckpoint" && el.type !== "delete"]. *)
Definition is_new_element (el : json) : throws bool :=
  r ← type_is "restoreCheckpoint" el;
  d ← type_is "delete" el;
  Some (negb r && negb d).

(** [el => el.type !== "delete"]. *)
Definition is_not_delete (el : json) : throws bool :=
  d ← type_is "delete" el; Some (negb d).

(** [crypto.randomUUID().replace(/-/g, "").slice(0, 18)]. *)
Definition checkpointId_of (uuid : string) : string :=
  JsString.slice0 18 (JsString.remove_char "-"%char uuid).

Section CreateView.

Context {S : Type} `{CheckpointStore S}.

(** [JSON.parse], and the message of the [SyntaxError] it throws. *)
Variable JSON_parse : string -> option json.
Variable SyntaxError_message : string -> string.

(** The aspect-ratio tip appended to the success text: it is computed from
    the [cameraUpdate] entries by a floating-point division and only
    decorates the text. *)
Variable ratioHint : list json -> string.

(** The resolved scene when a checkpoint is restored. *)
Definition resolve_restored (base : Checkpoint) (parsed : list json) : throws (list json) :=
  ids ← collect_delete_ids parsed ∅;
  baseElements ← as_array (elements base);
  baseFiltered ← filterM (survives ids) baseElements;
  newEls ← filterM is_new_element parsed;
  Some (baseFiltered ++ newEls).

(** The tail of the handler: the camera check and the save. *)
Definition save_and_reply (st : S) (tr : list event) (uuid : string)
    (parsed resolvedElements : list json) (planToSave : option string) : Outcome S :=
  match filterM (type_is "cameraUpdate") parsed with
  | None => mkOutcome None st tr
  | Some cameras =>
      let checkpointId := checkpointId_of uuid in
      mkOutcome
        (Some (mkResult (text_displayed checkpointId (ratioHint cameras)) false (Some checkpointId)))
        (save st checkpointId (mkCheckpoint (JArr resolvedElements) planToSave))
        (tr ++ [EvSave checkpointId])
  end.

(** The branch taken when the first [restoreCheckpoint] entry carries a
    truthy id [i]. *)
Definition restore_and_save (st : S) (uuid : string) (parsed : list json)
    (plan_arg : option string) (i : json) : Outcome S :=
  match load st i with
  | None =>
      mkOutcome (Some (mkResult (text_not_found (Some i)) true None))
        st [EvParse; EvLoad i]
  | Some base =>
      let planToSave :=
        match plan_arg with
        | Some p => Some p
        | None => Some (default "" (plan base))
        end in
      match resolve_restored base parsed with
      | None => mkOutcome None st [EvParse; EvLoad i]
      | Some resolvedElements =>
          save_and_reply st [EvParse; EvLoad i] uuid parsed resolvedElements planToSave
      end
  end.

(** The branch taken otherwise: the input alone is the scene. *)
Definition save_from_scratch (st : S) (uuid : string) (parsed : list json)
    (plan_arg : option string) : Outcome S :=
  match filterM is_not_delete parsed with
  | None => mkOutcome None st [EvParse]
  | Some resolvedElements =>
      save_and_reply st [EvParse] uuid parsed resolvedElements plan_arg
  end.

(** [restoreEl?.id] for [restoreEl = parsed.find(el => el.type === "restoreCheckpoint")]. *)
Definition restoreEl_id (parsed : list json) : throws jsval :=
  restoreEl ← findM (type_is "restoreCheckpoint") parsed;
  match restoreEl with
  | None => Some None
  | Some el => get el "id"
  end.

(** The handler of the [create_view] tool. [uuid] is the value drawn by
    [crypto.randomUUID()]. *)
Definition create_view (elements_arg : string) (plan_arg : option string)
    (uuid : string) (st : S) : Outcome S :=
  if Z.of_nat (String.length elements_arg) >? MAX_INPUT_BYTES then
    mkOutcome (Some (mkResult text_too_large true None)) st []
  else
    match JSON_parse elements_arg with
    | None =>
        mkOutcome
          (Some (mkResult (text_invalid_json (SyntaxError_message elements_arg)) true None))
          st [EvParse]
    | Some parsedv =>
        match parsed ← as_array parsedv; i ← restoreEl_id parsed; Some (parsed, i) with
        | None => mkOutcome None st [EvParse]
        | Some (parsed, Some i) =>
            if truthy (Some i) then restore_and_save st uuid parsed plan_arg i
            else save_from_scratch st uuid parsed plan_arg
        | Some (parsed, None) => save_from_scratch st uuid parsed plan_arg
        end
    end.

End CreateView.

(* ===================================================================== *)
(** ** Server: file names, the upload frame and the [save_checkpoint] tool *)
(* ===================================================================== *)

(** The character class of the first [replace] of [sanitizeFilenamePart]:
    slash, backslash, colon, star, question mark, double quote, angle
    brackets and bar, which a file name must not hold. *)
Definition is_unsafe_char (c : ascii) : bool :=
  existsb (Ascii.eqb c)
    ["/"; "\"; ":"; "*"; "?"; JsString.quote; "<"; ">"; "|"]%char.

(** The first [replace]: every such character becomes a hyphen. *)
Fixpoint replace_unsafe (s : string) : string :=
  match s with
  | EmptyString => EmptyString
  | String c r => String (if is_unsafe_char c then "-"%char else c) (replace_unsafe r)
  end.

(** [s.replace(/\s+/g, " ")]: every maximal run of white space becomes one
    space; [in_run] says that the previous character was white space. *)
Fixpoint collapse_spaces (in_run : bool) (s : string) : string :=
  match s with
  | EmptyString => EmptyString
  | String c r =>
      if JsString.is_js_space c then
        if in_run then collapse_spaces true r else String " "%char (collapse_spaces true r)
      else String c (collapse_spaces false r)
  end.

(** Sanitize a string for use as filename (no path, no unsafe chars). *)
Definition sanitizeFilenamePart (name : string) : string :=
  let s := JsString.slice0 100
             (JsString.trim (collapse_spaces false (replace_unsafe name))) in
  if String.eqb s "" then "diagram" else s.

(** A [Uint8Array]: its bytes, each in [0, 256). *)
Abbreviation Uint8Array := (list Z).

(** [new Uint8Array(n)]: [n] zero bytes. *)
Definition new_Uint8Array (n : nat) : Uint8Array := replicate n 0.

(** The four bytes that [DataView.prototype.setUint32(off, v)] writes: [v]
    modulo [2^32], most significant byte first. *)
Definition uint32_bytes (v : Z) : list Z :=
  let v := v mod 2 ^ 32 in
  [v / 2 ^ 24; (v / 2 ^ 16) mod 256; (v / 2 ^ 8) mod 256; v mod 256].

(** [dv.setUint32(off, v)] on the bytes of the buffer. *)
Definition setUint32 (off : nat) (v : Z) (out : Uint8Array) : Uint8Array :=
  list_inserts off (uint32_bytes v) out.

(** [out.set(b, off)]. *)
Definition set_at (b : Uint8Array) (off : nat) (out : Uint8Array) : Uint8Array :=
  list_inserts off b out.

(** [for (const b of bufs) total += 4 + b.length], from [total]. *)
Definition total_length (bufs : list Uint8Array) (total : nat) : nat :=
  fold_left (fun total b => total + (4 + length b))%nat bufs total.

(** One turn of the second loop of [concatBuffers]. *)
Definition write_buffer (st : Uint8Array * nat) (b : Uint8Array) : Uint8Array * nat :=
  let '(out, off) := st in
  let out := setUint32 off (Z.of_nat (length b)) out in
  let off := (off + 4)%nat in
  let out := set_at b off out in
  (out, (off + length b)%nat).

(** [concatBuffers(...bufs)] of the [export_to_excalidraw] tool. *)
Definition concatBuffers (bufs : list Uint8Array) : Uint8Array :=
  let total := total_length bufs 4 in
  let out := new_Uint8Array total in
  let out := setUint32 0 1 out in
  fst (fold_left write_buffer bufs (out, 4%nat)).

(** A buffer behind its length. *)
Definition framed (b : Uint8Array) : list Z := uint32_bytes (Z.of_nat (length b)) ++ b.

Definition text_checkpoint_too_large : string :=
  "Checkpoint data exceeds " +:+ JsString.of_Z MAX_INPUT_BYTES +:+ " byte limit.".

Definition text_save_failed (message : string) : string := "save failed: " +:+ message.

(** [parsed.elements ?? fallback]: the member itself unless it is nullish,
    whatever its value. *)
Definition elements_or (v : jsval) (fallback : json) : json :=
  default fallback (nullish_or v None).

Section SaveCheckpoint.

Context {S : Type} `{CheckpointStore S}.

(** [JSON.parse], the message of the [SyntaxError] it throws, and the
    message of the [TypeError] thrown by reading a property of [null]. *)
Variable JSON_parse : string -> option json.
Variable SyntaxError_message : string -> string.
Variable TypeError_message : string.

(** The handler of the [save_checkpoint] tool; every throw within its [try]
    is answered by an error result. *)
Definition save_checkpoint (id data : string) (st : S) : Outcome S :=
  if Z.of_nat (String.length data) >? MAX_INPUT_BYTES then
    mkOutcome (Some (mkResult text_checkpoint_too_large true None)) st []
  else
    match JSON_parse data with
    | None =>
        mkOutcome (Some (mkResult (text_save_failed (SyntaxError_message data)) true None))
          st [EvParse]
    | Some parsed =>
        let existing := load st (JStr id) in
        match get parsed "elements" with
        | None =>
            mkOutcome (Some (mkResult (text_save_failed TypeError_message) true None))
              st [EvParse; EvLoad (JStr id)]
        | Some els =>
            let merged :=
              match existing with
              | Some existing => mkCheckpoint (elements_or els (elements existing)) (plan existing)
              | None => mkCheckpoint (elements_or els (JArr [])) None
              end in
            mkOutcome (Some (mkResult "ok" false None)) (save st id merged)
              [EvParse; EvLoad (JStr id); EvSave id]
        end
    end.

End SaveCheckpoint.

(** *** Arrays without [null]

    Reading a property throws on [null] only. On an array without [null]
    the predicates above never throw, and read as follows. *)

Definition not_null (v : json) : Prop := v <> JNull.

(** [v.k], for [v] other than [null]. *)
Definition prop (v : json) (k : string) : jsval := default None (get v k).

Definition is_type (t : string) (v : json) : bool :=
  match prop v "type" with
  | Some (JStr s) => String.eqb s t
  | _ => false
  end.

(** The ids named by the [delete] entries of the input. *)
Definition delete_ids (parsed : list json) : gset string :=
  foldl
    (fun ids el =>
       if is_type "delete" el then
         foldl (fun acc i => acc ∪ {[ JsString.trim i ]}) ids
           (JsString.split ","%char (String_of (nullish_or (prop el "ids") (prop el "id"))))
       else ids)
    ∅ parsed.

(** An element of the base scene is kept unless its id or its
    [containerId] is in the delete set. *)
Definition kept (ids : gset string) (el : json) : bool :=
  negb (has ids (prop el "id")) && negb (has ids (prop el "containerId")).

(** An entry of the input that is neither a restore nor a delete directive. *)
Definition supplied (el : json) : bool :=
  negb (is_type "restoreCheckpoint" el) && negb (is_type "delete" el).

(* ===================================================================== *)
(** ** JavaScript numbers *)
(* ===================================================================== *)

(** A JavaScript number is a binary64 floating-point number: the primitive
    floats, whose operations are those of the processor. *)
Module Number.

Local Open Scope float_scope.

(** [ToNumber(v)] for a number that may be [undefined]. *)
Definition of_optional (v : option float) : float := default nan v.

(** [Math.max(a, b)]: [NaN] when an argument is [NaN]; [+0] is larger than
    [-0]. *)
Definition Math_max (a b : float) : float :=
  if is_nan a || is_nan b then nan
  else if a <? b then b
  else if b <? a then a
  else if get_sign a then b else a.

(** [Math.max(a, b, c)]. *)
Definition Math_max3 (a b c : float) : float := Math_max (Math_max a b) c.

Definition Math_abs : float -> float := abs.
Definition Math_sqrt : float -> float := sqrt.

(** *** Vocabulary of the order of numbers

    The specification of the primitive floats reads a number as a sign, a
    mantissa and an exponent. Its order is the lexicographic order of the
    keys below: the class (infinities, finite numbers of either sign,
    zeros), then the exponent, then the mantissa. *)

Definition sf_is_nan (x : spec_float) : bool :=
  match x with S754_nan => true | _ => false end.

Definition key (x : spec_float) : Z * Z * Z :=
  match x with
  | S754_nan => (0, 0, 0)
  | S754_zero _ => (0, 0, 0)
  | S754_infinity s => (if s then -2 else 2, 0, 0)
  | S754_finite s m e => if s then (-1, - e, - Zpos m) else (1, e, Zpos m)
  end%Z.

Definition key_cmp (a b : Z * Z * Z) : comparison :=
  let '(c1, e1, m1) := a in
  let '(c2, e2, m2) := b in
  match (c1 ?= c2)%Z with
  | Eq => match (e1 ?= e2)%Z with Eq => (m1 ?= m2)%Z | c => c end
  | c => c
  end.

(** An infinity or a finite number of sign [s]. *)
Definition signed (s : bool) (x : spec_float) : Prop :=
  x = S754_infinity s \/ exists m e, x = S754_finite s m e.

End Number.

(* ===================================================================== *)
(** ** Widget: geometry passes *)
(* ===================================================================== *)

(** [arr.sort(cmp)] is stable: [before a b] says that [cmp(a, b) < 0]. An
    item is moved in front of another one only when it is strictly before
    it. This is the order of the language when [cmp] is consistent; when it
    is not (a difference that is [NaN] next to differences that are not),
    the language leaves the order to the engine, and the statements below
    either assume the differences to be numbers or do not depend on the
    order. *)
Fixpoint sort_insert {A : Type} (before : A -> A -> bool) (a : A) (l : list A) : list A :=
  match l with
  | [] => [a]
  | b :: r => if before b a then b :: sort_insert before a r else a :: b :: r
  end.

Fixpoint stable_sort {A : Type} (before : A -> A -> bool) (l : list A) : list A :=
  match l with
  | [] => []
  | a :: r => sort_insert before a (stable_sort before r)
  end.

Module Geometry.

Import Number.
Local Open Scope float_scope.

(** The elements as the geometry passes read them: numbers are binary64
    floats, an absent optional field is [None]. A [points] array has at
    least one point (the passes index its first and last entry). *)
Record Binding : Type := mkBinding
  { elementId : option string; fixedPoint : option (float * float) }.

Record BoundRef : Type := mkBoundRef
  { ref_type : string; ref_id : option string }.

Record element : Type := mkElement
  { type : string;
    id : option string;
    x : float;
    y : float;
    width : option float;
    height : option float;
    points : option ((float * float) * list (float * float));
    startBinding : option Binding;
    endBinding : option Binding;
    startArrowhead : option string;
    endArrowhead : option string;
    boundElements : option (list BoundRef);
    groupIds : option (list string);
    roughness : option float }.

Definition set_roughness (r : option float) (el : element) : element :=
  mkElement (type el) (id el) (x el) (y el) (width el) (height el) (points el)
    (startBinding el) (endBinding el) (startArrowhead el) (endArrowhead el)
    (boundElements el) (groupIds el) r.

Definition set_bindings (s e : option Binding) (el : element) : element :=
  mkElement (type el) (id el) (x el) (y el) (width el) (height el) (points el)
    s e (startArrowhead el) (endArrowhead el)
    (boundElements el) (groupIds el) (roughness el).

Definition set_arrowheads (s e : option string) (el : element) : element :=
  mkElement (type el) (id el) (x el) (y el) (width el) (height el) (points el)
    (startBinding el) (endBinding el) s e
    (boundElements el) (groupIds el) (roughness el).

Definition set_boundElements (b : option (list BoundRef)) (el : element) : element :=
  mkElement (type el) (id el) (x el) (y el) (width el) (height el) (points el)
    (startBinding el) (endBinding el) (startArrowhead el) (endArrowhead el)
    b (groupIds el) (roughness el).

Definition set_groupIds (g : option (list string)) (el : element) : element :=
  mkElement (type el) (id el) (x el) (y el) (width el) (height el) (points el)
    (startBinding el) (endBinding el) (startArrowhead el) (endArrowhead el)
    (boundElements el) g (roughness el).

(** Force cleaner style: roughness 0 on all drawable elements. *)
Definition forceCleanStyle (elements : list element) : list element :=
  List.map (set_roughness (Some 0)) elements.

Definition PSEUDO_TYPES : list string := ["cameraUpdate"; "delete"; "restoreCheckpoint"].
Definition CONTAINER_SHAPES : list string := ["rectangle"; "diamond"; "ellipse"].
Definition HAS_BOUNDS : list string :=
  ["rectangle"; "diamond"; "ellipse"; "arrow"; "text"; "line"].
Definition BINDABLE_SHAPES : list string := ["rectangle"; "diamond"; "ellipse"].
Definition MAX_BINDING_DIST : float := 80.

(** [set.has(t)] for the constant sets of type names. *)
Definition type_in (types : list string) (el : element) : bool :=
  bool_decide (type el ∈ types).

Definition is_arrow_or_line (el : element) : bool :=
  String.eqb (type el) "arrow" || String.eqb (type el) "line".

Record Bounds : Type := mkBounds
  { left : float; top : float; right : float; bottom : float }.

Definition elementBounds (el : element) : option Bounds :=
  let w := default 0 (width el) in
  let h := default 0 (height el) in
  if (w <=? 0) || (h <=? 0) then None
  else Some (mkBounds (x el) (y el) (x el + w) (y el + h)).

Definition isFullyInside (inner outer : Bounds) : bool :=
  (left outer <=? left inner) && (top outer <=? top inner)
  && (right inner <=? right outer) && (bottom inner <=? bottom outer).

Definition fixedPointForPoint (px py : float) (el : element) : float * float :=
  let ex := x el in
  let ey := y el in
  let er := x el + default 0 (width el) in
  let eb := y el + default 0 (height el) in
  let cx := (ex + er) / 2 in
  let cy := (ey + eb) / 2 in
  let dx := Math_abs (px - cx) in
  let dy := Math_abs (py - cy) in
  if dy <? dx then (if px <? cx then (0, 0.5) else (1, 0.5))
  else (if py <? cy then (0.5, 0) else (0.5, 1)).

Definition distToRect (px py : float) (el : element) : float :=
  let ex := x el in
  let ey := y el in
  let er := x el + default 0 (width el) in
  let eb := y el + default 0 (height el) in
  let dx := Math_max3 (ex - px) 0 (px - er) in
  let dy := Math_max3 (ey - py) 0 (py - eb) in
  Math_sqrt (dx * dx + dy * dy).

(** [el.points ?? [[0, 0], [el.width ?? 0, el.height ?? 0]]]. *)
Definition points_of (el : element) : (float * float) * list (float * float) :=
  match points el with
  | Some pts => pts
  | None => ((0, 0), [(default 0 (width el), default 0 (height el))])
  end.

Definition start_of (el : element) : float * float :=
  let p := fst (points_of el) in (x el + fst p, y el + snd p).

Definition end_of (el : element) : float * float :=
  let p := List.last (snd (points_of el)) (fst (points_of el)) in
  (x el + fst p, y el + snd p).

(** The comparator [(a, b) => a.d - b.d] of the candidates: [a] goes before
    [b] when the difference is negative. *)
Definition nearer (a b : element * float) : bool := (snd a - snd b <? 0).

(** [cands.map(b => ({ el: b, d: distToRect(px, py, b) })).sort((a, b) => a.d - b.d)[0]]. *)
Definition closest (cands : list element) (p : float * float) : option (element * float) :=
  head (stable_sort nearer (List.map (fun b => (b, distToRect (fst p) (snd p) b)) cands)).

(** The binding chosen for an end point among the candidates, if any. *)
Definition bind_to_closest (cands : list element) (p : float * float) : option Binding :=
  match closest cands p with
  | Some (b, d) =>
      if d <=? MAX_BINDING_DIST
      then Some (mkBinding (id b) (Some (fixedPointForPoint (fst p) (snd p) b)))
      else None
  | None => None
  end.

(** [a !== b] on ids, either of which may be [undefined]. *)
Definition neq_id (a b : option string) : bool := negb (bool_decide (a = b)).

(** [binding?.elementId]. *)
Definition elementId_of (b : option Binding) : option string := b ≫= elementId.

Definition chosen_start (bindable : list element) (el : element) : option Binding :=
  match startBinding el with
  | Some b => Some b
  | None =>
      if (0 <? length bindable)%nat
      then bind_to_closest (filter (fun b => neq_id (id b) (id el)) bindable) (start_of el)
      else None
  end.

Definition chosen_end (bindable : list element) (el : element) (startB : option Binding)
  : option Binding :=
  match endBinding el with
  | Some b => Some b
  | None =>
      if (0 <? length bindable)%nat
      then bind_to_closest
             (filter (fun b => neq_id (id b) (id el) && neq_id (id b) (elementId_of startB))
                bindable)
             (end_of el)
      else None
  end.

Abbreviation BoundUpdates := (gmap (option string) (list BoundRef)).

(** [if (!cur.some(b => b.id === el.id)) boundUpdates.set(target, [...cur, arrowRef])]. *)
Definition note_bound (target : option string) (arrowRef : BoundRef)
    (boundUpdates : BoundUpdates) : BoundUpdates :=
  let cur := default [] (boundUpdates !! target) in
  if existsb (fun b => bool_decide (ref_id b = ref_id arrowRef)) cur then boundUpdates
  else <[ target := cur ++ [arrowRef] ]> boundUpdates.

(** The callback of the first [map] of [ensureArrowBindings]: the element
    with its bindings, and the updated [boundUpdates]. *)
Definition bind_arrow (bindable : list element) (el : element)
    (boundUpdates : BoundUpdates) : element * BoundUpdates :=
  if negb (is_arrow_or_line el) then (el, boundUpdates)
  else
    let startB := chosen_start bindable el in
    let endB := chosen_end bindable el startB in
    let arrowRef := mkBoundRef "arrow" (id el) in
    let bu1 :=
      match startB with
      | Some s => note_bound (elementId s) arrowRef boundUpdates
      | None => boundUpdates
      end in
    let bu2 :=
      match endB with
      | Some e =>
          if neq_id (elementId e) (elementId_of startB)
          then note_bound (elementId e) arrowRef bu1
          else bu1
      | None => bu1
      end in
    (set_bindings startB endB el, bu2).

Fixpoint bind_arrows (bindable : list element) (elements : list element)
    (boundUpdates : BoundUpdates) : list element * BoundUpdates :=
  match elements with
  | [] => ([], boundUpdates)
  | el :: rest =>
      let '(el', bu') := bind_arrow bindable el boundUpdates in
      let '(rest', bu'') := bind_arrows bindable rest bu' in
      (el' :: rest', bu'')
  end.

(** [for (const ref of add) if (!merged.some(b => b.id === ref.id)) merged.push(ref)]. *)
Definition merge_refs (existing add : list BoundRef) : list BoundRef :=
  fold_left
    (fun merged ref =>
       if existsb (fun b => bool_decide (ref_id b = ref_id ref)) merged then merged
       else merged ++ [ref])
    add existing.

Definition add_bound (boundUpdates : BoundUpdates) (el : element) : element :=
  match boundUpdates !! id el with
  | None => el
  | Some add =>
      set_boundElements (Some (merge_refs (default [] (boundElements el)) add)) el
  end.

(** Ensure arrows have startBinding/endBinding to closest bindable shapes.
    Also updates boundElements on target shapes. *)
Definition ensureArrowBindings (elements : list element) : list element :=
  let bindable := filter (type_in BINDABLE_SHAPES) elements in
  let '(result, boundUpdates) := bind_arrows bindable elements ∅ in
  List.map (add_bound boundUpdates) result.

Definition triangle_if_set (a : option string) : option string :=
  match a with
  | Some s => if negb (String.eqb s "none") then Some "triangle"%string else a
  | None => a
  end.

(** Force triangle arrowhead on all arrows that have arrowheads. *)
Definition forceTriangleArrowhead (elements : list element) : list element :=
  List.map
    (fun el =>
       if negb (is_arrow_or_line el) then el
       else set_arrowheads (triangle_if_set (startArrowhead el))
              (triangle_if_set (endArrowhead el)) el)
    elements.

(** [b.width * b.height]: [NaN] when a factor is absent. *)
Definition area (el : element) : float :=
  of_optional (width el) * of_optional (height el).

(** The comparator [(a, b) => b.width * b.height - a.width * a.height]: [a]
    goes before [b] when the difference is negative; a [NaN] difference
    counts as a tie. *)
Definition larger (a b : element) : bool := (area b - area a <? 0).

Definition inside_of (pb : Bounds) (c : element) : bool :=
  match elementBounds c with
  | Some cb => isFullyInside cb pb
  | None => false
  end.

Abbreviation IdSet := (gset (option string)).

(** One turn of the loop of [reorderElementsForArrows] over [byArea]. *)
Definition classify_parent (drawable : list element) (sets : IdSet * IdSet) (p : element)
  : IdSet * IdSet :=
  match elementBounds p with
  | None => sets
  | Some pb =>
      let children :=
        filter (fun c => neq_id (id c) (id p) && type_in CONTAINER_SHAPES c && type_in HAS_BOUNDS c)
          drawable in
      let inside := filter (inside_of pb) children in
      if (length inside =? 0)%nat then sets
      else (fst sets ∪ {[ id p ]}, snd sets ∪ list_to_set (List.map id inside))
  end.

Definition classify (elements : list element) : IdSet * IdSet :=
  let drawable := filter (fun el => negb (type_in PSEUDO_TYPES el)) elements in
  let containers := filter (type_in CONTAINER_SHAPES) drawable in
  let byArea := stable_sort larger containers in
  fold_left (classify_parent drawable) byArea (∅, ∅).

Definition arrow_ids (elements : list element) : IdSet :=
  let drawable := filter (fun el => negb (type_in PSEUDO_TYPES el)) elements in
  list_to_set (List.map id (filter is_arrow_or_line drawable)).

Definition in_set (s : IdSet) (el : element) : bool := bool_decide (id el ∈ s).

(** Reorder elements: group containers (back), arrows, nested shapes
    (front), then the rest. *)
Definition reorderElementsForArrows (elements : list element) : list element :=
  let '(containerIds, nestedIds) := classify elements in
  let arrowIds := arrow_ids elements in
  let back := filter (in_set containerIds) elements in
  let mid := filter (in_set arrowIds) elements in
  let front := filter (in_set nestedIds) elements in
  let other :=
    filter (fun el => negb (in_set containerIds el) && negb (in_set nestedIds el)
                      && negb (in_set arrowIds el)) elements in
  back ++ mid ++ front ++ other.

(** [resultById]: the index of the last element that carries each id. *)
Definition index_by_id (elements : list element) : gmap (option string) nat :=
  fold_left (fun m p => <[ id (snd p) := fst p ]> m) (imap (fun i el => (i, el)) elements) ∅.

(** The inner loop of [assignGroupIdsForNestedShapes]: tag one member. *)
Definition tag_member (resultById : gmap (option string) nat) (groupId : string)
    (result : list element) (el : element) : list element :=
  match resultById !! id el with
  | None => result
  | Some idx =>
      match result !! idx with
      | None => result
      | Some r =>
          let existing := default [] (groupIds r) in
          if bool_decide (groupId ∈ existing) then result
          else <[ idx := set_groupIds (Some (existing ++ [groupId])) r ]> result
      end
  end.

(** One turn of the outer loop: [n] counts the group ids drawn so far from
    [randomUUID], the stream of values of [crypto.randomUUID()]. *)
Definition group_parent (randomUUID : nat -> string) (withBounds : list element)
    (resultById : gmap (option string) nat) (st : list element * nat) (parent : element)
  : list element * nat :=
  match elementBounds parent with
  | None => st
  | Some pb =>
      let children :=
        filter (fun c => neq_id (id c) (id parent) && inside_of pb c) withBounds in
      if (length children =? 0)%nat then st
      else
        let groupId := randomUUID (snd st) in
        (fold_left (tag_member resultById groupId) (parent :: children) (fst st), S (snd st))
  end.

(** Assign groupIds so nested shapes form groups. *)
Definition assignGroupIdsForNestedShapes (randomUUID : nat -> string) (n : nat)
    (elements : list element) : list element * nat :=
  let drawable := filter (fun el => negb (type_in PSEUDO_TYPES el)) elements in
  let containers := filter (type_in CONTAINER_SHAPES) drawable in
  let withBounds := filter (type_in HAS_BOUNDS) drawable in
  if (length containers <? 1)%nat || (length withBounds <? 2)%nat then (elements, n)
  else
    let byArea := stable_sort larger containers in
    let result := List.map (fun el => set_groupIds (Some (default [] (groupIds el))) el) elements in
    let resultById := index_by_id result in
    fold_left (group_parent randomUUID withBounds resultById) byArea (result, n).

(** The passes of [renderSvgPreview], in its order. *)
Definition normalize (randomUUID : nat -> string) (n : nat) (elements : list element)
  : list element * nat :=
  let processedEls := forceCleanStyle elements in
  let processedEls := ensureArrowBindings processedEls in
  let processedEls := forceTriangleArrowhead processedEls in
  let '(processedEls, n') := assignGroupIdsForNestedShapes randomUUID n processedEls in
  (reorderElementsForArrows processedEls, n').

(** *** The classes of the draw order, element by element

    The sets of [reorderElementsForArrows] hold ids. Read on the elements
    themselves: a shape contains another shape when its bounds exist and
    the bounds of the other shape lie fully inside them. *)

Definition contains (p c : element) : bool :=
  type_in CONTAINER_SHAPES p
  && match elementBounds p with
     | Some pb => neq_id (id c) (id p) && type_in CONTAINER_SHAPES c && inside_of pb c
     | None => false
     end.

(** A container: a shape that fully contains at least one other shape. *)
Definition is_container (elements : list element) (p : element) : bool :=
  existsb (contains p) elements.

(** A nested shape: a shape fully contained in some other shape. *)
Definition is_nested (elements : list element) (c : element) : bool :=
  existsb (fun p => contains p c) elements.

(** No id is in two of the three sets of [reorderElementsForArrows]. *)
Definition classes_disjoint (elements : list element) : bool :=
  let '(containerIds, nestedIds) := classify elements in
  let arrowIds := arrow_ids elements in
  bool_decide (containerIds ∩ nestedIds = ∅)
  && bool_decide (containerIds ∩ arrowIds = ∅)
  && bool_decide (nestedIds ∩ arrowIds = ∅).

(** *** Vocabulary of the statements about the passes *)

(** The shapes found inside [p] by one turn of the loop. *)
Definition nested_in (drawable : list element) (p : element) : list element :=
  match elementBounds p with
  | Some pb =>
      filter (inside_of pb)
        (filter (fun c => neq_id (id c) (id p) && type_in CONTAINER_SHAPES c && type_in HAS_BOUNDS c)
           drawable)
  | None => []
  end.


(** The distance of the point [p] to the rectangle of [c]. *)
Definition dist (p : float * float) (c : element) : float := distToRect (fst p) (snd p) c.

(** [c] is within the binding radius of the point [p]. *)
Definition within (p : float * float) (c : element) : bool := (dist p c <=? 80).

(** [best] is a candidate within the radius, and no candidate is closer. *)
Definition nearest (cands : list element) (p : float * float) (best : element) : Prop :=
  best ∈ cands /\ within p best = true
  /\ forall c, c ∈ cands -> (dist p best <=? dist p c) = true.

(** Every candidate has a distance to [p]: none is [NaN]. *)
Definition measurable (cands : list element) (p : float * float) : Prop :=
  forall c, c ∈ cands -> is_nan (dist p c) = false.

(** Every bindable shape of the scene has a distance to both ends of every
    arrow and line of the scene. *)
Definition numeric (l : list element) : bool :=
  forallb
    (fun a =>
       negb (is_arrow_or_line a)
       || forallb
            (fun c =>
               negb (type_in BINDABLE_SHAPES c)
               || (negb (is_nan (dist (start_of a) c)) && negb (is_nan (dist (end_of a) c))))
            l)
    l.

(** The element part of [bind_arrow] does not depend on [boundUpdates]. *)
Definition bound_element (bindable : list element) (el : element) : element :=
  if negb (is_arrow_or_line el) then el
  else
    let startB := chosen_start bindable el in
    set_bindings startB (chosen_end bindable el startB) el.

(** The fields that no pass writes. *)
Definition geo (e : element) :=
  (type e, id e, x e, y e, width e, height e, points e).

(** [b] is [a] with other group ids. *)
Definition same_but_groups (a b : element) : Prop := b = set_groupIds (groupIds b) a.

(** The group ids drawn from the stream at the positions [n, m). *)
Definition drawn_between (randomUUID : nat -> string) (n m : nat) (g : string) : Prop :=
  exists k, (n <= k < m)%nat /\ g = randomUUID k.

(** [b] is [a] with group ids appended, each of them [fresh]. *)
Definition groups_extended (fresh : string -> Prop) (a b : element) : Prop :=
  same_but_groups a b
  /\ exists extra, default [] (groupIds b) = default [] (groupIds a) ++ extra
                   /\ Forall fresh extra.

(** [e] has a box: neither its width nor its height is absent, zero or
    negative. *)
Definition boxed (e : element) : bool :=
  negb (default 0 (width e) <=? 0) && negb (default 0 (height e) <=? 0).

(** The shape [p] holds [c]: [c] is an element with another id, both have
    a box, and no side of the box of [c] is outside the box of [p]. *)
Definition holds (p c : element) : bool :=
  bool_decide (type p ∈ ["rectangle"; "diamond"; "ellipse"])
  && bool_decide (type c ∈ ["rectangle"; "diamond"; "ellipse"; "arrow"; "text"; "line"])
  && negb (bool_decide (id c = id p))
  && boxed p && boxed c
  && (x p <=? x c) && (y p <=? y c)
  && (x c + default 0 (width c) <=? x p + default 0 (width p))
  && (y c + default 0 (height c) <=? y p + default 0 (height p)).

(** [p] leads a cluster of the scene: it holds some element of it. *)
Definition leads (l : list element) (p : element) : bool := existsb (holds p) l.

(** The cluster of [p]: [p] itself and what it holds. *)
Definition in_cluster (p e : element) : bool := bool_decide (id e = id p) || holds p e.

(** The containers that lead a cluster, in the order in which the grouping
    pass visits them. *)
Definition leaders (l : list element) : list element :=
  filter (leads l)
    (stable_sort larger
       (filter (type_in CONTAINER_SHAPES) (filter (fun el => negb (type_in PSEUDO_TYPES el)) l))).

(** The second run on [a] gave [b]: the same element, with one group id
    appended for some of the clusters [a] is in, drawn at the turn of the
    leader of the cluster; [b] carries the group id of every cluster [a]
    is in. *)
Definition regrouped (randomUUID : nat -> string) (n : nat) (leading : list element)
    (a b : element) : Prop :=
  same_but_groups a b
  /\ exists turns : list nat,
      default [] (groupIds b) = default [] (groupIds a) ++ List.map (fun i => randomUUID (n + i)%nat) turns
      /\ (forall i, i ∈ turns -> exists p, leading !! i = Some p /\ in_cluster p a = true)
      /\ (forall i p, leading !! i = Some p -> in_cluster p a = true ->
           randomUUID (n + i)%nat ∈ default [] (groupIds b)).

(** [b] once the group id [g] is among its group ids. *)
Definition tagged (g : string) (b : element) : element :=
  if bool_decide (g ∈ default [] (groupIds b)) then b
  else set_groupIds (Some (default [] (groupIds b) ++ [g])) b.

(** Every element of [l] has its like, as to [geo], in [l']. *)
Definition covered (l l' : list element) : Prop :=
  forall a, a ∈ l -> exists b, b ∈ l' /\ geo b = geo a.

(** The list kept under [k] has a reference to the arrow [i]. *)
Definition has_entry (bu : BoundUpdates) (k i : option string) : Prop :=
  exists add, bu !! k = Some add /\ exists r, r ∈ add /\ ref_id r = i.

(** Every list kept in [bu] is non-empty and holds justified references. *)
Definition entries_ok (J : option string -> BoundRef -> Prop) (bu : BoundUpdates) : Prop :=
  forall k add, bu !! k = Some add -> add <> [] /\ forall r, r ∈ add -> J k r.

(** The arrow [a] is noted under [k]: its start binding names [k], or its
    end binding does and the start binding names another shape. *)
Definition noted (bindable : list element) (a : element) (k : option string) : Prop :=
  let startB := chosen_start bindable a in
  let endB := chosen_end bindable a startB in
  (exists s, startB = Some s /\ elementId s = k)
  \/ (exists e, endB = Some e /\ elementId e = k
                /\ neq_id (elementId e) (elementId_of startB) = true).

(** [el] carries a back-reference to the arrow [i]. *)
Definition has_ref (el : element) (i : option string) : Prop :=
  exists be, boundElements el = Some be /\ exists r, r ∈ be /\ ref_id r = i.

(** Every unbound end of an arrow is out of reach of every eligible shape,
    and every bound end is recorded on the elements it names. *)
Record settled (l : list element) : Prop := mkSettled
  { start_far : forall a c, a ∈ l -> c ∈ l -> is_arrow_or_line a = true ->
      startBinding a = None -> type_in BINDABLE_SHAPES c = true ->
      neq_id (id c) (id a) = true -> within (start_of a) c = false;
    end_far : forall a c, a ∈ l -> c ∈ l -> is_arrow_or_line a = true ->
      endBinding a = None -> type_in BINDABLE_SHAPES c = true ->
      neq_id (id c) (id a) = true ->
      neq_id (id c) (elementId_of (startBinding a)) = true -> within (end_of a) c = false;
    start_recorded : forall a el s, a ∈ l -> el ∈ l -> is_arrow_or_line a = true ->
      startBinding a = Some s -> id el = elementId s -> has_ref el (id a);
    end_recorded : forall a el e, a ∈ l -> el ∈ l -> is_arrow_or_line a = true ->
      endBinding a = Some e -> neq_id (elementId e) (elementId_of (startBinding a)) = true ->
      id el = elementId e -> has_ref el (id a) }.

(** The fields the binding pass reads or writes. *)
Definition core (e : element) :=
  (geo e, startBinding e, endBinding e, boundElements e).

Definition clean (e : element) : Prop := roughness e = Some 0.

Definition normal_heads (e : element) : Prop :=
  is_arrow_or_line e = true ->
  triangle_if_set (startArrowhead e) = startArrowhead e
  /\ triangle_if_set (endArrowhead e) = endArrowhead e.

Definition box (ty i : string) (px py w h : float) : element :=
  mkElement ty (Some i) px py (Some w) (Some h) None None None None None None None None.

Definition arrow_to (i : string) (px py dx dy : float) : element :=
  mkElement "arrow" (Some i) px py (Some dx) (Some dy) (Some ((0, 0), [(dx, dy)]))
    None None None (Some "arrow") None None None.


(** Two boxes joined by an arrow, and an arrow far from both. *)
Definition two_boxes : list element :=
  [box "rectangle" "left" 0 0 100 60; arrow_to "join" 110 30 180 0;
   box "ellipse" "right" 300 0 100 60; arrow_to "stray" 1000 1000 50 50].


(** A zone that holds two chips, an arrow between the chips, and a note. *)
Definition zone_scene : list element :=
  [box "rectangle" "chip1" 20 20 50 50; arrow_to "link" 75 45 120 0;
   box "rectangle" "zone" 0 0 400 300; box "ellipse" "chip2" 200 20 50 50;
   box "text" "note" 500 500 10 10].

(** Three shapes nested in one another. *)
Definition nested_scene : list element :=
  [box "rectangle" "inner" 20 20 10 10; box "rectangle" "outer" 0 0 400 300;
   box "rectangle" "middle" 10 10 100 100].

(** A stream of group ids that never repeats. *)
Definition example_uuids (k : nat) : string := "uuid-" +:+ JsString.of_Z (Z.of_nat k).

End Geometry.

(* ===================================================================== *)
(** ** Widget: the camera tick *)
(* ===================================================================== *)

Module Camera.

Local Open Scope float_scope.

(** JavaScript numbers are binary64 floats, and so are the kernel's. *)
#[warnings="-inexact-float"]
Definition LERP_SPEED : float := 0.03.

Record refs : Type := mkRefs
  { animatedVP : option (ViewportRect float);
    targetVP : option (ViewportRect float) }.

(** [a.f += (t.f - a.f) * LERP_SPEED]. *)
Definition lerp (a t : float) : float := a + (t - a) * LERP_SPEED.

(** The remaining distance summed over the four fields. *)
Definition remaining (a t : ViewportRect float) : float :=
  PrimFloat.abs (x t - x a) + PrimFloat.abs (y t - y a)
  + PrimFloat.abs (width t - width a) + PrimFloat.abs (height t - height a).

(** [animateViewBox()]: the refs after the tick, and whether the tick asked
    for another animation frame. Writing the view box to the SVG does not
    touch the refs. *)
Definition animateViewBox (r : refs) : refs * bool :=
  match animatedVP r, targetVP r with
  | Some a, Some t =>
      let a' := mkViewport (lerp (x a) (x t)) (lerp (y a) (y t))
                  (lerp (width a) (width t)) (lerp (height a) (height t)) in
      let delta := remaining a' t in
      (mkRefs (Some a') (Some t), PrimFloat.ltb 0.5 delta)
  | _, _ => (r, false)
  end.

(** The frames that follow one another while each tick reschedules itself:
    the refs after every tick, the last one being the tick that stops. *)
Fixpoint frames (fuel : nat) (r : refs) : list refs * bool :=
  match fuel with
  | O => ([], false)
  | Datatypes.S fuel' =>
      let '(r', again) := animateViewBox r in
      if again then let '(l, stopped) := frames fuel' r' in (r' :: l, stopped)
      else ([r'], true)
  end.

Definition start : refs :=
  mkRefs (Some (mkViewport 0 0 400 300)) (Some (mkViewport 100 0 400 300)).

(** The [x] of the animated viewport, [nan] when it is unset. *)
Definition animated_x (r : refs) : float :=
  match animatedVP r with Some a => x a | None => nan end.

(** [l] increases strictly from [lo] on and never exceeds [hi]. *)
Fixpoint climbs (lo hi : float) (l : list float) : bool :=
  match l with
  | [] => true
  | v :: rest => PrimFloat.ltb lo v && PrimFloat.leb v hi && climbs v hi rest
  end.

Definition other_fields (r : refs) : option (float * float * float) :=
  match animatedVP r with
  | Some a => Some (y a, width a, height a)
  | None => None
  end.

End Camera.

(* ===================================================================== *)
(** ** Vocabulary of the statements about the handler *)
(* ===================================================================== *)

Definition head_char (s : string) : option ascii :=
  match s with
  | String c _ => Some c
  | EmptyString => None
  end.

(** A string of [n] copies of [c]. *)
Fixpoint replicate_char (n : nat) (c : ascii) : string :=
  match n with
  | O => EmptyString
  | Datatypes.S n' => String c (replicate_char n' c)
  end.

Definition example_message (s : string) : string := "Unexpected end of JSON input".
Definition example_hint (cameras : list json) : string := "".
Definition example_uuid : string := "123e4567-e89b-12d3-a456-426614174000".

Definition shape (ty i : string) : json := JObj [("type", JStr ty); ("id", JStr i)].
Definition bound_text (i c : string) : json :=
  JObj [("type", JStr "text"); ("id", JStr i); ("containerId", JStr c)].

Definition example_store : gmap string Checkpoint :=
  {[ "K" := mkCheckpoint (JArr [shape "rectangle" "A"; shape "ellipse" "B"; bound_text "T" "B"])
              (Some "two shapes") ]}.


(* ===================================================================== *)
(** ** Widget: titles and scene bounds *)
(* ===================================================================== *)

(** [c.toLowerCase()] on a code unit below 256: the letters A to Z and the
    capital letters of Latin-1 (all of 192 to 222 but the multiplication
    sign 215) move up by 32. *)
Definition lower_char (c : ascii) : ascii :=
  let n := nat_of_ascii c in
  if ((65 <=? n) && (n <=? 90))%nat
     || ((192 <=? n) && (n <=? 222) && negb (n =? 215))%nat
  then ascii_of_nat (n + 32) else c.

Fixpoint toLowerCase (s : string) : string :=
  match s with
  | EmptyString => EmptyString
  | String c r => String (lower_char c) (toLowerCase r)
  end.

(** [s.replace(/\n/g, " ")]. *)
Fixpoint replace_newlines (s : string) : string :=
  match s with
  | EmptyString => EmptyString
  | String c r =>
      String (if Ascii.eqb c "010"%char then " "%char else c) (replace_newlines r)
  end.

(** [(s ?? "").replace(/\n/g, " ").trim().slice(0, 60)] for a string [s]. *)
Definition title_part (s : string) : string :=
  JsString.slice0 60 (JsString.trim (replace_newlines s)).

(** The closure [add] of [deriveTitleFromElements], on the set [seen] and
    the array [parts]. Only a string has a [replace] method: any other
    value that is not nullish makes the call throw. *)
Definition add_part (s : jsval) (st : gset string * list string)
  : throws (gset string * list string) :=
  match nullish_or s (Some (JStr "")) with
  | Some (JStr s) =>
      let t := title_part s in
      if negb (String.eqb t "") && negb (bool_decide (toLowerCase t ∈ fst st))
      then Some (fst st ∪ {[ toLowerCase t ]}, snd st ++ [t])
      else Some st
  | _ => None
  end.

(** [el.label?.text]. *)
Definition label_text (el : json) : throws jsval :=
  l ← get el "label";
  match nullish_or l None with
  | None => Some None
  | Some lab => get lab "text"
  end.

(** The body of the loop of [deriveTitleFromElements]. *)
Definition title_step (st : gset string * list string) (el : json)
  : throws (gset string * list string) :=
  if negb (truthy (Some el)) then Some st
  else
    d ← get el "isDeleted";
    if truthy d then Some st
    else
      isText ← type_is "text" el;
      if isText : bool then
        t ← get el "text";
        r ← get el "rawText";
        add_part (nullish_or (nullish_or t r) (Some (JStr ""))) st
      else
        lt ← label_text el;
        if truthy lt then add_part lt st else Some st.

Fixpoint title_loop (st : gset string * list string) (elements : list json)
  : throws (gset string * list string) :=
  match elements with
  | [] => Some st
  | el :: rest => st' ← title_step st el; title_loop st' rest
  end.

(** The array [parts] at the end of the loop. *)
Definition title_parts (elements : list json) : throws (list string) :=
  snd <$> title_loop (∅, []) elements.

(** Derive a suggested diagram title from element text. *)
Definition deriveTitleFromElements (elements : list json) : throws string :=
  parts ← title_parts elements;
  let joined := JsString.trim (join_with " - " (take 3 parts)) in
  Some (if String.eqb joined "" then "diagram" else joined).

(** A live text entry: truthy, not deleted, of type [text]. *)
Definition live_text (el : json) : bool :=
  truthy (Some el) && negb (truthy (prop el "isDeleted")) && is_type "text" el.

(** A part of a title: not empty, at most 60 characters, on one line, and
    with no white space in front. *)
Definition title_like (p : string) : Prop :=
  p <> "" /\ (String.length p <= 60)%nat
  /\ JsString.has_char "010"%char p = false
  /\ forall c, String.get 0 p = Some c -> JsString.is_js_space c = false.

Definition text_entry (i t : string) : json :=
  JObj [("type", JStr "text"); ("id", JStr i); ("text", JStr t)].

Definition labelled (ty i t : string) : json :=
  JObj [("type", JStr ty); ("id", JStr i); ("label", JObj [("text", JStr t)])].

Module Titles.

Local Open Scope Q_scope.

(** The raw elements as [mergeGroupTitleTextIntoShapes] reads them: numbers
    are exact rationals, an absent optional field is [None]. *)
Record Label : Type := mkLabel
  { label_text : option string;
    label_fontSize : option Q;
    textAlign : option string;
    verticalAlign : option string }.

Record element : Type := mkElement
  { type : string;
    id : option string;
    x : Q;
    y : Q;
    width : option Q;
    height : option Q;
    text : option string;
    fontSize : option Q;
    label : option Label }.


Definition LABELABLE_SHAPES : list string := ["rectangle"; "diamond"; "ellipse"].
(** Max pixels the text can be above the shape's top edge. *)
Definition MAX_GROUP_TITLE_GAP_ABOVE : Q := 80.
(** Max pixels the text bottom can extend below the shape's top. *)
Definition MAX_GROUP_TITLE_OVERLAP_BELOW : Q := 60.

Definition is_shape (el : element) : bool := bool_decide (type el ∈ LABELABLE_SHAPES).

Definition Qlt_bool (a b : Q) : bool := negb (Qle_bool b a).

(** A product or a sum with an absent operand is [NaN] ([None]); a
    comparison with [NaN] is false. *)
Definition nan_gt (a b : option Q) : bool :=
  match a, b with Some a, Some b => Qlt_bool b a | _, _ => false end.

Definition nan_eq (a b : option Q) : bool :=
  match a, b with Some a, Some b => Qeq_bool a b | _, _ => false end.

(** [const tH = T.height ?? 20]. *)
Definition tH (T : element) : Q := default 20 (height T).

(** [T.width ?? Math.max(20, String(T.text ?? "").length * (T.fontSize ?? 20) * 0.5)]. *)
Definition tW (T : element) : Q :=
  match width T with
  | Some w => w
  | None =>
      Qmax 20 (inject_Z (Z.of_nat (String.length (default "" (text T))))
               * default 20 (fontSize T) * (1 # 2))
  end.

Record Best : Type := mkBest { shape : element; gap : Q; area : option Q }.

(** [S.width * S.height]. *)
Definition area_of (S : element) : option Q :=
  match width S, height S with Some w, Some h => Some (w * h) | _, _ => None end.

(** The body of the inner loop: the shape [S] against the best so far. *)
Definition consider (T : element) (best : option Best) (S : element) : option Best :=
  if bool_decide (is_Some (label S)) then best
  else
    let gap := y S - (y T + tH T) in
    if Qlt_bool MAX_GROUP_TITLE_GAP_ABOVE gap || Qlt_bool gap (- MAX_GROUP_TITLE_OVERLAP_BELOW)
    then best
    else
      let tRight := x T + tW T in
      if Qlt_bool tRight (x S)
         || match width S with Some w => Qlt_bool (x S + w) (x T) | None => false end
      then best
      else
        let area := area_of S in
        match best with
        | None => Some (mkBest S gap area)
        | Some b =>
            if nan_gt area (Titles.area b) || (nan_eq area (Titles.area b) && Qlt_bool gap (Titles.gap b))
            then Some (mkBest S gap area)
            else best
        end.

(** The shape a text is merged into, if any. *)
Definition choose (shapes : list element) (T : element) : option Best :=
  fold_left (consider T) shapes None.

Abbreviation IdMap := (gmap (option string) (option string)).
Abbreviation IdSet := (gset (option string)).





(** A text is merged when some shape can take it. *)
Definition merged (elements : list element) (T : element) : bool :=
  bool_decide (is_Some (choose (filter is_shape elements) T)).






Definition title (i t : string) (px py : Q) : element :=
  mkElement "text" (Some i) px py None None (Some t) None None.



End Titles.

Module SceneBounds.

Local Open Scope Q_scope.












End SceneBounds.

(** *** Vocabulary of the statements about the extractor, file names and
    stored checkpoints *)

(** An entry that is drawn: neither a camera, a restore nor a delete entry. *)
Definition drawn (el : json) : bool :=
  negb (is_type "cameraUpdate" el) && negb (is_type "restoreCheckpoint" el)
  && negb (is_type "delete" el).

(** What the extractor hands on for the element [el] under the delete set
    [ids]. *)
Definition shown (ids : gset string) (el : json) : json :=
  if has ids (prop el "id") || has ids (prop el "containerId") then with_opacity_1 el else el.

(** The viewport read from a camera entry. *)
Definition camera_of (el : json) : ViewportRect jsval :=
  mkViewport (prop el "x") (prop el "y") (prop el "width") (prop el "height").

(** The ids added by a delete entry. *)
Definition ids_of_entry (ids : gset string) (el : json) : gset string :=
  if is_type "delete" el then
    foldl (fun acc i => acc ∪ {[ JsString.trim i ]}) ids
      (JsString.split ","%char (String_of (nullish_or (prop el "ids") (prop el "id"))))
  else ids.

(** The code units of a string. *)
Definition chars : string -> list ascii := list_ascii_of_string.

(** The characters of a tidy text: none is unsafe, white space is the
    space character only and never follows white space. *)
Fixpoint tidy (after_space : bool) (l : list ascii) : bool :=
  match l with
  | [] => true
  | c :: r =>
      negb (is_unsafe_char c)
      && (if JsString.is_js_space c then Ascii.eqb c " "%char && negb after_space && tidy true r
          else tidy false r)
  end.

Definition other_uuid : string := "0f8fad5b-d9cb-469f-a165-70867728950e".

Definition camera (px py w h : Z) : json :=
  JObj [("type", JStr "cameraUpdate"); ("x", JNum px); ("y", JNum py);
        ("width", JNum w); ("height", JNum h)].

Definition example_type_error : string := "Cannot read properties of null (reading 'elements')".

(* ===================================================================== *)
(** * Properties *)
(* ===================================================================== *)

(** ** Strings and [JSON.parse] on examples *)

Example dq_example :
  JsString.dq "['a']"
  = String "["%char (String JsString.quote (String "a"%char (String JsString.quote "]"))).
Proof. reflexivity. Qed.

Example trim_example : JsString.trim "  [1] " = "[1]".
Proof. reflexivity. Qed.

Example lastIndexOf_example :
  JsString.lastIndexOf "}"%char "[{},{}" = 5 /\ JsString.lastIndexOf "}"%char "[1,2" = -1.
Proof. split; reflexivity. Qed.

Example split_example : JsString.split ","%char "a, b,,c" = ["a"; " b"; ""; "c"].
Proof. reflexivity. Qed.

Example of_Z_example : JsString.of_Z 5242880 = "5242880" /\ JsString.of_Z (-7) = "-7".
Proof. split; reflexivity. Qed.

Example parse_example :
  Json.parse (JsString.dq " [ {'a':1,'b':{'c':[true,null,-12]}}, 'x\ty' ] ")
  = Some (JArr [JObj [("a", JNum 1); ("b", JObj [("c", JArr [JBool true; JNull; JNum (-12)])])];
                JStr (String "x"%char (String "009"%char "y"))]).
Proof. vm_compute. reflexivity. Qed.

Example parse_rejects :
  Json.parse "[1,]" = None /\ Json.parse (JsString.dq "[{'a':1}") = None
  /\ Json.parse "[01]" = None /\ Json.parse (JsString.dq "{'a':1} x") = None.
Proof. vm_compute. auto. Qed.

Example String_of_example :
  String_of (Some (JArr [JStr "a"; JNull; JNum 3])) = "a,,3" /\ String_of None = "undefined".
Proof. split; reflexivity. Qed.

(** ** The partial-JSON recoverer *)

Lemma append_nil_l (s : string) : "" +:+ s = s.
Proof. reflexivity. Qed.

Lemma append_cons (c : ascii) (p q : string) : String c p +:+ q = String c (p +:+ q).
Proof. reflexivity. Qed.

Ltac step_append := rewrite ?append_cons, ?append_nil_l.

(** Split the conjunctions of the goal, and nothing else. *)
Ltac split_ands := repeat match goal with |- _ /\ _ => split end.

Lemma lastIndexOf_from_absent c s i found :
  JsString.has_char c s = false -> JsString.lastIndexOf_from c s i found = found.
Proof.
  revert i found. induction s as [|c' s IH]; intros i found Hs; simpl in *; [reflexivity|].
  apply orb_false_iff in Hs as [Hc Hs]. rewrite Hc. now apply IH.
Qed.

Lemma lastIndexOf_from_app c p tail i found :
  JsString.has_char c tail = false ->
  JsString.lastIndexOf_from c (p +:+ String c tail) i found = i + Z.of_nat (String.length p).
Proof.
  revert i found. induction p as [|c' p IH]; intros i found Ht; step_append; simpl.
  - rewrite Ascii.eqb_refl. rewrite lastIndexOf_from_absent by assumption. lia.
  - rewrite IH by assumption. lia.
Qed.

Lemma lastIndexOf_app c p tail :
  JsString.has_char c tail = false ->
  JsString.lastIndexOf c (p +:+ String c tail) = Z.of_nat (String.length p).
Proof. intros Ht. unfold JsString.lastIndexOf. now rewrite lastIndexOf_from_app. Qed.

Lemma substring_prefix_app p q :
  String.substring 0 (String.length p) (p +:+ q) = p.
Proof.
  induction p as [|c p IH]; step_append; simpl.
  - destruct q; reflexivity.
  - now rewrite IH.
Qed.

Lemma length_snoc (p : string) (c : ascii) :
  String.length (p +:+ String c "") = Datatypes.S (String.length p).
Proof. induction p as [|c' p IH]; step_append; simpl; [reflexivity | now rewrite IH]. Qed.

Lemma substring0_through c p tail :
  JsString.substring0 (Z.of_nat (String.length p) + 1) (p +:+ String c tail) = p +:+ String c "".
Proof.
  unfold JsString.substring0.
  replace (Z.to_nat (Z.of_nat (String.length p) + 1)) with (String.length (p +:+ String c "")).
  - replace (p +:+ String c tail) with ((p +:+ String c "") +:+ tail).
    + apply substring_prefix_app.
    + induction p as [|c' p IH]; step_append; [reflexivity | now rewrite IH].
  - rewrite length_snoc. lia.
Qed.

Lemma append_assoc_brace p (c : ascii) (t : string) :
  (p +:+ String c "") +:+ t = p +:+ String c t.
Proof. induction p as [|c' p IH]; step_append; [reflexivity | now rewrite IH]. Qed.

Section RecovererFacts.

Variable JSON_parse : string -> option json.

(** C2 (as amended). After trimming, a text that does not start with an
    opening bracket recovers to the empty array; a text that parses is
    returned as parsed; otherwise the text is cut after its last closing
    brace, closed with a bracket and parsed again, the empty array standing
    for a failure. Hence, when a prefix that ends with the closing brace of
    its last complete element is followed by a tail without any closing
    brace (nothing, a comma, or the brace-free beginning of the next
    element), the complete elements of the prefix are returned. *)
Theorem parsePartialElements_recovers (str : string) :
  let starts := JsString.startsWith "["%char (JsString.trim str) in
  let last := JsString.lastIndexOf "}"%char str in
  (starts = false -> parsePartialElements JSON_parse (Some str) = JArr [])
  /\ (starts = true -> forall v, JSON_parse str = Some v ->
      parsePartialElements JSON_parse (Some str) = v)
  /\ (starts = true -> JSON_parse str = None ->
      parsePartialElements JSON_parse (Some str)
      = if last <? 0 then JArr []
        else default (JArr []) (JSON_parse (JsString.substring0 (last + 1) str +:+ "]")))
  /\ (forall p tail arr,
        str = p +:+ String "}"%char tail ->
        JsString.has_char "}"%char tail = false ->
        starts = true ->
        JSON_parse str = None ->
        JSON_parse (p +:+ "}]") = Some arr ->
        parsePartialElements JSON_parse (Some str) = arr).
Proof.
  intros starts last.
  assert (Hcut : starts = true -> JSON_parse str = None ->
      parsePartialElements JSON_parse (Some str)
      = if last <? 0 then JArr []
        else default (JArr []) (JSON_parse (JsString.substring0 (last + 1) str +:+ "]"))).
  { intros Hs Hp. unfold parsePartialElements. fold starts. rewrite Hs, Hp. simpl.
    fold last. destruct (last <? 0); [reflexivity|].
    destruct (JSON_parse _); reflexivity. }
  split_ands.
  - intros Hs. unfold parsePartialElements. fold starts. now rewrite Hs.
  - intros Hs v Hv. unfold parsePartialElements. fold starts. now rewrite Hs, Hv.
  - exact Hcut.
  - intros p tail arr -> Ht Hs Hp Harr. rewrite (Hcut Hs Hp). subst last.
    rewrite lastIndexOf_app by assumption.
    assert ((Z.of_nat (String.length p) <? 0) = false) as -> by (apply Z.ltb_ge; lia).
    rewrite substring0_through, append_assoc_brace. now rewrite Harr.
Qed.

(** C5 (as amended). The array handed on by a streaming frame is the
    recovered array without its last element, and is empty when fewer than
    two elements were recovered; the array handed on by the final frame is
    the recovered array itself. *)
Theorem streaming_frame_drops_last (str : string) (arr : list json) :
  parsePartialElements JSON_parse (Some str) = JArr arr ->
  finalFrameElements JSON_parse str = Some arr
  /\ streamFrameElements JSON_parse str = Some (removelast arr)
  /\ ((length arr < 2)%nat -> streamFrameElements JSON_parse str = Some [])
  /\ ((2 <= length arr)%nat ->
      exists dropped, streamFrameElements JSON_parse str = Some (removelast arr)
                      /\ arr = removelast arr ++ [dropped]).
Proof.
  intros Hrec.
  assert (Hex : forall l : list json, excludeIncompleteLastItem l = removelast l).
  { intros l. unfold excludeIncompleteLastItem.
    destruct l as [|a [|b l]]; [reflexivity..|].
    cbn [length Nat.eqb Nat.leb]. symmetry.
    rewrite removelast_firstn_len. reflexivity. }
  unfold finalFrameElements, streamFrameElements. rewrite Hrec. simpl. rewrite Hex.
  split_ands; [reflexivity | reflexivity | |].
  - intros Hlt. destruct arr as [|a [|b l]]; simpl in *; [reflexivity..|lia].
  - intros Hge. destruct (exists_last (l := arr)) as [l' [a ->]].
    { intros ->. simpl in Hge. lia. }
    exists a. rewrite removelast_last. auto.
Qed.

End RecovererFacts.

(** Two complete elements followed by the beginning of a third one. *)
Lemma parsePartialElements_recovers_witness :
  parsePartialElements Json.parse (Some (JsString.dq "[{'id':'a'},{'id':'b'},{'id':"))
  = JArr [JObj [("id", JStr "a")]; JObj [("id", JStr "b")]].
Proof.
  apply (proj2 (proj2 (proj2 (parsePartialElements_recovers Json.parse _)))
           (JsString.dq "[{'id':'a'},{'id':'b'") (JsString.dq ",{'id':"));
    vm_compute; reflexivity.
Defined.

(** C2 as stated fails twice: a text with leading white space does not start
    with a bracket and still recovers its elements, and a text cut inside a
    last element that already holds a nested object recovers nothing, not
    the elements before it. *)
Lemma parsePartialElements_counterexample :
  (JsString.startsWith "["%char " [7]" = false
   /\ parsePartialElements Json.parse (Some " [7]") = JArr [JNum 7]
   /\ parsePartialElements Json.parse (Some " [7]") <> JArr [])
  /\ (let full := JsString.dq "[{'id':'a'},{'label':{'text':'x'},'id':'b'}]" in
      let cut := JsString.dq "[{'id':'a'},{'label':{'text':'x'},'id" in
      String.prefix cut full = true
      /\ Json.parse full
         = Some (JArr [JObj [("id", JStr "a")];
                       JObj [("label", JObj [("text", JStr "x")]); ("id", JStr "b")]])
      /\ parsePartialElements Json.parse (Some cut) = JArr []
      /\ parsePartialElements Json.parse (Some cut) <> JArr [JObj [("id", JStr "a")]]).
Proof.
  split.
  - split_ands; [reflexivity | vm_compute; reflexivity | vm_compute; discriminate].
  - cbv zeta. split_ands; [vm_compute; reflexivity .. | vm_compute; discriminate].
Qed.

(** One recovered element in a streaming frame. *)
Lemma streaming_frame_drops_last_witness :
  let str := JsString.dq "[{'type':'rectangle','id':'a'},{'type':'text','id':'b'},{'type" in
  finalFrameElements Json.parse str
  = Some [JObj [("type", JStr "rectangle"); ("id", JStr "a")];
          JObj [("type", JStr "text"); ("id", JStr "b")]]
  /\ streamFrameElements Json.parse str
     = Some [JObj [("type", JStr "rectangle"); ("id", JStr "a")]].
Proof.
  cbv zeta.
  pose proof (streaming_frame_drops_last Json.parse
    (JsString.dq "[{'type':'rectangle','id':'a'},{'type':'text','id':'b'},{'type")
    [JObj [("type", JStr "rectangle"); ("id", JStr "a")];
     JObj [("type", JStr "text"); ("id", JStr "b")]]) as Hw.
  destruct Hw as (Hfinal & Hstream & _).
  - vm_compute. reflexivity.
  - split; [exact Hfinal | exact Hstream].
Defined.

(** C5 as stated fails when exactly one element was recovered: fewer than
    two elements exist, and the streaming frame still drops it. *)
Lemma streaming_frame_counterexample :
  let str := JsString.dq "[{'type':'rectangle','id':'a'}]" in
  let recovered := [JObj [("type", JStr "rectangle"); ("id", JStr "a")]] in
  parsePartialElements Json.parse (Some str) = JArr recovered
  /\ (length recovered < 2)%nat
  /\ streamFrameElements Json.parse str = Some []
  /\ streamFrameElements Json.parse str <> Some recovered.
Proof.
  cbv zeta. split_ands; [vm_compute; reflexivity | simpl; lia | vm_compute; reflexivity | vm_compute; discriminate].
Qed.

(** ** Reading arrays without [null] *)

Lemma get_not_null v k : not_null v -> get v k = Some (prop v k).
Proof. unfold prop. destruct v; simpl; intros Hv; try reflexivity. now destruct Hv. Qed.

Lemma type_is_not_null t v : not_null v -> type_is t v = Some (is_type t v).
Proof. intros Hv. unfold type_is, is_type. now rewrite (get_not_null v "type" Hv). Qed.

Lemma type_is_true_not_null t v : type_is t v = Some true -> not_null v.
Proof. intros Ht ->. discriminate Ht. Qed.

Lemma filterM_not_null (p : json -> throws bool) (q : json -> bool) (l : list json) :
  Forall not_null l ->
  (forall v, not_null v -> p v = Some (q v)) ->
  filterM p l = Some (filter q l).
Proof.
  intros Hl Hp. induction Hl as [|v l Hv Hl IH]; [reflexivity|].
  cbn [filterM]. rewrite (Hp v Hv), IH. simpl.
  rewrite filter_cons. now destruct (q v). 
Qed.

Lemma add_delete_ids_not_null el ids :
  not_null el ->
  add_delete_ids el ids
  = Some (foldl (fun acc i => acc ∪ {[ JsString.trim i ]}) ids
            (JsString.split ","%char (String_of (nullish_or (prop el "ids") (prop el "id"))))).
Proof.
  intros Hv. unfold add_delete_ids.
  now rewrite (get_not_null el "ids" Hv), (get_not_null el "id" Hv).
Qed.

Lemma collect_delete_ids_not_null parsed ids :
  Forall not_null parsed ->
  collect_delete_ids parsed ids
  = Some (foldl
            (fun ids el =>
               if is_type "delete" el then
                 foldl (fun acc i => acc ∪ {[ JsString.trim i ]}) ids
                   (JsString.split ","%char
                      (String_of (nullish_or (prop el "ids") (prop el "id"))))
               else ids)
            ids parsed).
Proof.
  intros Hl. revert ids. induction Hl as [|v l Hv Hl IH]; intros ids; [reflexivity|].
  cbn [collect_delete_ids foldl]. rewrite (type_is_not_null _ v Hv). simpl.
  destruct (is_type "delete" v).
  - rewrite (add_delete_ids_not_null v ids Hv). simpl. apply IH.
  - simpl. apply IH.
Qed.

Lemma survives_not_null ids v : not_null v -> survives ids v = Some (kept ids v).
Proof.
  intros Hv. unfold survives, kept.
  now rewrite (get_not_null v "id" Hv), (get_not_null v "containerId" Hv).
Qed.

Lemma is_new_element_not_null v : not_null v -> is_new_element v = Some (supplied v).
Proof.
  intros Hv. unfold is_new_element, supplied.
  now rewrite !(type_is_not_null _ v Hv).
Qed.

Lemma filter_all {A} (q : A -> bool) (l : list A) :
  Forall (fun a => q a = true) l -> filter q l = l.
Proof.
  induction 1 as [|a l Ha Hl IH]; [reflexivity|].
  rewrite filter_cons, Ha. simpl. now rewrite IH.
Qed.

Lemma filter_none {A} (q : A -> bool) (l : list A) :
  Forall (fun a => q a = false) l -> filter q l = [].
Proof.
  induction 1 as [|a l Ha Hl IH]; [reflexivity|].
  rewrite filter_cons, Ha. simpl. exact IH.
Qed.

Lemma is_type_exclusive (t t' : string) (el : json) :
  is_type t el = true -> t <> t' -> is_type t' el = false.
Proof.
  unfold is_type. destruct (prop el "type") as [[]|]; try discriminate.
  intros ->%String.eqb_eq Hne. now apply String.eqb_neq.
Qed.

(** ** The [create_view] handler *)

Lemma head_too_large : head_char text_too_large = Some "E"%char.
Proof. reflexivity. Qed.

Lemma head_invalid_json m : head_char (text_invalid_json m) = Some "I"%char.
Proof. reflexivity. Qed.

Lemma head_not_found i : head_char (text_not_found i) = Some "C"%char.
Proof. reflexivity. Qed.

Lemma head_displayed c h : head_char (text_displayed c h) = Some "D"%char.
Proof. reflexivity. Qed.

Lemma length_replicate_char n c : String.length (replicate_char n c) = n.
Proof. induction n as [|n IH]; simpl; [reflexivity | now rewrite IH]. Qed.

#[local] Arguments truthy : simpl never.

Section CreateViewFacts.

Context {S : Type} `{CheckpointStore S}.
Variable JSON_parse : string -> option json.
Variable SyntaxError_message : string -> string.
Variable ratioHint : list json -> string.

Let handler := create_view JSON_parse SyntaxError_message ratioHint.

Lemma save_and_reply_trace st tr uuid parsed resolved p :
  trace (save_and_reply ratioHint st tr uuid parsed resolved p) = tr
  \/ exists c, trace (save_and_reply ratioHint st tr uuid parsed resolved p) = tr ++ [EvSave c].
Proof.
  unfold save_and_reply. destruct (filterM _ parsed); simpl; eauto.
Qed.

Lemma save_and_reply_text st tr uuid parsed resolved p r :
  result (save_and_reply ratioHint st tr uuid parsed resolved p) = Some r ->
  head_char (text r) = Some "D"%char.
Proof.
  unfold save_and_reply. destruct (filterM _ parsed); simpl; [|discriminate].
  intros [= <-]. reflexivity.
Qed.

(** C10. An input longer than [MAX_INPUT_BYTES] is answered by the size
    error alone: the store is the one received and nothing was asked of the
    parser or of the store. An input within the limit is always handed to
    the parser, and whatever the handler answers then is not the size
    error. *)
Theorem create_view_size_guard (elements_arg : string) (plan_arg : option string)
    (uuid : string) (st : S) :
  (Z.of_nat (String.length elements_arg) > MAX_INPUT_BYTES ->
   handler elements_arg plan_arg uuid st
   = mkOutcome (Some (mkResult text_too_large true None)) st [])
  /\ (Z.of_nat (String.length elements_arg) <= MAX_INPUT_BYTES ->
      head (trace (handler elements_arg plan_arg uuid st)) = Some EvParse
      /\ forall r, result (handler elements_arg plan_arg uuid st) = Some r ->
                   text r <> text_too_large).
Proof.
  subst handler. unfold create_view. split.
  - intros Hlen. apply Z.gtb_gt in Hlen. now rewrite Hlen.
  - intros Hlen.
    assert ((Z.of_nat (String.length elements_arg) >? MAX_INPUT_BYTES) = false) as ->.
    { destruct (Z.gtb_spec (Z.of_nat (String.length elements_arg)) MAX_INPUT_BYTES); [lia | reflexivity]. }
    assert (Hhead : forall t : string, head_char t <> Some "E"%char -> t <> text_too_large).
    { intros t Ht ->. now apply Ht. }
    assert (Hsave : forall tr parsed resolved p,
               head tr = Some EvParse ->
               head (trace (save_and_reply ratioHint st tr uuid parsed resolved p)) = Some EvParse
               /\ forall r, result (save_and_reply ratioHint st tr uuid parsed resolved p) = Some r ->
                            text r <> text_too_large).
    { intros tr parsed resolved p Htr. split.
      - destruct (save_and_reply_trace st tr uuid parsed resolved p) as [-> | [c ->]]; [exact Htr|].
        destruct tr; [discriminate | exact Htr].
      - intros r Hr. apply Hhead. rewrite (save_and_reply_text _ _ _ _ _ _ _ Hr). discriminate. }
    assert (Hscratch : forall parsed,
               head (trace (save_from_scratch ratioHint st uuid parsed plan_arg)) = Some EvParse
               /\ forall r, result (save_from_scratch ratioHint st uuid parsed plan_arg) = Some r ->
                            text r <> text_too_large).
    { intros parsed. unfold save_from_scratch. destruct (filterM _ parsed).
      - now apply Hsave.
      - simpl. split; [reflexivity | discriminate]. }
    destruct (JSON_parse elements_arg) as [parsedv|]; simpl.
    + destruct (as_array parsedv) as [parsed|]; simpl; [|split; [reflexivity | discriminate]].
      destruct (restoreEl_id parsed) as [[i|]|]; simpl.
      * destruct (truthy (Some i)); [|apply Hscratch].
        unfold restore_and_save. destruct (load st i) as [base|]; simpl.
        -- destruct (resolve_restored base parsed); [now apply Hsave|].
           simpl. split; [reflexivity | discriminate].
        -- split; [reflexivity|]. intros r [= <-]. apply Hhead. simpl. discriminate.
      * apply Hscratch.
      * split; [reflexivity | discriminate].
    + split; [reflexivity|]. intros r [= <-]. apply Hhead. simpl. discriminate.
Qed.

(** C7 (as amended). When the first [restoreCheckpoint] entry of the input
    carries a truthy id that the store does not hold, the handler answers
    an error whose text quotes that id, and returns the store it received:
    one load was asked of the store, and no save. *)
Theorem create_view_unknown_checkpoint (elements_arg : string) (plan_arg : option string)
    (uuid : string) (st : S) (parsed : list json) (i : json) :
  Z.of_nat (String.length elements_arg) <= MAX_INPUT_BYTES ->
  JSON_parse elements_arg = Some (JArr parsed) ->
  restoreEl_id parsed = Some (Some i) ->
  truthy (Some i) = true ->
  load st i = None ->
  handler elements_arg plan_arg uuid st
  = mkOutcome (Some (mkResult (text_not_found (Some i)) true None)) st [EvParse; EvLoad i]
  /\ text_not_found (Some i)
     = JsString.dq "Checkpoint '" +:+ js_String i
       +:+ JsString.dq "' not found — it may have expired or never existed. Please recreate the diagram from scratch.".
Proof.
  intros Hlen Hparse Hid Htruthy Hload. split; [|reflexivity].
  subst handler. unfold create_view.
  assert ((Z.of_nat (String.length elements_arg) >? MAX_INPUT_BYTES) = false) as ->.
  { destruct (Z.gtb_spec (Z.of_nat (String.length elements_arg)) MAX_INPUT_BYTES); [lia | reflexivity]. }
  rewrite Hparse. simpl. rewrite Hid. simpl. rewrite Htruthy.
  unfold restore_and_save. now rewrite Hload.
Qed.

(** The outcome of the restore branch on an input without [null]. *)
Lemma create_view_restore_outcome (elements_arg : string) (plan_arg : option string)
    (uuid : string) (st : S) (parsed : list json) (i : json) (base : Checkpoint)
    (baseElements : list json) :
  Z.of_nat (String.length elements_arg) <= MAX_INPUT_BYTES ->
  JSON_parse elements_arg = Some (JArr parsed) ->
  Forall not_null parsed ->
  elements base = JArr baseElements ->
  Forall not_null baseElements ->
  restoreEl_id parsed = Some (Some i) ->
  truthy (Some i) = true ->
  load st i = Some base ->
  handler elements_arg plan_arg uuid st
  = mkOutcome
      (Some (mkResult (text_displayed (checkpointId_of uuid)
                         (ratioHint (filter (is_type "cameraUpdate") parsed)))
               false (Some (checkpointId_of uuid))))
      (save st (checkpointId_of uuid)
         (mkCheckpoint
            (JArr (filter (kept (delete_ids parsed)) baseElements ++ filter supplied parsed))
            (match plan_arg with Some p => Some p | None => Some (default "" (plan base)) end)))
      [EvParse; EvLoad i; EvSave (checkpointId_of uuid)].
Proof.
  intros Hlen Hparse Hnn Hels Hbase Hid Htruthy Hload.
  subst handler. unfold create_view.
  assert ((Z.of_nat (String.length elements_arg) >? MAX_INPUT_BYTES) = false) as ->.
  { destruct (Z.gtb_spec (Z.of_nat (String.length elements_arg)) MAX_INPUT_BYTES); [lia | reflexivity]. }
  rewrite Hparse. simpl. rewrite Hid. simpl. rewrite Htruthy.
  unfold restore_and_save. rewrite Hload. unfold resolve_restored.
  rewrite (collect_delete_ids_not_null parsed ∅ Hnn). simpl. rewrite Hels. simpl.
  rewrite (filterM_not_null _ (kept (delete_ids parsed)) _ Hbase)
    by (intros v Hv; apply survives_not_null, Hv).
  simpl.
  rewrite (filterM_not_null _ supplied _ Hnn) by (intros v Hv; apply is_new_element_not_null, Hv).
  simpl. unfold save_and_reply.
  rewrite (filterM_not_null _ (is_type "cameraUpdate") _ Hnn)
    by (intros v Hv; apply type_is_not_null, Hv).
  reflexivity.
Qed.

(** C1 (as amended). When the checkpoint named by the input is in the store
    and holds an array, the scene saved under the new checkpoint id is the
    base scene without the elements whose id or [containerId] is in the
    delete set, followed by the entries of the input that are neither
    restore nor delete directives, camera entries included, each part in
    its original order. In particular, when the input is the restore
    directive, delete directives and then such entries, the second part is
    exactly these entries. *)
Theorem create_view_resolves_scene (elements_arg : string) (plan_arg : option string)
    (uuid : string) (st : S) (parsed : list json) (i : json) (base : Checkpoint)
    (baseElements : list json) :
  Z.of_nat (String.length elements_arg) <= MAX_INPUT_BYTES ->
  JSON_parse elements_arg = Some (JArr parsed) ->
  Forall not_null parsed ->
  elements base = JArr baseElements ->
  Forall not_null baseElements ->
  restoreEl_id parsed = Some (Some i) ->
  truthy (Some i) = true ->
  load st i = Some base ->
  let resolved :=
    filter (kept (delete_ids parsed)) baseElements ++ filter supplied parsed in
  let planToSave :=
    match plan_arg with Some p => Some p | None => Some (default "" (plan base)) end in
  let o := handler elements_arg plan_arg uuid st in
  store_after o = save st (checkpointId_of uuid) (mkCheckpoint (JArr resolved) planToSave)
  /\ (exists r, result o = Some r /\ isError r = false
                /\ structuredContent r = Some (checkpointId_of uuid))
  /\ (forall el, is_type "cameraUpdate" el = true -> supplied el = true)
  /\ (forall restoreEl dels news,
        parsed = restoreEl :: dels ++ news ->
        supplied restoreEl = false ->
        Forall (fun el => is_type "delete" el = true) dels ->
        Forall (fun el => supplied el = true) news ->
        resolved = filter (kept (delete_ids parsed)) baseElements ++ news).
Proof.
  intros Hlen Hparse Hnn Hels Hbase Hid Htruthy Hload resolved planToSave o.
  assert (Ho : o = mkOutcome
            (Some (mkResult (text_displayed (checkpointId_of uuid)
                               (ratioHint (filter (is_type "cameraUpdate") parsed)))
                     false (Some (checkpointId_of uuid))))
            (save st (checkpointId_of uuid) (mkCheckpoint (JArr resolved) planToSave))
            [EvParse; EvLoad i; EvSave (checkpointId_of uuid)])
    by now apply create_view_restore_outcome.
  rewrite Ho. simpl. split_ands.
  - reflexivity.
  - eexists. split_ands; reflexivity.
  - intros el Hcam. unfold supplied.
    now rewrite !(is_type_exclusive "cameraUpdate" _ el Hcam) by discriminate.
  - intros restoreEl dels news -> Hr Hdels Hnews. subst resolved. f_equal.
    rewrite filter_cons, Hr. simpl. rewrite filter_app.
    rewrite (filter_none supplied dels).
    + simpl. now apply filter_all.
    + eapply Forall_impl; [exact Hdels|]. intros el Hel. unfold supplied. simpl in Hel.
      rewrite Hel. now rewrite andb_false_r.
Qed.

End CreateViewFacts.

(** *** The handler on concrete inputs *)

Example checkpointId_example : checkpointId_of example_uuid = "123e4567e89b12d3a4".
Proof. reflexivity. Qed.

(** The input at the limit plus one character, and a short input. *)
Lemma create_view_size_guard_witness :
  create_view Json.parse example_message example_hint
    (replicate_char (Z.to_nat (MAX_INPUT_BYTES + 1)) "["%char) None example_uuid example_store
  = mkOutcome (Some (mkResult text_too_large true None)) example_store []
  /\ head (trace (create_view Json.parse example_message example_hint "[]" None
                    example_uuid example_store)) = Some EvParse.
Proof.
  split.
  - apply (proj1 (create_view_size_guard Json.parse example_message example_hint _ _ _ _)).
    rewrite length_replicate_char, Z2Nat.id; unfold MAX_INPUT_BYTES; lia.
  - refine (proj1 (proj2 (create_view_size_guard Json.parse example_message example_hint _ _ _ _) _)).
    unfold MAX_INPUT_BYTES. simpl. lia.
Defined.

Lemma create_view_unknown_checkpoint_witness :
  create_view Json.parse example_message example_hint
    (JsString.dq "[{'type':'restoreCheckpoint','id':'gone'},{'type':'rectangle','id':'C'}]")
    (Some "plan") example_uuid example_store
  = mkOutcome (Some (mkResult (text_not_found (Some (JStr "gone"))) true None))
      example_store [EvParse; EvLoad (JStr "gone")].
Proof.
  refine (proj1 (create_view_unknown_checkpoint Json.parse example_message example_hint
                   _ _ _ _ [shape "restoreCheckpoint" "gone"; shape "rectangle" "C"] (JStr "gone")
                   _ _ _ _ _));
    vm_compute; first [reflexivity | discriminate].
Defined.

(** C7 as stated fails for a restore directive whose id is the empty
    string: the store does not hold it, and the handler saves a checkpoint
    and answers a success. *)
Lemma create_view_unknown_checkpoint_counterexample :
  let st : gmap string Checkpoint := ∅ in
  let o := create_view Json.parse example_message example_hint
             (JsString.dq "[{'type':'restoreCheckpoint','id':''}]") (Some "plan") example_uuid st in
  restoreEl_id [JObj [("type", JStr "restoreCheckpoint"); ("id", JStr "")]] = Some (Some (JStr ""))
  /\ load st (JStr "") = None
  /\ (exists r, result o = Some r /\ isError r = false)
  /\ store_after o <> st
  /\ trace o = [EvParse; EvSave "123e4567e89b12d3a4"].
Proof.
  cbv zeta. split_ands.
  - reflexivity.
  - reflexivity.
  - eexists. split; [vm_compute; reflexivity | reflexivity].
  - intros Heq. apply (f_equal (fun m : gmap string Checkpoint => m !! "123e4567e89b12d3a4")) in Heq.
    vm_compute in Heq. discriminate Heq.
  - vm_compute. reflexivity.
Qed.

(** Base [[A, B, T]] with [T] bound to [B]; the input restores it, deletes
    [B] and adds [C]: the saved scene is [[A, C]]. *)
Lemma create_view_resolves_scene_witness :
  store_after
    (create_view Json.parse example_message example_hint
       (JsString.dq "[{'type':'restoreCheckpoint','id':'K'},{'type':'delete','ids':'B'},{'type':'cameraUpdate','x':0,'y':0,'width':400,'height':300},{'type':'rectangle','id':'C'}]")
       None example_uuid example_store)
  = save example_store "123e4567e89b12d3a4"
      (mkCheckpoint (JArr [shape "rectangle" "A"; camera 0 0 400 300; shape "rectangle" "C"])
         (Some "two shapes")).
Proof.
  pose proof (create_view_resolves_scene Json.parse example_message example_hint
                (JsString.dq "[{'type':'restoreCheckpoint','id':'K'},{'type':'delete','ids':'B'},{'type':'cameraUpdate','x':0,'y':0,'width':400,'height':300},{'type':'rectangle','id':'C'}]")
                None example_uuid example_store
                [shape "restoreCheckpoint" "K";
                 JObj [("type", JStr "delete"); ("ids", JStr "B")];
                 camera 0 0 400 300;
                 shape "rectangle" "C"]
                (JStr "K")
                (mkCheckpoint (JArr [shape "rectangle" "A"; shape "ellipse" "B"; bound_text "T" "B"])
                   (Some "two shapes"))
                [shape "rectangle" "A"; shape "ellipse" "B"; bound_text "T" "B"]) as Hw.
  cbv zeta in Hw. destruct Hw as [Hsaved _].
  - vm_compute. discriminate.
  - vm_compute. reflexivity.
  - repeat constructor; discriminate.
  - reflexivity.
  - repeat constructor; discriminate.
  - vm_compute. reflexivity.
  - reflexivity.
  - vm_compute. reflexivity.
  - rewrite Hsaved. vm_compute. reflexivity.
Defined.

(** C1 as stated fails when the input carries a camera entry: the entry is
    no drawable element, and it is saved with the scene. Base [[A, B]]
    plus a camera and [C]: what is saved is [[A, B, camera, C]], not
    [[A, B, C]]. *)
Lemma create_view_resolves_scene_counterexample :
  let st : gmap string Checkpoint :=
    {[ "K" := mkCheckpoint (JArr [shape "rectangle" "A"; shape "ellipse" "B"]) None ]} in
  let parsed :=
    [shape "restoreCheckpoint" "K"; camera 0 0 400 300; shape "diamond" "C"] in
  let o := create_view Json.parse example_message example_hint
             (JsString.dq "[{'type':'restoreCheckpoint','id':'K'},{'type':'cameraUpdate','x':0,'y':0,'width':400,'height':300},{'type':'diamond','id':'C'}]")
             None example_uuid st in
  Json.parse
    (JsString.dq "[{'type':'restoreCheckpoint','id':'K'},{'type':'cameraUpdate','x':0,'y':0,'width':400,'height':300},{'type':'diamond','id':'C'}]")
  = Some (JArr parsed)
  /\ delete_ids parsed = ∅
  /\ filter drawn parsed = [shape "diamond" "C"]
  /\ store_after o !! "123e4567e89b12d3a4"
     = Some (mkCheckpoint
               (JArr [shape "rectangle" "A"; shape "ellipse" "B"; camera 0 0 400 300;
                      shape "diamond" "C"])
               (Some ""))
  /\ store_after o !! "123e4567e89b12d3a4"
     <> Some (mkCheckpoint
                (JArr ([shape "rectangle" "A"; shape "ellipse" "B"] ++ filter drawn parsed))
                (Some "")).
Proof.
  cbv zeta. split_ands; try (vm_compute; reflexivity). vm_compute. discriminate.
Qed.

(** Base [[A, B]] plus new [[C]] with no deletions resolves to [[A, B, C]]. *)
Example create_view_appends_new_elements :
  let st : gmap string Checkpoint :=
    {[ "K" := mkCheckpoint (JArr [shape "rectangle" "A"; shape "ellipse" "B"]) None ]} in
  store_after
    (create_view Json.parse example_message example_hint
       (JsString.dq "[{'type':'restoreCheckpoint','id':'K'},{'type':'diamond','id':'C'}]")
       None example_uuid st) !! "123e4567e89b12d3a4"
  = Some (mkCheckpoint (JArr [shape "rectangle" "A"; shape "ellipse" "B"; shape "diamond" "C"])
            (Some "")).
Proof. vm_compute. reflexivity. Qed.

(** ** Which restore directive is taken *)

Lemma findM_first (p : json -> throws bool) (pre post : list json) (el : json) :
  Forall (fun e => p e = Some false) pre ->
  p el = Some true ->
  findM p (pre ++ el :: post) = Some (Some el).
Proof.
  intros Hpre Hel. induction Hpre as [|e pre He Hpre IH]; simpl.
  - now rewrite Hel.
  - rewrite He. simpl. exact IH.
Qed.

(** The server reads the id of the first restore directive. *)
Lemma restoreEl_id_first (pre post : list json) (el : json) :
  Forall (fun e => type_is "restoreCheckpoint" e = Some false) pre ->
  type_is "restoreCheckpoint" el = Some true ->
  restoreEl_id (pre ++ el :: post) = get el "id".
Proof.
  intros Hpre Hel. unfold restoreEl_id. now rewrite (findM_first _ pre post el Hpre Hel).
Qed.

Lemma type_is_other (t t' : string) (el : json) :
  type_is t el = Some true -> t <> t' -> type_is t' el = Some false.
Proof.
  unfold type_is. destruct (get el "type") as [[[| | |s| |]|]|]; simpl; try discriminate.
  intros [= Hs] Hne. apply String.eqb_eq in Hs. subst s.
  f_equal. apply String.eqb_neq. exact Hne.
Qed.

Lemma extract_step_restore (acc acc' : Extracted) (el : json) :
  type_is "restoreCheckpoint" el = Some true ->
  extract_step acc el = Some acc' ->
  get el "id" = Some (restoreId acc').
Proof.
  intros Hel. unfold extract_step.
  rewrite (type_is_other _ "cameraUpdate" el Hel) by discriminate. simpl.
  rewrite Hel. simpl. destruct (get el "id"); simpl; [|discriminate].
  now intros [= <-].
Qed.

Lemma extract_step_keeps_restore (acc acc' : Extracted) (el : json) :
  type_is "restoreCheckpoint" el = Some false ->
  extract_step acc el = Some acc' ->
  restoreId acc' = restoreId acc.
Proof.
  intros Hel. unfold extract_step.
  destruct (type_is "cameraUpdate" el) as [[|]|]; simpl; [| |discriminate].
  - destruct (get el "x"), (get el "y"), (get el "width"), (get el "height");
      simpl; try discriminate. now intros [= <-].
  - rewrite Hel. simpl. destruct (type_is "delete" el) as [[|]|]; simpl; [| |discriminate].
    + destruct (add_delete_ids el (deleteIds acc)); simpl; [|discriminate]. now intros [= <-].
    + now intros [= <-].
Qed.

Lemma extract_loop_keeps_restore (l : list json) (acc acc' : Extracted) :
  Forall (fun e => type_is "restoreCheckpoint" e = Some false) l ->
  extract_loop acc l = Some acc' ->
  restoreId acc' = restoreId acc.
Proof.
  intros Hl. revert acc. induction Hl as [|e l He Hl IH]; intros acc; simpl.
  - now intros [= <-].
  - destruct (extract_step acc e) as [acc1|] eqn:Hstep; simpl; [|discriminate].
    intros Hloop. rewrite (IH _ Hloop). now apply (extract_step_keeps_restore acc acc1 e).
Qed.

Lemma extract_loop_app (l1 l2 : list json) (acc : Extracted) :
  extract_loop acc (l1 ++ l2) = (extract_loop acc l1 ≫= fun acc' => extract_loop acc' l2).
Proof.
  revert acc. induction l1 as [|e l1 IH]; intros acc; simpl; [reflexivity|].
  destruct (extract_step acc e); simpl; [apply IH | reflexivity].
Qed.

(** The widget's extractor reads the id of the last restore directive. *)
Lemma extractor_takes_last_restore (pre post : list json) (el : json) (ex : Extracted) :
  type_is "restoreCheckpoint" el = Some true ->
  Forall (fun e => type_is "restoreCheckpoint" e = Some false) post ->
  extractViewportAndElements (pre ++ el :: post) = Some ex ->
  get el "id" = Some (restoreId ex).
Proof.
  intros Hel Hpost. unfold extractViewportAndElements.
  rewrite extract_loop_app.
  destruct (extract_loop _ pre) as [acc0|]; simpl; [|discriminate].
  destruct (extract_step acc0 el) as [acc1|] eqn:Hstep; simpl; [|discriminate].
  destruct (extract_loop acc1 post) as [acc2|] eqn:Hloop; simpl; [|discriminate].
  destruct (if bool_decide (deleteIds acc2 = ∅) then _ else _); simpl; [|discriminate].
  intros [= <-]. simpl.
  rewrite (extract_loop_keeps_restore post acc1 acc2 Hpost Hloop).
  now apply (extract_step_restore acc0 acc1 el).
Qed.

(** C6, on an input with two restore directives: the extractor of the
    widget answers the id of the last one, the lookup of the server the id
    of the first one. *)
Theorem restore_id_last_in_widget_first_on_server :
  let parsed :=
    [shape "restoreCheckpoint" "K1"; shape "rectangle" "r"; shape "restoreCheckpoint" "K2"] in
  Json.parse (JsString.dq "[{'type':'restoreCheckpoint','id':'K1'},{'type':'rectangle','id':'r'},{'type':'restoreCheckpoint','id':'K2'}]")
  = Some (JArr parsed)
  /\ (restoreId <$> extractViewportAndElements parsed) = Some (Some (JStr "K2"))
  /\ restoreEl_id parsed = Some (Some (JStr "K1")).
Proof.
  cbv zeta. split_ands.
  - vm_compute. reflexivity.
  - destruct (extractViewportAndElements _) as [ex|] eqn:Hex;
      [|vm_compute in Hex; discriminate Hex].
    pose proof (extractor_takes_last_restore
                  [shape "restoreCheckpoint" "K1"; shape "rectangle" "r"] []
                  (shape "restoreCheckpoint" "K2") ex eq_refl (List.Forall_nil _) Hex) as Hlast.
    simpl in Hlast. simpl. congruence.
  - apply (restoreEl_id_first [] _ (shape "restoreCheckpoint" "K1")); [constructor | reflexivity].
Qed.

(** ** The camera animation *)

Module CameraFacts.
Import Camera.

Local Open Scope float_scope.

(** C9. A tick replaces each field [f] of the animated viewport by
    [f + (target.f - f) * LERP_SPEED] and asks for another frame exactly
    when the remaining distance exceeds 0.5. From animated [{0,0,400,300}]
    towards target [{100,0,400,300}] the first tick moves [x] to 3; over
    the whole animation [x] increases strictly and never exceeds 100 while
    the other fields stay put; the ticks reschedule themselves 173 times
    and the 174th tick, which leaves a remaining distance of at most 0.5,
    does not. *)
Theorem camera_animation_converges :
  (forall a t : ViewportRect float,
      animateViewBox (mkRefs (Some a) (Some t))
      = (mkRefs (Some (mkViewport (x a + (x t - x a) * LERP_SPEED)
                                  (y a + (y t - y a) * LERP_SPEED)
                                  (width a + (width t - width a) * LERP_SPEED)
                                  (height a + (height t - height a) * LERP_SPEED)))
                (Some t),
         PrimFloat.ltb 0.5
           (remaining (mkViewport (lerp (x a) (x t)) (lerp (y a) (y t))
                         (lerp (width a) (width t)) (lerp (height a) (height t))) t)))
  /\ animateViewBox start
     = (mkRefs (Some (mkViewport 3 0 400 300)) (Some (mkViewport 100 0 400 300)), true)
  /\ PrimFloat.ltb 0 3 = true /\ PrimFloat.ltb 3 100 = true
  /\ snd (frames 174 start) = true
  /\ length (fst (frames 174 start)) = 174%nat
  /\ snd (frames 173 start) = false
  /\ climbs 0 100 (List.map animated_x (fst (frames 174 start))) = true
  /\ List.map other_fields (fst (frames 174 start)) = repeat (Some (0, 400, 300)) 174
  /\ (exists a t, List.last (fst (frames 174 start)) start = mkRefs (Some a) (Some t)
                  /\ PrimFloat.leb (remaining a t) 0.5 = true).
Proof.
  split_ands.
  - intros a t. reflexivity.
  - vm_compute. reflexivity.
  - reflexivity.
  - reflexivity.
  - vm_compute. reflexivity.
  - vm_compute. reflexivity.
  - vm_compute. reflexivity.
  - vm_compute. reflexivity.
  - vm_compute. reflexivity.
  - eexists. eexists. split; [vm_compute; reflexivity | vm_compute; reflexivity].
Qed.

End CameraFacts.

(** ** The order of numbers *)

Module NumberFacts.
Import Number.

Local Open Scope Z_scope.

Lemma SFcompare_key (x y : spec_float) :
  sf_is_nan x = false -> sf_is_nan y = false ->
  SFcompare x y = Some (key_cmp (key x) (key y)).
Proof.
  destruct x as [sx|sx| |sx mx ex], y as [sy|sy| |sy my ey]; try discriminate; intros _ _;
    simpl; try destruct sx; try destruct sy; simpl; try reflexivity.
  rewrite Z.compare_opp, (Z.compare_antisym ex ey).
  change (PosDef.Pos.compare_cont Eq mx my) with (Pos.compare mx my).
  now destruct (ex ?= ey)%Z.
Qed.

Lemma is_nan_spec (x : float) : is_nan x = sf_is_nan (Prim2SF x).
Proof.
  unfold is_nan. rewrite FloatAxioms.eqb_spec. unfold SFeqb.
  destruct (Prim2SF x) as [s|s| |s m e] eqn:E; simpl; try reflexivity.
  - now destruct s.
  - destruct s; rewrite Z.compare_refl; change (PosDef.Pos.compare_cont Eq m m) with (Pos.compare m m);
      now rewrite Pos.compare_refl.
Qed.

Lemma key_cmp_lt a b : key_cmp a b = Lt <->
  let '(c1, e1, m1) := a in let '(c2, e2, m2) := b in
  (c1 < c2 \/ (c1 = c2 /\ (e1 < e2 \/ (e1 = e2 /\ m1 < m2))))%Z.
Proof.
  destruct a as [[c1 e1] m1], b as [[c2 e2] m2]. unfold key_cmp.
  destruct (Z.compare_spec c1 c2); [|split; [intros _; lia | reflexivity]|split; [discriminate | lia]].
  destruct (Z.compare_spec e1 e2); [|split; [intros _; lia | reflexivity]|split; [discriminate | lia]].
  destruct (Z.compare_spec m1 m2); split; try discriminate; try lia; reflexivity.
Qed.

Lemma key_cmp_gt a b : key_cmp a b = Gt <-> key_cmp b a = Lt.
Proof.
  destruct a as [[c1 e1] m1], b as [[c2 e2] m2]. unfold key_cmp.
  rewrite (Z.compare_antisym c1 c2), (Z.compare_antisym e1 e2), (Z.compare_antisym m1 m2).
  destruct (c1 ?= c2)%Z, (e1 ?= e2)%Z, (m1 ?= m2)%Z; simpl; split; congruence.
Qed.


Local Open Scope float_scope.

Lemma ltb_key (x y : float) :
  is_nan x = false -> is_nan y = false ->
  (x <? y) = true <-> key_cmp (key (Prim2SF x)) (key (Prim2SF y)) = Lt.
Proof.
  rewrite !is_nan_spec. intros Hx Hy. rewrite FloatAxioms.ltb_spec. unfold SFltb.
  rewrite (SFcompare_key _ _ Hx Hy). destruct (key_cmp _ _); split; congruence.
Qed.

Lemma leb_key (x y : float) :
  is_nan x = false -> is_nan y = false ->
  (x <=? y) = true <-> key_cmp (key (Prim2SF x)) (key (Prim2SF y)) <> Gt.
Proof.
  rewrite !is_nan_spec. intros Hx Hy. rewrite FloatAxioms.leb_spec. unfold SFleb.
  rewrite (SFcompare_key _ _ Hx Hy). destruct (key_cmp _ _); split; congruence.
Qed.

Lemma ltb_nan_l (x y : float) : is_nan x = true -> (x <? y) = false.
Proof.
  rewrite is_nan_spec, FloatAxioms.ltb_spec. unfold SFltb. now destruct (Prim2SF x).
Qed.

Lemma ltb_nan_r (x y : float) : is_nan y = true -> (x <? y) = false.
Proof.
  rewrite is_nan_spec, FloatAxioms.ltb_spec. unfold SFltb. destruct (Prim2SF y); try discriminate.
  now destruct (Prim2SF x).
Qed.

Lemma leb_nan_l (x y : float) : is_nan x = true -> (x <=? y) = false.
Proof.
  rewrite is_nan_spec, FloatAxioms.leb_spec. unfold SFleb. now destruct (Prim2SF x).
Qed.

Lemma leb_nan_r (x y : float) : is_nan y = true -> (x <=? y) = false.
Proof.
  rewrite is_nan_spec, FloatAxioms.leb_spec. unfold SFleb. destruct (Prim2SF y); try discriminate.
  now destruct (Prim2SF x).
Qed.

(** [<] is asymmetric. *)
Lemma ltb_asym (x y : float) : (x <? y) = true -> (y <? x) = false.
Proof.
  intros H. destruct (is_nan x) eqn:Hx; [now rewrite ltb_nan_l in H|].
  destruct (is_nan y) eqn:Hy; [now rewrite ltb_nan_r in H|].
  apply ltb_key in H; [|assumption..]. apply not_true_iff_false. intros H'.
  apply ltb_key in H'; [|assumption..]. apply key_cmp_gt in H'. congruence.
Qed.

(** Among numbers, what is not below is at or above. *)
Lemma ltb_false_leb (x y : float) :
  is_nan x = false -> is_nan y = false -> (x <? y) = false <-> (y <=? x) = true.
Proof.
  intros Hx Hy. rewrite (leb_key y x Hy Hx), <- not_true_iff_false, (ltb_key x y Hx Hy).
  now rewrite key_cmp_gt.
Qed.

Lemma leb_trans (x y z : float) : (x <=? y) = true -> (y <=? z) = true -> (x <=? z) = true.
Proof.
  intros H1 H2.
  destruct (is_nan x) eqn:Hx; [now rewrite leb_nan_l in H1|].
  destruct (is_nan y) eqn:Hy; [now rewrite leb_nan_r in H1|].
  destruct (is_nan z) eqn:Hz; [now rewrite leb_nan_r in H2|].
  apply leb_key in H1, H2; try assumption. apply leb_key; try assumption.
  rewrite key_cmp_gt, key_cmp_lt in *.
  destruct (key (Prim2SF x)) as [[c1 e1] m1], (key (Prim2SF y)) as [[c2 e2] m2],
    (key (Prim2SF z)) as [[c3 e3] m3]. lia.
Qed.

Local Open Scope Z_scope.

Lemma digits2_pos_bounds (p : positive) :
  2 ^ (Zpos (digits2_pos p) - 1) <= Zpos p < 2 ^ Zpos (digits2_pos p).
Proof.
  induction p as [p IH|p IH|]; simpl digits2_pos.
  - rewrite Pos2Z.inj_succ. replace (Z.succ (Zpos (digits2_pos p)) - 1) with (Zpos (digits2_pos p)) by lia.
    rewrite Z.pow_succ_r by lia.
    replace (Zpos (digits2_pos p)) with (Z.succ (Zpos (digits2_pos p) - 1)) at 1 by lia.
    rewrite Z.pow_succ_r by lia. lia.
  - rewrite Pos2Z.inj_succ. replace (Z.succ (Zpos (digits2_pos p)) - 1) with (Zpos (digits2_pos p)) by lia.
    rewrite Z.pow_succ_r by lia.
    replace (Zpos (digits2_pos p)) with (Z.succ (Zpos (digits2_pos p) - 1)) at 1 by lia.
    rewrite Z.pow_succ_r by lia. lia.
  - simpl. lia.
Qed.

Lemma shr_1_m (mrs : shr_record) :
  0 <= shr_m mrs -> shr_m (shr_1 mrs) = shr_m mrs / 2.
Proof.
  destruct mrs as [m r s]. simpl. intros Hm.
  destruct m as [|[p|p|]|p]; try lia; cbn [shr_m].
  - reflexivity.
  - apply Z.div_unique with 1; lia.
  - apply Z.div_unique with 0; lia.
  - reflexivity.
Qed.

Lemma iter_shr_1_m (p : positive) (mrs : shr_record) :
  0 <= shr_m mrs -> shr_m (SpecFloat.iter_pos shr_1 p mrs) = shr_m mrs / 2 ^ Zpos p.
Proof.
  revert mrs. induction p as [p IH|p IH|]; intros mrs Hm; simpl SpecFloat.iter_pos.
  - assert (H1 : 0 <= shr_m (shr_1 mrs)) by (rewrite shr_1_m by lia; apply Z.div_pos; lia).
    assert (H2 : 0 <= shr_m (SpecFloat.iter_pos shr_1 p (shr_1 mrs)))
      by (rewrite IH by lia; apply Z.div_pos; [lia | apply Z.pow_pos_nonneg; lia]).
    rewrite IH, IH, shr_1_m by lia.
    rewrite !Z.div_div by (try apply Z.pow_pos_nonneg; lia).
    f_equal. replace (Z.pos p~1) with (Z.pos p + Z.pos p + 1) by lia.
    rewrite !Z.pow_add_r, Z.pow_1_r by lia. ring.
  - assert (H2 : 0 <= shr_m (SpecFloat.iter_pos shr_1 p mrs))
      by (rewrite IH by lia; apply Z.div_pos; [lia | apply Z.pow_pos_nonneg; lia]).
    rewrite IH, IH by lia.
    rewrite !Z.div_div by (try apply Z.pow_pos_nonneg; lia).
    f_equal. replace (Z.pos p~0) with (Z.pos p + Z.pos p) by lia.
    rewrite !Z.pow_add_r by lia. ring.
  - rewrite shr_1_m by lia. now rewrite Z.pow_1_r.
Qed.

Lemma fexp_eq (k : Z) : SpecFloat.fexp prec emax k = Z.max (k - 53) (-1074).
Proof. reflexivity. Qed.

Lemma shr_record_of_loc_m (m : Z) (l : location) : shr_m (shr_record_of_loc m l) = m.
Proof. now destruct l as [|[]]. Qed.

Lemma shr_fexp_pos (m e : Z) (l : location) :
  0 < m -> -1074 <= e ->
  0 < shr_m (fst (shr_fexp prec emax m e l)) /\ -1074 <= snd (shr_fexp prec emax m e l).
Proof.
  intros Hm He. unfold shr_fexp, shr.
  destruct m as [|p|p]; try lia. cbn [Zdigits2].
  pose proof (digits2_pos_bounds p) as [Hlo Hhi].
  rewrite fexp_eq.
  set (d := Zpos (digits2_pos p)) in *.
  destruct (Z.max (d + e - 53) (-1074) - e) as [|n|n] eqn:Hn; cbn [fst snd];
    try (split; [rewrite shr_record_of_loc_m|]; lia).
  rewrite iter_shr_1_m by (rewrite shr_record_of_loc_m; lia).
  rewrite shr_record_of_loc_m. split; [|lia].
  apply Z.div_str_pos. split; [apply Z.pow_pos_nonneg; lia|].
  transitivity (2 ^ (d - 1)); [apply Z.pow_le_mono_r; lia | exact Hlo].
Qed.

Lemma round_nearest_even_pos (m : Z) (l : location) :
  0 < m -> 0 < round_nearest_even m l.
Proof. intros Hm. destruct l as [|[]]; simpl; try destruct (Z.even m); lia. Qed.

Lemma binary_round_aux_signed (sx : bool) (m e : Z) (l : location) :
  0 < m -> -1074 <= e -> signed sx (binary_round_aux prec emax sx m e l).
Proof.
  intros Hm He. unfold binary_round_aux.
  destruct (shr_fexp_pos m e l Hm He) as [H1 H2].
  destruct (shr_fexp prec emax m e l) as [mrs' e']. cbn [fst snd] in H1, H2.
  pose proof (round_nearest_even_pos (shr_m mrs') (loc_of_shr_record mrs') H1) as Hr.
  destruct (shr_fexp_pos _ e' loc_Exact Hr H2) as [H3 H4].
  destruct (shr_fexp prec emax _ e' loc_Exact) as [mrs'' e'']. cbn [fst snd] in H3, H4.
  destruct (shr_m mrs'') as [|p|p]; try lia.
  destruct (e'' <=? emax - prec); [right; eauto | now left].
Qed.

Lemma binary_round_signed (sx : bool) (m : positive) (e : Z) :
  -1074 <= e -> signed sx (binary_round prec emax sx m e).
Proof.
  intros He. unfold binary_round, shl_align.
  destruct ((SpecFloat.fexp prec emax) (Zpos (digits2_pos m) + e) - e) eqn:Hd;
    apply binary_round_aux_signed; try lia.
  rewrite fexp_eq in *. lia.
Qed.

Lemma binary_normalize_ltb0 (m e : Z) :
  -1074 <= e ->
  SFltb (binary_normalize prec emax m e false) (S754_zero false) = (m <? 0).
Proof.
  intros He. destruct m as [|p|p]; simpl; [reflexivity| |].
  - destruct (binary_round_signed false p e He) as [->|(m' & e' & ->)]; reflexivity.
  - destruct (binary_round_signed true p e He) as [->|(m' & e' & ->)]; reflexivity.
Qed.

Lemma iter_xO (m d : positive) : Zpos (Pos.iter xO m d) = Zpos m * 2 ^ Zpos d.
Proof.
  induction d as [|d IH] using Pos.peano_ind.
  - simpl. lia.
  - rewrite Pos.iter_succ, Pos2Z.inj_xO, IH, Pos2Z.inj_succ, Z.pow_succ_r by lia. ring.
Qed.

Lemma shl_align_fst (m : positive) (e ez : Z) :
  ez <= e -> Zpos (fst (shl_align m e ez)) = Zpos m * 2 ^ (e - ez).
Proof.
  intros Hle. unfold shl_align. destruct (ez - e) as [|d|d] eqn:Hd; cbn [fst]; try lia.
  - replace (e - ez) with 0 by lia. lia.
  - rewrite iter_xO. f_equal. f_equal. lia.
Qed.

Lemma bounded_facts (m : positive) (e : Z) :
  bounded prec emax m e = true ->
  -1074 <= e /\ Zpos m < 2 ^ 53 /\ (-1074 < e -> 2 ^ 52 <= Zpos m).
Proof.
  unfold bounded, canonical_mantissa. intros [Hc _]%andb_true_iff.
  apply Z.eqb_eq in Hc. rewrite fexp_eq in Hc.
  pose proof (digits2_pos_bounds m) as [Hlo Hhi].
  set (d := Zpos (digits2_pos m)) in *.
  split; [lia|]. split.
  - apply Z.lt_le_trans with (2 ^ d); [exact Hhi|]. apply Z.pow_le_mono_r; lia.
  - intros He. assert (d = 53) as Hd by lia. rewrite Hd in Hlo. exact Hlo.
Qed.

Lemma aligned_lt (m1 m2 : positive) (e1 e2 : Z) :
  bounded prec emax m1 e1 = true -> bounded prec emax m2 e2 = true ->
  e1 < e2 -> Zpos m1 * 2 ^ (e1 - Z.min e1 e2) < Zpos m2 * 2 ^ (e2 - Z.min e1 e2).
Proof.
  intros (H1 & H2 & _)%bounded_facts (H3 & _ & H4)%bounded_facts Hlt.
  rewrite Z.min_l by lia. rewrite Z.sub_diag, Z.pow_0_r, Z.mul_1_r.
  specialize (H4 ltac:(lia)).
  assert (2 ^ 1 <= 2 ^ (e2 - e1)) by (apply Z.pow_le_mono_r; lia).
  change (2 ^ 1) with 2 in *. change (2 ^ 53) with (2 ^ 52 * 2) in H2. nia.
Qed.

Lemma aligned_gt (m1 m2 : positive) (e1 e2 : Z) :
  bounded prec emax m1 e1 = true -> bounded prec emax m2 e2 = true ->
  e2 < e1 -> Zpos m2 * 2 ^ (e2 - Z.min e1 e2) < Zpos m1 * 2 ^ (e1 - Z.min e1 e2).
Proof.
  intros H1 H2 Hlt. rewrite Z.min_comm. now apply aligned_lt.
Qed.

(** The difference of two numbers is negative exactly when the first one is
    below the second one. *)
Lemma SFsub_ltb0 (X Y : spec_float) :
  valid_binary X = true -> valid_binary Y = true ->
  SFltb (SFsub prec emax X Y) (S754_zero false) = SFltb X Y.
Proof.
  intros HX HY.
  destruct X as [sx|sx| |sx mx ex], Y as [sy|sy| |sy my ey];
    try (destruct sx; try destruct sy; reflexivity); try (destruct sy; reflexivity);
    try reflexivity.
  cbn [SFsub valid_binary] in *.
  pose proof (bounded_facts _ _ HX) as (Hex & _). pose proof (bounded_facts _ _ HY) as (Hey & _).
  rewrite binary_normalize_ltb0 by lia.
  rewrite !shl_align_fst by lia.
  pose proof (aligned_lt mx my ex ey HX HY) as Hlt.
  pose proof (aligned_gt mx my ex ey HX HY) as Hgt.
  assert (Hx0 : 0 < Zpos mx * 2 ^ (ex - Z.min ex ey)) by (apply Z.mul_pos_pos; [lia | apply Z.pow_pos_nonneg; lia]).
  assert (Hy0 : 0 < Zpos my * 2 ^ (ey - Z.min ex ey)) by (apply Z.mul_pos_pos; [lia | apply Z.pow_pos_nonneg; lia]).
  unfold SFltb, SFcompare.
  change (PosDef.Pos.compare_cont Eq mx my) with (Pos.compare mx my).
  destruct sx, sy; cbn [cond_Zopp].
  - destruct (Z.compare_spec ex ey) as [Heq|Hl|Hg].
    + subst ey. rewrite Z.min_id, Z.sub_diag, Z.pow_0_r, !Z.mul_1_r.
      destruct (Pos.compare_spec mx my); cbv [CompOpp];
        first [apply Z.ltb_lt; lia | apply Z.ltb_ge; lia].
    + specialize (Hlt Hl). apply Z.ltb_ge. lia.
    + specialize (Hgt Hg). apply Z.ltb_lt. lia.
  - apply Z.ltb_lt. lia.
  - apply Z.ltb_ge. lia.
  - destruct (Z.compare_spec ex ey) as [Heq|Hl|Hg].
    + subst ey. rewrite Z.min_id, Z.sub_diag, Z.pow_0_r, !Z.mul_1_r.
      destruct (Pos.compare_spec mx my); cbv [CompOpp];
        first [apply Z.ltb_lt; lia | apply Z.ltb_ge; lia].
    + specialize (Hlt Hl). apply Z.ltb_lt. lia.
    + specialize (Hgt Hg). apply Z.ltb_ge. lia.
Qed.

(** The difference of two numbers is negative exactly when the first one is
    below the second one. *)
Lemma sub_neg_iff (x y : float) : (x - y <? 0)%float = (x <? y)%float.
Proof.
  rewrite !FloatAxioms.ltb_spec, FloatAxioms.sub_spec. change (Prim2SF 0) with (S754_zero false).
  apply SFsub_ltb0; apply Prim2SF_valid.
Qed.

End NumberFacts.

(** ** Stable sorting *)

Section StableSort.

Context {A : Type} (before : A -> A -> bool).

Lemma sort_insert_perm (a : A) (l : list A) : sort_insert before a l ≡ₚ a :: l.
Proof.
  induction l as [|b l IH]; simpl; [reflexivity|].
  destruct (before b a); [|reflexivity].
  rewrite IH. apply perm_swap.
Qed.

Lemma stable_sort_perm (l : list A) : stable_sort before l ≡ₚ l.
Proof.
  induction l as [|a l IH]; simpl; [reflexivity|].
  rewrite sort_insert_perm. now rewrite IH.
Qed.

Lemma elem_of_stable_sort (a : A) (l : list A) : a ∈ stable_sort before l <-> a ∈ l.
Proof. now rewrite stable_sort_perm. Qed.

Lemma length_stable_sort (l : list A) : length (stable_sort before l) = length l.
Proof. now rewrite stable_sort_perm. Qed.

Lemma head_sort_insert (a : A) (l : list A) :
  head (sort_insert before a l)
  = match head l with
    | Some b => if before b a then Some b else Some a
    | None => Some a
    end.
Proof. destruct l as [|b l]; simpl; [reflexivity|]. now destruct (before b a). Qed.

(** For a comparator that is asymmetric, and negatively transitive through
    the items of the list, nothing is before the head of the sorted
    list. *)
Lemma head_stable_sort_min (l : list A) (m : A) :
  (forall a b, before a b = true -> before b a = false) ->
  (forall a b c, b ∈ l -> before a b = false -> before b c = false -> before a c = false) ->
  head (stable_sort before l) = Some m ->
  m ∈ l /\ forall a, a ∈ l -> before a m = false.
Proof.
  intros before_asym. revert m.
  induction l as [|a l IH]; intros m before_negtrans; simpl; [discriminate|].
  rewrite head_sort_insert.
  assert (Hl : forall x y z, y ∈ l -> before x y = false -> before y z = false ->
                             before x z = false).
  { intros x y z Hy. apply before_negtrans. now right. }
  destruct (head (stable_sort before l)) as [b|] eqn:Hhead.
  - destruct (IH b Hl eq_refl) as [Hb Hmin].
    destruct (before b a) eqn:Hba; intros [= <-].
    + split; [now right|]. intros c [->|Hc]%elem_of_cons; [now apply before_asym | now apply Hmin].
    + split; [now left|]. intros c [->|Hc]%elem_of_cons.
      * destruct (before a a) eqn:Haa; [|reflexivity].
        now rewrite (before_asym _ _ Haa) in Haa.
      * apply (before_negtrans c b a); [now right | now apply Hmin | exact Hba].
  - intros [= <-]. destruct l as [|c l].
    + split; [now left|]. intros c ->%list_elem_of_singleton.
      destruct (before a a) eqn:Haa; [|reflexivity].
      now rewrite (before_asym _ _ Haa) in Haa.
    + exfalso. assert (Hlen : length (stable_sort before (c :: l)) = length (c :: l))
        by apply length_stable_sort.
      destruct (stable_sort before (c :: l)); simpl in *; [lia | discriminate].
Qed.

Lemma head_stable_sort_None (l : list A) : head (stable_sort before l) = None -> l = [].
Proof.
  intros Hh. pose proof (length_stable_sort l) as Hlen.
  destruct (stable_sort before l); [|discriminate]. destruct l; [reflexivity | discriminate].
Qed.

End StableSort.

(** ** Draw order *)

Lemma filter_ext_elem {A} (P Q : A -> bool) (l : list A) :
  (forall a, a ∈ l -> P a = Q a) -> filter P l = filter Q l.
Proof.
  induction l as [|a l IH]; intros Hext; [reflexivity|].
  rewrite !filter_cons. rewrite (Hext a) by now left.
  rewrite IH by (intros b Hb; apply Hext; now right). reflexivity.
Qed.

Lemma elem_of_filter_bool {A} (P : A -> bool) (l : list A) (a : A) :
  a ∈ filter P l <-> P a = true /\ a ∈ l.
Proof. rewrite list_elem_of_filter. now rewrite Is_true_true. Qed.

Lemma filter_nil_iff {A} (P : A -> bool) (l : list A) :
  filter P l = [] <-> forall a, a ∈ l -> P a = false.
Proof.
  induction l as [|a l IH]; [split; [intros _ b Hb; inversion Hb | reflexivity]|].
  rewrite filter_cons. destruct (P a) eqn:Ha; simpl.
  - split; [discriminate|]. intros Hall. specialize (Hall a ltac:(now left)). congruence.
  - rewrite IH. split.
    + intros Hall b [->|Hb]%elem_of_cons; [exact Ha | now apply Hall].
    + intros Hall b Hb. apply Hall. now right.
Qed.

Lemma existsb_elem {A} (P : A -> bool) (l : list A) :
  existsb P l = true <-> exists a, a ∈ l /\ P a = true.
Proof.
  rewrite existsb_exists. split; intros [a [Ha HP]]; exists a; split; try assumption;
    now apply list_elem_of_In.
Qed.

Lemma NoDup_map_inj_elem {A B} (f : A -> B) (l : list A) (a b : A) :
  NoDup (List.map f l) -> a ∈ l -> b ∈ l -> f a = f b -> a = b.
Proof.
  induction l as [|c l IH]; intros Hnd Ha Hb Hf; [inversion Ha|].
  simpl in Hnd. apply NoDup_cons in Hnd as [Hc Hnd].
  apply elem_of_cons in Ha as [->|Ha]; apply elem_of_cons in Hb as [->|Hb].
  - reflexivity.
  - exfalso. apply Hc. rewrite Hf. apply list_elem_of_In, in_map, list_elem_of_In, Hb.
  - exfalso. apply Hc. rewrite <- Hf. apply list_elem_of_In, in_map, list_elem_of_In, Ha.
  - now apply IH.
Qed.

Lemma lookup_map {A B} (f : A -> B) (l : list A) (k : nat) :
  List.map f l !! k = f <$> (l !! k).
Proof.
  revert k. induction l as [|a l IH]; intros [|k]; simpl; try reflexivity. apply IH.
Qed.

(** Three classes that exclude one another, and the rest, split a list. *)
Lemma four_way_perm {A} (p q r : A -> bool) (l : list A) :
  (forall a, a ∈ l ->
     (p a = true -> q a = false /\ r a = false) /\ (q a = true -> r a = false)) ->
  filter p l ++ filter q l ++ filter r l
    ++ filter (fun a => negb (p a) && negb (r a) && negb (q a)) l ≡ₚ l.
Proof.
  induction l as [|a l IH]; intros Hex; [reflexivity|].
  assert (IH' := IH (fun b Hb => Hex b ltac:(now right))). clear IH.
  destruct (Hex a ltac:(now left)) as [Hp Hq].
  rewrite !filter_cons.
  destruct (p a) eqn:Ep.
  - destruct (Hp eq_refl) as [-> ->]. simpl. now rewrite IH'.
  - etransitivity; [|apply perm_skip, IH'].
    destruct (q a) eqn:Eq.
    + rewrite (Hq eq_refl). simpl. symmetry. apply Permutation_middle.
    + destruct (r a) eqn:Er; simpl; symmetry.
      * rewrite !(app_assoc (filter p l)). apply Permutation_middle.
      * rewrite !app_assoc. apply Permutation_middle.
Qed.

Module GeometryFacts.
Import Geometry.

Lemma type_in_container el :
  type_in CONTAINER_SHAPES el = true ->
  type_in HAS_BOUNDS el = true /\ type_in PSEUDO_TYPES el = false
  /\ is_arrow_or_line el = false /\ type_in BINDABLE_SHAPES el = true.
Proof.
  unfold type_in, is_arrow_or_line. intros Ht%bool_decide_eq_true.
  unfold CONTAINER_SHAPES in Ht.
  repeat (apply elem_of_cons in Ht as [-> | Ht]); [| | |inversion Ht];
    split_ands; reflexivity.
Qed.

Lemma arrow_not_pseudo el : is_arrow_or_line el = true -> type_in PSEUDO_TYPES el = false.
Proof.
  unfold is_arrow_or_line, type_in.
  intros [->%String.eqb_eq | ->%String.eqb_eq]%orb_true_iff; reflexivity.
Qed.

Lemma classify_parent_nested (drawable : list element) (sets : IdSet * IdSet) (p : element) :
  classify_parent drawable sets p
  = match nested_in drawable p with
    | [] => sets
    | _ => (fst sets ∪ {[ id p ]}, snd sets ∪ list_to_set (List.map id (nested_in drawable p)))
    end.
Proof.
  unfold classify_parent, nested_in. destruct (elementBounds p) as [pb|]; [|reflexivity].
  destruct (filter (inside_of pb) _); reflexivity.
Qed.

Lemma fold_classify (drawable l : list element) (acc : IdSet * IdSet) (i : option string) :
  (i ∈ fst (fold_left (classify_parent drawable) l acc)
   <-> i ∈ fst acc \/ exists p, p ∈ l /\ id p = i /\ nested_in drawable p <> [])
  /\ (i ∈ snd (fold_left (classify_parent drawable) l acc)
      <-> i ∈ snd acc \/ exists p c, p ∈ l /\ c ∈ nested_in drawable p /\ id c = i).
Proof.
  revert acc. induction l as [|q l IH]; intros acc; simpl.
  - split; (split; [now left | intros [H|H]; [exact H|]]).
    + destruct H as (p & Hp & _). inversion Hp.
    + destruct H as (p & c & Hp & _). inversion Hp.
  - destruct (IH (classify_parent drawable acc q)) as [IHc IHn]. rewrite IHc, IHn. clear IH IHc IHn.
    rewrite classify_parent_nested.
    destruct (nested_in drawable q) as [|c0 cs] eqn:Hq; cbn [fst snd].
    + split; (split; intros [H|H]; [now left | | now left |]).
      * right. destruct H as (p & Hp & Hrest). exists p. split; [now right | exact Hrest].
      * destruct H as (p & [->|Hp]%elem_of_cons & Hi & Hne); [congruence|].
        right. now exists p.
      * right. destruct H as (p & c & Hp & Hrest). exists p, c. split; [now right | exact Hrest].
      * destruct H as (p & c & [->|Hp]%elem_of_cons & Hc & Hi).
        -- rewrite Hq in Hc. inversion Hc.
        -- right. now exists p, c.
    + split; (split; intros [H|H]).
      * apply elem_of_union in H as [H|H]; [now left|]. apply elem_of_singleton in H.
        right. exists q. split; [now left|]. split; [now symmetry|]. now rewrite Hq.
      * right. destruct H as (p & Hp & Hrest). exists p. split; [now right | exact Hrest].
      * left. apply elem_of_union. now left.
      * destruct H as (p & [->|Hp]%elem_of_cons & Hi & Hne).
        -- left. apply elem_of_union. right. now apply elem_of_singleton.
        -- right. now exists p.
      * apply elem_of_union in H as [H|H]; [now left|].
        apply elem_of_list_to_set, list_elem_of_In, in_map_iff in H as (c & Hc & Hin).
        right. exists q, c. split; [now left|]. rewrite Hq. split; [|exact Hc].
        now apply list_elem_of_In.
      * right. destruct H as (p & c & Hp & Hrest). exists p, c. split; [now right | exact Hrest].
      * left. apply elem_of_union. now left.
      * destruct H as (p & c & [->|Hp]%elem_of_cons & Hc & Hi).
        -- left. apply elem_of_union. right.
           apply elem_of_list_to_set, list_elem_of_In, in_map_iff. exists c.
           split; [exact Hi|]. rewrite Hq in Hc. now apply list_elem_of_In.
        -- right. now exists p, c.
Qed.

Lemma elem_of_nested_in (elements : list element) (p c : element) :
  type_in CONTAINER_SHAPES p = true ->
  c ∈ nested_in (filter (fun el => negb (type_in PSEUDO_TYPES el)) elements) p
  <-> c ∈ elements /\ contains p c = true.
Proof.
  intros Hp. unfold nested_in, contains. rewrite Hp. simpl.
  destruct (elementBounds p) as [pb|]; [|split; [intros H; inversion H | intros [_ H]; discriminate]].
  rewrite !elem_of_filter_bool. split.
  - intros (Hin & Hcond & Hnp & Hc). split; [exact Hc|].
    apply andb_true_iff in Hcond as [[Hid Hty]%andb_true_iff _].
    now rewrite Hid, Hty, Hin.
  - intros (Hc & [[Hid Hty]%andb_true_iff Hin]%andb_true_iff).
    destruct (type_in_container c Hty) as (Hb & Hps & _).
    split; [exact Hin|]. split; [now rewrite Hid, Hty, Hb|]. split; [now rewrite Hps | exact Hc].
Qed.

Lemma elem_of_byArea (elements : list element) (p : element) :
  p ∈ stable_sort larger
        (filter (type_in CONTAINER_SHAPES)
           (filter (fun el => negb (type_in PSEUDO_TYPES el)) elements))
  <-> p ∈ elements /\ type_in CONTAINER_SHAPES p = true.
Proof.
  rewrite elem_of_stable_sort, !elem_of_filter_bool. split.
  - intros (Hty & _ & Hp). now split.
  - intros (Hp & Hty). destruct (type_in_container p Hty) as (_ & Hps & _).
    split; [exact Hty|]. split; [now rewrite Hps | exact Hp].
Qed.

(** The sets of [reorderElementsForArrows], read on the elements. *)
Lemma classify_spec (elements : list element) (i : option string) :
  (i ∈ fst (classify elements)
   <-> exists p, p ∈ elements /\ id p = i /\ is_container elements p = true)
  /\ (i ∈ snd (classify elements)
      <-> exists c, c ∈ elements /\ id c = i /\ is_nested elements c = true).
Proof.
  unfold classify.
  destruct (fold_classify (filter (fun el => negb (type_in PSEUDO_TYPES el)) elements)
              (stable_sort larger
                 (filter (type_in CONTAINER_SHAPES)
                    (filter (fun el => negb (type_in PSEUDO_TYPES el)) elements)))
              (∅, ∅) i) as [Hc Hn].
  rewrite Hc, Hn. clear Hc Hn. simpl. split; split.
  - intros [H|(p & Hp & Hi & Hne)]; [now apply not_elem_of_empty in H|].
    apply elem_of_byArea in Hp as [Hp Hty]. exists p. split; [exact Hp|]. split; [exact Hi|].
    apply existsb_elem. destruct (nested_in _ p) as [|c cs] eqn:Hq; [congruence|].
    assert (Hc : c ∈ nested_in (filter (fun el => negb (type_in PSEUDO_TYPES el)) elements) p)
      by (rewrite Hq; now left).
    apply (elem_of_nested_in elements p c Hty) in Hc as [Hc Hcont]. now exists c.
  - intros (p & Hp & Hi & (c & Hc & Hcont)%existsb_elem). right. exists p.
    assert (Hty : type_in CONTAINER_SHAPES p = true).
    { unfold contains in Hcont. now apply andb_true_iff in Hcont as [Hty _]. }
    split; [now apply elem_of_byArea|]. split; [exact Hi|].
    intros Hnil. assert (Hin : c ∈ nested_in (filter (fun el => negb (type_in PSEUDO_TYPES el)) elements) p)
      by now apply elem_of_nested_in.
    rewrite Hnil in Hin. inversion Hin.
  - intros [H|(p & c & Hp & Hc & Hi)]; [now apply not_elem_of_empty in H|].
    apply elem_of_byArea in Hp as [Hp Hty].
    apply (elem_of_nested_in elements p c Hty) in Hc as [Hc Hcont].
    exists c. split; [exact Hc|]. split; [exact Hi|]. apply existsb_elem. now exists p.
  - intros (c & Hc & Hi & (p & Hp & Hcont)%existsb_elem). right. exists p, c.
    assert (Hty : type_in CONTAINER_SHAPES p = true).
    { unfold contains in Hcont. now apply andb_true_iff in Hcont as [Hty _]. }
    split; [now apply elem_of_byArea|]. split; [now apply elem_of_nested_in | exact Hi].
Qed.

Lemma arrow_ids_spec (elements : list element) (i : option string) :
  i ∈ arrow_ids elements
  <-> exists a, a ∈ elements /\ id a = i /\ is_arrow_or_line a = true.
Proof.
  unfold arrow_ids. rewrite elem_of_list_to_set, list_elem_of_In, in_map_iff. split.
  - intros (a & Hi & Ha%list_elem_of_In). apply elem_of_filter_bool in Ha as [Harr Ha].
    apply elem_of_filter_bool in Ha as [_ Ha]. now exists a.
  - intros (a & Ha & Hi & Harr). exists a. split; [exact Hi|].
    apply list_elem_of_In, elem_of_filter_bool. split; [exact Harr|].
    apply elem_of_filter_bool. split; [|exact Ha]. now rewrite (arrow_not_pseudo a Harr).
Qed.

Lemma in_set_container (elements : list element) (el : element) :
  NoDup (List.map id elements) -> el ∈ elements ->
  in_set (fst (classify elements)) el = is_container elements el.
Proof.
  intros Hnd Hel. unfold in_set. apply eq_true_iff_eq.
  rewrite bool_decide_eq_true, (proj1 (classify_spec elements (id el))). split.
  - intros (p & Hp & Hi & Hc). now rewrite <- (NoDup_map_inj_elem id elements p el Hnd Hp Hel Hi).
  - intros Hc. now exists el.
Qed.

Lemma in_set_nested (elements : list element) (el : element) :
  NoDup (List.map id elements) -> el ∈ elements ->
  in_set (snd (classify elements)) el = is_nested elements el.
Proof.
  intros Hnd Hel. unfold in_set. apply eq_true_iff_eq.
  rewrite bool_decide_eq_true, (proj2 (classify_spec elements (id el))). split.
  - intros (p & Hp & Hi & Hc). now rewrite <- (NoDup_map_inj_elem id elements p el Hnd Hp Hel Hi).
  - intros Hc. now exists el.
Qed.

Lemma in_set_arrow (elements : list element) (el : element) :
  NoDup (List.map id elements) -> el ∈ elements ->
  in_set (arrow_ids elements) el = is_arrow_or_line el.
Proof.
  intros Hnd Hel. unfold in_set. apply eq_true_iff_eq.
  rewrite bool_decide_eq_true, arrow_ids_spec. split.
  - intros (p & Hp & Hi & Hc). now rewrite <- (NoDup_map_inj_elem id elements p el Hnd Hp Hel Hi).
  - intros Hc. now exists el.
Qed.

(** On a list of elements with distinct ids, the four groups of the draw
    order are the containers, the arrows and lines, the nested shapes, and
    the rest. *)
Lemma reorder_by_classes (elements : list element) :
  NoDup (List.map id elements) ->
  reorderElementsForArrows elements
  = filter (is_container elements) elements ++ filter is_arrow_or_line elements
    ++ filter (is_nested elements) elements
    ++ filter (fun el => negb (is_container elements el) && negb (is_nested elements el)
                         && negb (is_arrow_or_line el)) elements.
Proof.
  intros Hnd. unfold reorderElementsForArrows.
  pose proof (in_set_container elements) as Hc.
  pose proof (in_set_nested elements) as Hn.
  destruct (classify elements) as [containerIds nestedIds]. simpl in Hc, Hn.
  f_equal; [|f_equal; [|f_equal]]; apply filter_ext_elem; intros el Hel.
  - now apply Hc.
  - now apply in_set_arrow.
  - now apply Hn.
  - now rewrite (Hc el Hnd Hel), (Hn el Hnd Hel), (in_set_arrow elements el Hnd Hel).
Qed.

(** When no container is itself nested, the four groups split the list. *)
Lemma reorder_perm (elements : list element) :
  NoDup (List.map id elements) ->
  (forall el, el ∈ elements -> is_container elements el = true ->
              is_nested elements el = false) ->
  reorderElementsForArrows elements ≡ₚ elements.
Proof.
  intros Hnd Hone. rewrite (reorder_by_classes elements Hnd).
  apply four_way_perm. intros el Hel. split.
  - intros Hcon. split; [|now apply Hone].
    apply existsb_elem in Hcon as (c & _ & Hc). unfold contains in Hc.
    apply andb_true_iff in Hc as [Hty _].
    now destruct (type_in_container el Hty) as (_ & _ & Hna & _).
  - intros Harr. destruct (is_nested elements el) eqn:Hn; [|reflexivity].
    apply existsb_elem in Hn as (q & _ & Hq). unfold contains in Hq.
    apply andb_true_iff in Hq as [_ Hq]. destruct (elementBounds q); [|discriminate].
    apply andb_true_iff in Hq as [[_ Hty]%andb_true_iff _].
    destruct (type_in_container el Hty) as (_ & _ & Hna & _). congruence.
Qed.

(** X30. On a list of elements with distinct ids, the draw order is: the
    containers, then the arrows and lines, then the nested shapes, then
    every element that is none of these; each of the four groups is taken
    from the list in its original order. A shape that is both a container
    and nested is in two of the groups; when there is none, the four groups
    split the list and the draw order is a permutation of it. *)
Theorem reorder_emits_classes (elements : list element) :
  NoDup (List.map id elements) ->
  let back := filter (is_container elements) elements in
  let mid := filter is_arrow_or_line elements in
  let front := filter (is_nested elements) elements in
  let other :=
    filter (fun el => negb (is_container elements el) && negb (is_nested elements el)
                      && negb (is_arrow_or_line el)) elements in
  reorderElementsForArrows elements = back ++ mid ++ front ++ other
  /\ back `sublist_of` elements /\ mid `sublist_of` elements
  /\ front `sublist_of` elements /\ other `sublist_of` elements
  /\ ((forall el, el ∈ elements -> is_container elements el = true ->
                  is_nested elements el = false) ->
      reorderElementsForArrows elements ≡ₚ elements).
Proof.
  intros Hnd back mid front other.
  split; [now apply reorder_by_classes|]. split_ands; try apply sublist_filter.
  now apply reorder_perm.
Qed.

(** C8 (a slip of the code). The draw order is no reordering of a scene in
    which a shape is both a container and nested: in the scene of three
    shapes nested in one another, whose ids are distinct, the middle shape
    is emitted with the containers and again with the nested shapes, so
    that four elements come out of three. *)
Theorem reorder_emits_nested_container_twice :
  NoDup (List.map id nested_scene)
  /\ is_container nested_scene (box "rectangle" "middle" 10 10 100 100) = true
  /\ is_nested nested_scene (box "rectangle" "middle" 10 10 100 100) = true
  /\ List.map id (reorderElementsForArrows nested_scene)
     = [Some "outer"; Some "middle"; Some "inner"; Some "middle"]
  /\ ~ reorderElementsForArrows nested_scene ≡ₚ nested_scene.
Proof.
  split_ands.
  - apply (bool_decide_unpack _). vm_compute. exact I.
  - vm_compute. reflexivity.
  - vm_compute. reflexivity.
  - vm_compute. reflexivity.
  - intros Hp. apply Permutation_length in Hp. vm_compute in Hp. discriminate Hp.
Qed.

(** ** Arrow bindings *)

Import Number NumberFacts.

Lemma nearer_ltb (a b : element * float) : nearer a b = (snd a <? snd b)%float.
Proof. apply sub_neg_iff. Qed.

Lemma nearer_asym (a b : element * float) : nearer a b = true -> nearer b a = false.
Proof. rewrite !nearer_ltb. apply ltb_asym. Qed.

Lemma nearer_negtrans (a b c : element * float) :
  is_nan (snd b) = false ->
  nearer a b = false -> nearer b c = false -> nearer a c = false.
Proof.
  rewrite !nearer_ltb. intros Hb Hab Hbc.
  destruct (is_nan (snd a)) eqn:Ha; [now apply ltb_nan_l|].
  destruct (is_nan (snd c)) eqn:Hc; [now apply ltb_nan_r|].
  apply ltb_false_leb in Hab, Hbc; try assumption.
  apply ltb_false_leb; try assumption. now apply leb_trans with (snd b).
Qed.

Lemma closest_spec (cands : list element) (p : float * float) (b : element) (d : float) :
  closest cands p = Some (b, d) ->
  b ∈ cands /\ d = dist p b
  /\ (measurable cands p -> forall c, c ∈ cands -> (d <=? dist p c)%float = true).
Proof.
  unfold closest. intros Hhead.
  assert (Hin : (b, d) ∈ List.map (fun b => (b, distToRect (fst p) (snd p) b)) cands).
  { rewrite <- (elem_of_stable_sort nearer). destruct (stable_sort nearer _); [discriminate|].
    injection Hhead as ->. now left. }
  apply list_elem_of_In, in_map_iff in Hin as (b' & [= -> <-] & Hb%list_elem_of_In).
  split; [exact Hb|]. split; [reflexivity|]. intros Hnum c Hc.
  apply (head_stable_sort_min nearer) in Hhead as [_ Hmin].
  - specialize (Hmin (c, dist p c)). rewrite nearer_ltb in Hmin. cbn [snd] in Hmin.
    apply ltb_false_leb; [now apply Hnum | now apply Hnum |].
    apply Hmin. apply list_elem_of_In, in_map_iff. exists c.
    split; [reflexivity | now apply list_elem_of_In].
  - apply nearer_asym.
  - intros x y z Hy. apply nearer_negtrans.
    apply list_elem_of_In, in_map_iff in Hy as (c' & <- & Hc'%list_elem_of_In).
    now apply Hnum.
Qed.

Lemma closest_None (cands : list element) (p : float * float) : closest cands p = None -> cands = [].
Proof.
  unfold closest. intros Hh%head_stable_sort_None. now destruct cands.
Qed.

Lemma within_radius (p : float * float) (c : element) :
  within p c = (dist p c <=? MAX_BINDING_DIST)%float.
Proof. reflexivity. Qed.

Lemma bind_to_closest_near (cands : list element) (p : float * float) :
  measurable cands p ->
  (exists c, c ∈ cands /\ within p c = true) ->
  exists best, nearest cands p best
    /\ bind_to_closest cands p
       = Some (mkBinding (id best) (Some (fixedPointForPoint (fst p) (snd p) best))).
Proof.
  intros Hnum (c & Hc & Hnear). unfold bind_to_closest.
  destruct (closest cands p) as [[b d]|] eqn:Hclosest.
  - apply closest_spec in Hclosest as (Hb & -> & Hmin). specialize (Hmin Hnum).
    assert (Hbnear : within p b = true).
    { unfold within in *. apply leb_trans with (dist p c); [now apply Hmin | exact Hnear]. }
    rewrite <- within_radius, Hbnear. exists b. split; [|reflexivity].
    split; [exact Hb|]. split; [exact Hbnear | exact Hmin].
  - apply closest_None in Hclosest. subst cands. inversion Hc.
Qed.

Lemma bind_to_closest_far (cands : list element) (p : float * float) :
  (forall c, c ∈ cands -> within p c = false) -> bind_to_closest cands p = None.
Proof.
  unfold bind_to_closest. intros Hfar.
  destruct (closest cands p) as [[b d]|] eqn:Hclosest; [|reflexivity].
  apply closest_spec in Hclosest as (Hb & -> & _).
  specialize (Hfar b Hb). now rewrite <- within_radius, Hfar.
Qed.

Lemma bind_to_closest_None (cands : list element) (p : float * float) :
  measurable cands p -> bind_to_closest cands p = None ->
  forall c, c ∈ cands -> within p c = false.
Proof.
  intros Hnum Hnone c Hc. destruct (within p c) eqn:Hnear; [|reflexivity].
  destruct (bind_to_closest_near cands p Hnum) as (best & _ & Hsome); [now exists c|].
  congruence.
Qed.

Lemma fst_bind_arrow bindable el bu : fst (bind_arrow bindable el bu) = bound_element bindable el.
Proof. unfold bind_arrow, bound_element. now destruct (negb (is_arrow_or_line el)). Qed.

Lemma fst_bind_arrows bindable (els : list element) bu :
  fst (bind_arrows bindable els bu) = List.map (bound_element bindable) els.
Proof.
  revert bu. induction els as [|el els IH]; intros bu; simpl; [reflexivity|].
  pose proof (fst_bind_arrow bindable el bu) as Hel.
  destruct (bind_arrow bindable el bu) as [el' bu']. simpl in Hel. subst el'.
  specialize (IH bu'). destruct (bind_arrows bindable els bu') as [rest' bu'']. simpl in *.
  now rewrite IH.
Qed.

Lemma ensureArrowBindings_map (els : list element) :
  exists bu, ensureArrowBindings els
             = List.map (fun el => add_bound bu (bound_element (filter (type_in BINDABLE_SHAPES) els) el))
                 els.
Proof.
  unfold ensureArrowBindings.
  pose proof (fst_bind_arrows (filter (type_in BINDABLE_SHAPES) els) els ∅) as Hfst.
  destruct (bind_arrows _ els ∅) as [result bu]. simpl in Hfst. subst result.
  exists bu. now rewrite List.map_map.
Qed.

Lemma add_bound_bindings bu el :
  startBinding (add_bound bu el) = startBinding el
  /\ endBinding (add_bound bu el) = endBinding el
  /\ id (add_bound bu el) = id el.
Proof. unfold add_bound. destruct (bu !! id el); auto. Qed.




(** *** The passes on concrete scenes *)


Lemma reorder_emits_classes_witness :
  List.map id (reorderElementsForArrows zone_scene)
  = [Some "zone"; Some "link"; Some "chip1"; Some "chip2"; Some "note"].
Proof.
  rewrite (proj1 (reorder_emits_classes zone_scene
                    ltac:(apply (bool_decide_unpack _); vm_compute; exact I))).
  vm_compute. reflexivity.
Defined.

(** ** Running the passes again *)

Lemma same_but_groups_refl a : same_but_groups a a.
Proof. unfold same_but_groups. now destruct a. Qed.

Lemma same_but_groups_set a b g : same_but_groups a b -> same_but_groups a (set_groupIds g b).
Proof. unfold same_but_groups. intros ->. now destruct a. Qed.

Lemma same_but_groups_geo a b : same_but_groups a b -> geo b = geo a.
Proof. unfold same_but_groups. intros ->. reflexivity. Qed.

Lemma groups_extended_refl fresh a : groups_extended fresh a a.
Proof.
  split; [apply same_but_groups_refl|]. exists []. split; [now rewrite app_nil_r | constructor].
Qed.

Lemma groups_extended_snoc (fresh : string -> Prop) a b g :
  fresh g ->
  groups_extended fresh a b ->
  groups_extended fresh a (set_groupIds (Some (default [] (groupIds b) ++ [g])) b).
Proof.
  intros Hg [Hsame (extra & Hextra & Hfresh)]. split; [now apply same_but_groups_set|].
  exists (extra ++ [g]). split.
  - simpl. now rewrite Hextra, app_assoc.
  - apply Forall_app. split; [exact Hfresh | now constructor].
Qed.

Lemma groups_extended_weaken (fresh fresh' : string -> Prop) l l' :
  (forall g, fresh g -> fresh' g) ->
  Forall2 (groups_extended fresh) l l' -> Forall2 (groups_extended fresh') l l'.
Proof.
  intros Hw Hrel. eapply Forall2_impl; [exact Hrel|].
  intros a b [Hsame (extra & Hextra & Hfresh)].
  split; [exact Hsame|]. exists extra. split; [exact Hextra|].
  eapply Forall_impl; [exact Hfresh | exact Hw].
Qed.

Lemma tag_member_extends (fresh : string -> Prop) resultById groupId
    (l result : list element) (el : element) :
  fresh groupId ->
  Forall2 (groups_extended fresh) l result ->
  Forall2 (groups_extended fresh) l (tag_member resultById groupId result el).
Proof.
  intros Hg Hrel. unfold tag_member.
  destruct (resultById !! id el) as [idx|]; [|exact Hrel].
  destruct (result !! idx) as [r|] eqn:Hr; [|exact Hrel].
  destruct (bool_decide _); [exact Hrel|].
  destruct (Forall2_lookup_r _ _ _ _ _ Hrel Hr) as (a & Ha & Har).
  rewrite <- (list_insert_id l idx a Ha).
  apply Forall2_insert; [exact Hrel|]. now apply groups_extended_snoc.
Qed.

Lemma fold_tag_member_extends (fresh : string -> Prop) resultById groupId
    (l result members : list element) :
  fresh groupId ->
  Forall2 (groups_extended fresh) l result ->
  Forall2 (groups_extended fresh) l (fold_left (tag_member resultById groupId) members result).
Proof.
  intros Hg. revert result.
  induction members as [|m members IH]; intros result Hrel; simpl; [exact Hrel|].
  apply IH. now apply tag_member_extends.
Qed.

Lemma group_parent_extends randomUUID withBounds resultById (n : nat) (l : list element)
    (st : list element * nat) (parent : element) :
  (n <= snd st)%nat ->
  Forall2 (groups_extended (drawn_between randomUUID n (snd st))) l (fst st) ->
  let st' := group_parent randomUUID withBounds resultById st parent in
  (n <= snd st')%nat
  /\ Forall2 (groups_extended (drawn_between randomUUID n (snd st'))) l (fst st').
Proof.
  intros Hn Hrel. cbv zeta. unfold group_parent.
  destruct (elementBounds parent) as [pb|]; [|now split].
  destruct (length _ =? 0)%nat; [now split|]. cbn [fst snd]. split; [lia|].
  apply fold_tag_member_extends.
  - exists (snd st). split; [lia | reflexivity].
  - eapply groups_extended_weaken; [|exact Hrel].
    intros g (k & Hk & ->). exists k. split; [lia | reflexivity].
Qed.

(** Grouping leaves every element as it is, but for the group ids it
    appends, which are the ones it draws. *)
Lemma assignGroupIds_extends randomUUID (n : nat) (l : list element) :
  let r := assignGroupIdsForNestedShapes randomUUID n l in
  Forall2 (groups_extended (drawn_between randomUUID n (snd r))) l (fst r).
Proof.
  cbv zeta. unfold assignGroupIdsForNestedShapes.
  destruct (_ || _).
  - simpl. apply Forall_Forall2_diag, Forall_forall. intros a _. apply groups_extended_refl.
  - set (result := List.map _ l). set (byArea := stable_sort larger _).
    assert (Hinit : Forall2 (groups_extended (drawn_between randomUUID n n)) l result).
    { subst result. clear. induction l as [|a l IH]; simpl; constructor; [|exact IH].
      split; [apply same_but_groups_set, same_but_groups_refl|].
      exists []. simpl. split; [now rewrite app_nil_r | constructor]. }
    generalize dependent result. intros result.
    generalize (index_by_id result) as resultById.
    intros resultById Hinit.
    assert (Hst : (n <= snd (result, n))%nat
                  /\ Forall2 (groups_extended (drawn_between randomUUID n (snd (result, n)))) l
                       (fst (result, n))) by (split; [simpl; lia | exact Hinit]).
    clear Hinit. generalize dependent (result, n). clear result.
    induction byArea as [|p byArea IH]; intros st [Hn Hst]; simpl; [exact Hst|].
    apply IH. now apply group_parent_extends.
Qed.

Ltac geo_fields H :=
  let Ht := fresh "Htype" in let Hi := fresh "Hid" in
  let Hx := fresh "Hx" in let Hy := fresh "Hy" in
  let Hw := fresh "Hwidth" in let Hh := fresh "Hheight" in let Hp := fresh "Hpoints" in
  unfold geo in H; injection H as Ht Hi Hx Hy Hw Hh Hp.

Lemma elementBounds_geo a b : geo a = geo b -> elementBounds a = elementBounds b.
Proof. intros H. geo_fields H. unfold elementBounds. now rewrite Hx, Hy, Hwidth, Hheight. Qed.

Lemma contains_geo p p' c c' :
  geo p = geo p' -> geo c = geo c' -> contains p c = contains p' c'.
Proof.
  intros Hp Hc. unfold contains, inside_of, type_in.
  rewrite (elementBounds_geo _ _ Hp), (elementBounds_geo _ _ Hc).
  geo_fields Hp. geo_fields Hc. now rewrite Htype, Hid, Htype0, Hid0.
Qed.

Lemma is_arrow_geo a b : geo a = geo b -> is_arrow_or_line a = is_arrow_or_line b.
Proof. intros H. geo_fields H. unfold is_arrow_or_line. now rewrite Htype. Qed.

Lemma id_geo a b : geo a = geo b -> id a = id b.
Proof. intros H. now geo_fields H. Qed.

Lemma is_container_covered l l' p p' :
  covered l l' -> geo p' = geo p -> is_container l p = true -> is_container l' p' = true.
Proof.
  intros Hcov Hp (c & Hc & Hcont)%existsb_elem. apply existsb_elem.
  destruct (Hcov c Hc) as (c' & Hc' & Hgeo). exists c'. split; [exact Hc'|].
  now rewrite (contains_geo p' p c' c).
Qed.

Lemma is_nested_covered l l' c c' :
  covered l l' -> geo c' = geo c -> is_nested l c = true -> is_nested l' c' = true.
Proof.
  intros Hcov Hc (p & Hp & Hcont)%existsb_elem. apply existsb_elem.
  destruct (Hcov p Hp) as (p' & Hp' & Hgeo). exists p'. split; [exact Hp'|].
  now rewrite (contains_geo p' p c' c).
Qed.

Lemma classify_covered_fst l l' (i : option string) :
  covered l l' -> i ∈ fst (classify l) -> i ∈ fst (classify l').
Proof.
  intros Hcov. rewrite (proj1 (classify_spec l i)), (proj1 (classify_spec l' i)).
  intros (p & Hp & Hi & Hc). destruct (Hcov p Hp) as (p' & Hp' & Hgeo).
  exists p'. split; [exact Hp'|]. split; [now rewrite (id_geo _ _ Hgeo)|].
  now apply (is_container_covered l l' p p').
Qed.

Lemma classify_covered_snd l l' (i : option string) :
  covered l l' -> i ∈ snd (classify l) -> i ∈ snd (classify l').
Proof.
  intros Hcov. rewrite (proj2 (classify_spec l i)), (proj2 (classify_spec l' i)).
  intros (p & Hp & Hi & Hc). destruct (Hcov p Hp) as (p' & Hp' & Hgeo).
  exists p'. split; [exact Hp'|]. split; [now rewrite (id_geo _ _ Hgeo)|].
  now apply (is_nested_covered l l' p p').
Qed.

Lemma arrow_ids_covered l l' (i : option string) :
  covered l l' -> i ∈ arrow_ids l -> i ∈ arrow_ids l'.
Proof.
  intros Hcov. rewrite !arrow_ids_spec.
  intros (p & Hp & Hi & Hc). destruct (Hcov p Hp) as (p' & Hp' & Hgeo).
  exists p'. split; [exact Hp'|]. split; [now rewrite (id_geo _ _ Hgeo)|].
  now rewrite (is_arrow_geo _ _ Hgeo).
Qed.

(** The three sets depend on the elements of the list as a set, and on
    their [geo] only. *)
Lemma classes_covered l l' :
  covered l l' -> covered l' l ->
  classify l = classify l' /\ arrow_ids l = arrow_ids l'.
Proof.
  intros H1 H2. split.
  - rewrite (surjective_pairing (classify l)), (surjective_pairing (classify l')).
    f_equal; apply set_eq; intros i; split.
    + now apply classify_covered_fst.
    + now apply classify_covered_fst.
    + now apply classify_covered_snd.
    + now apply classify_covered_snd.
  - apply set_eq; intros i; split; now apply arrow_ids_covered.
Qed.

Lemma Forall2_covered (P : element -> element -> Prop) l l' :
  (forall a b, P a b -> geo b = geo a) -> Forall2 P l l' -> covered l l' /\ covered l' l.
Proof.
  intros HP Hrel. split.
  - intros a Ha. apply list_elem_of_lookup in Ha as [k Hk].
    destruct (Forall2_lookup_l _ _ _ _ _ Hrel Hk) as (b & Hb & Hab).
    exists b. split; [now apply list_elem_of_lookup; exists k | now apply HP].
  - intros b Hb. apply list_elem_of_lookup in Hb as [k Hk].
    destruct (Forall2_lookup_r _ _ _ _ _ Hrel Hk) as (a & Ha & Hab).
    exists a. split; [now apply list_elem_of_lookup; exists k | symmetry; now apply HP].
Qed.

Lemma Forall2_filter_bool {A B} (P : A -> B -> Prop) (p : A -> bool) (q : B -> bool) l l' :
  (forall a b, P a b -> p a = q b) ->
  Forall2 P l l' -> Forall2 P (filter p l) (filter q l').
Proof.
  intros Hpq. induction 1 as [|a b l l' Hab Hrel IH]; [constructor|].
  rewrite !filter_cons, (Hpq a b Hab). destruct (q b); simpl; [constructor|]; assumption.
Qed.

(** The draw order goes through a relation that keeps [geo]. *)
Lemma reorder_Forall2 (P : element -> element -> Prop) l l' :
  (forall a b, P a b -> geo b = geo a) ->
  Forall2 P l l' ->
  Forall2 P (reorderElementsForArrows l) (reorderElementsForArrows l').
Proof.
  intros HP Hrel. destruct (Forall2_covered P l l' HP Hrel) as [H1 H2].
  destruct (classes_covered l l' H1 H2) as [Hc Ha].
  unfold reorderElementsForArrows. rewrite <- Hc, <- Ha.
  destruct (classify l) as [containerIds nestedIds].
  assert (Hin : forall (s : IdSet) a b, P a b -> in_set s a = in_set s b).
  { intros s a b Hab. unfold in_set. now rewrite (id_geo _ _ (HP a b Hab)). }
  repeat apply Forall2_app; apply Forall2_filter_bool; try assumption.
  - intros a b Hab. now apply Hin.
  - intros a b Hab. now apply Hin.
  - intros a b Hab. now apply Hin.
  - intros a b Hab. now rewrite !(Hin _ a b Hab).
Qed.

Lemma elem_of_reorder l (a : element) : a ∈ reorderElementsForArrows l <-> a ∈ l.
Proof.
  unfold reorderElementsForArrows. destruct (classify l) as [containerIds nestedIds].
  rewrite !elem_of_app, !elem_of_filter_bool. split.
  - intros [[_ H]|[[_ H]|[[_ H]|[_ H]]]]; exact H.
  - intros Ha. destruct (in_set containerIds a) eqn:Hc; [now left|].
    destruct (in_set (arrow_ids l) a) eqn:Harr; [right; now left|].
    destruct (in_set nestedIds a) eqn:Hn; [right; right; now left|].
    right; right; right. now split.
Qed.

Lemma filter_filter_all {A} (p q : A -> bool) (l : list A) :
  (forall a, q a = true -> p a = true) -> filter p (filter q l) = filter q l.
Proof.
  intros Hpq. apply filter_all, Forall_forall. intros a Ha.
  apply elem_of_filter_bool in Ha as [Ha _]. now apply Hpq.
Qed.

Lemma filter_filter_none {A} (p q : A -> bool) (l : list A) :
  (forall a, q a = true -> p a = false) -> filter p (filter q l) = [].
Proof.
  intros Hpq. apply filter_none, Forall_forall. intros a Ha.
  apply elem_of_filter_bool in Ha as [Ha _]. now apply Hpq.
Qed.

Lemma in_set_disjoint (s t : IdSet) :
  s ∩ t = ∅ ->
  (forall a, in_set s a = true -> in_set t a = false)
  /\ (forall a, in_set t a = true -> in_set s a = false).
Proof.
  intros Hst. unfold in_set.
  split; intros a H1%bool_decide_eq_true; apply bool_decide_eq_false; intros H2;
    apply (not_elem_of_empty (C := IdSet) (id a)); rewrite <- Hst;
    apply elem_of_intersection; now split.
Qed.

(** When no id is in two of the sets, the draw order is a fixed point of
    the reordering. *)
Lemma reorder_idempotent l :
  classes_disjoint l = true ->
  reorderElementsForArrows (reorderElementsForArrows l) = reorderElementsForArrows l.
Proof.
  intros Hdis.
  assert (Hcov : covered (reorderElementsForArrows l) l /\ covered l (reorderElementsForArrows l)).
  { split; intros a Ha; exists a; (split; [now apply elem_of_reorder | reflexivity]). }
  destruct (classes_covered _ _ (proj1 Hcov) (proj2 Hcov)) as [Hc Ha].
  unfold reorderElementsForArrows at 1. rewrite Hc, Ha.
  unfold classes_disjoint in Hdis. unfold reorderElementsForArrows.
  destruct (classify l) as [cs ns]. set (ars := arrow_ids l) in *.
  apply andb_true_iff in Hdis as [[Hcn Hca]%andb_true_iff Hna].
  apply bool_decide_eq_true in Hcn, Hca, Hna.
  pose proof (in_set_disjoint cs ns Hcn) as [Dcn Dnc].
  pose proof (in_set_disjoint cs ars Hca) as [Dca Dac].
  pose proof (in_set_disjoint ns ars Hna) as [Dna Dan].
  set (rest := fun el : element => negb (in_set cs el) && negb (in_set ns el) && negb (in_set ars el)).
  assert (Rc : forall a, rest a = true -> in_set cs a = false).
  { intros a. unfold rest. destruct (in_set cs a); [discriminate | reflexivity]. }
  assert (Rn : forall a, rest a = true -> in_set ns a = false).
  { intros a. unfold rest. destruct (in_set cs a), (in_set ns a); (discriminate || reflexivity). }
  assert (Ra : forall a, rest a = true -> in_set ars a = false).
  { intros a. unfold rest.
    destruct (in_set cs a), (in_set ns a), (in_set ars a); (discriminate || reflexivity). }
  assert (Cr : forall a, in_set cs a = true -> rest a = false).
  { intros a H1. unfold rest. now rewrite H1. }
  assert (Nr : forall a, in_set ns a = true -> rest a = false).
  { intros a H1. unfold rest. rewrite H1. now rewrite andb_false_r. }
  assert (Ar : forall a, in_set ars a = true -> rest a = false).
  { intros a H1. unfold rest. rewrite H1. now rewrite andb_false_r. }
  rewrite !filter_app.
  rewrite (filter_filter_all (in_set cs) (in_set cs)) by auto.
  rewrite (filter_filter_none (in_set cs) (in_set ars)) by auto.
  rewrite (filter_filter_none (in_set cs) (in_set ns)) by auto.
  rewrite (filter_filter_none (in_set cs) rest) by auto.
  rewrite (filter_filter_none (in_set ars) (in_set cs)) by auto.
  rewrite (filter_filter_all (in_set ars) (in_set ars)) by auto.
  rewrite (filter_filter_none (in_set ars) (in_set ns)) by auto.
  rewrite (filter_filter_none (in_set ars) rest) by auto.
  rewrite (filter_filter_none (in_set ns) (in_set cs)) by auto.
  rewrite (filter_filter_none (in_set ns) (in_set ars)) by auto.
  rewrite (filter_filter_all (in_set ns) (in_set ns)) by auto.
  rewrite (filter_filter_none (in_set ns) rest) by auto.
  rewrite (filter_filter_none rest (in_set cs)) by auto.
  rewrite (filter_filter_none rest (in_set ars)) by auto.
  rewrite (filter_filter_none rest (in_set ns)) by auto.
  rewrite (filter_filter_all rest rest) by auto.
  now rewrite !app_nil_r.
Qed.

(** *** The back-references kept in [boundUpdates] *)

Lemma existsb_ref_id (cur : list BoundRef) (i : option string) :
  existsb (fun b => bool_decide (ref_id b = i)) cur = true
  <-> exists r, r ∈ cur /\ ref_id r = i.
Proof.
  rewrite existsb_elem. split; intros (r & Hr & Hi); exists r; (split; [exact Hr|]).
  - now apply bool_decide_eq_true in Hi.
  - now apply bool_decide_eq_true.
Qed.

Lemma note_bound_has k ref bu : has_entry (note_bound k ref bu) k (ref_id ref).
Proof.
  unfold note_bound, has_entry.
  destruct (existsb _ (default [] (bu !! k))) eqn:Hex.
  - apply existsb_ref_id in Hex as (r & Hr & Hi).
    destruct (bu !! k) as [cur|] eqn:Hk; simpl in Hr; [|inversion Hr].
    exists cur. split; [reflexivity|]. now exists r.
  - rewrite lookup_insert_eq. eexists. split; [reflexivity|]. exists ref.
    split; [|reflexivity]. apply elem_of_app. right. now left.
Qed.

Lemma note_bound_mono k ref bu k' i :
  has_entry bu k' i -> has_entry (note_bound k ref bu) k' i.
Proof.
  intros (add & Hadd & r & Hr & Hi). unfold note_bound, has_entry.
  destruct (existsb _ _); [now exists add; split; [|exists r]|].
  destruct (decide (k = k')) as [->|Hne].
  - rewrite lookup_insert_eq, Hadd. simpl. eexists. split; [reflexivity|].
    exists r. split; [|exact Hi]. apply elem_of_app. now left.
  - rewrite lookup_insert_ne by exact Hne. exists add. split; [exact Hadd|]. now exists r.
Qed.

Lemma note_bound_ok J k ref bu :
  entries_ok J bu -> J k ref -> entries_ok J (note_bound k ref bu).
Proof.
  intros Hok HJ. unfold note_bound. destruct (existsb _ _); [exact Hok|].
  intros k' add. destruct (decide (k = k')) as [->|Hne].
  - rewrite lookup_insert_eq. intros [= <-]. split; [now destruct (default [] (bu !! k'))|].
    intros r [Hr|Hr%list_elem_of_singleton]%elem_of_app; [|now subst r].
    destruct (bu !! k') as [cur|] eqn:Hk; simpl in Hr; [|inversion Hr].
    now apply (proj2 (Hok k' cur Hk)).
  - rewrite lookup_insert_ne by exact Hne. apply Hok.
Qed.

Lemma bind_arrow_mono bindable a bu k i :
  has_entry bu k i -> has_entry (snd (bind_arrow bindable a bu)) k i.
Proof.
  intros H. unfold bind_arrow. destruct (negb (is_arrow_or_line a)); [exact H|]. cbn [snd].
  destruct (chosen_end bindable a (chosen_start bindable a)) as [e|];
    destruct (chosen_start bindable a) as [s|];
    repeat (try destruct (neq_id _ _); try apply note_bound_mono); exact H.
Qed.

Lemma bind_arrow_complete bindable a bu k :
  is_arrow_or_line a = true -> noted bindable a k ->
  has_entry (snd (bind_arrow bindable a bu)) k (id a).
Proof.
  intros Harr Hnoted. unfold bind_arrow. rewrite Harr. cbn [negb snd].
  unfold noted in Hnoted. cbv zeta in Hnoted.
  destruct Hnoted as [(s & Hs & Hk)|(e & He & Hk & Hne)].
  - rewrite Hs. subst k.
    destruct (chosen_end bindable a (Some s)) as [e|];
      [destruct (neq_id _ _); [apply note_bound_mono|]|];
      apply (note_bound_has (elementId s) (mkBoundRef "arrow" (id a))).
  - rewrite He, Hne. subst k. apply (note_bound_has (elementId e) (mkBoundRef "arrow" (id a))).
Qed.

Lemma bind_arrow_ok J bindable a bu :
  entries_ok J bu ->
  (forall k, is_arrow_or_line a = true -> noted bindable a k -> J k (mkBoundRef "arrow" (id a))) ->
  entries_ok J (snd (bind_arrow bindable a bu)).
Proof.
  intros Hok HJ. unfold bind_arrow. destruct (is_arrow_or_line a) eqn:Harr; [|exact Hok].
  cbn [negb snd]. unfold noted in HJ. cbv zeta in HJ.
  destruct (chosen_start bindable a) as [s|] eqn:Hs.
  - assert (H1 : entries_ok J (note_bound (elementId s) (mkBoundRef "arrow" (id a)) bu)).
    { apply note_bound_ok; [exact Hok|]. apply HJ; [reflexivity|]. left. now exists s. }
    destruct (chosen_end bindable a (Some s)) as [e|] eqn:He; [|exact H1].
    destruct (neq_id _ _) eqn:Hne; [|exact H1].
    apply note_bound_ok; [exact H1|]. apply HJ; [reflexivity|]. right. now exists e.
  - destruct (chosen_end bindable a None) as [e|] eqn:He; [|exact Hok].
    destruct (neq_id _ _) eqn:Hne; [|exact Hok].
    apply note_bound_ok; [exact Hok|]. apply HJ; [reflexivity|]. right. now exists e.
Qed.

Lemma snd_bind_arrows_cons bindable a l bu :
  snd (bind_arrows bindable (a :: l) bu)
  = snd (bind_arrows bindable l (snd (bind_arrow bindable a bu))).
Proof.
  simpl. destruct (bind_arrow bindable a bu) as [a' bu']. simpl.
  now destruct (bind_arrows bindable l bu').
Qed.

Lemma bind_arrows_mono bindable l bu k i :
  has_entry bu k i -> has_entry (snd (bind_arrows bindable l bu)) k i.
Proof.
  revert bu. induction l as [|a l IH]; intros bu H; [exact H|].
  rewrite snd_bind_arrows_cons. apply IH. now apply bind_arrow_mono.
Qed.

Lemma bind_arrows_complete bindable l bu a k :
  a ∈ l -> is_arrow_or_line a = true -> noted bindable a k ->
  has_entry (snd (bind_arrows bindable l bu)) k (id a).
Proof.
  revert bu. induction l as [|b l IH]; intros bu Ha Harr Hnoted; [inversion Ha|].
  rewrite snd_bind_arrows_cons. apply elem_of_cons in Ha as [->|Ha].
  - apply bind_arrows_mono. now apply bind_arrow_complete.
  - now apply IH.
Qed.

Lemma bind_arrows_ok J bindable l bu :
  entries_ok J bu ->
  (forall a k, a ∈ l -> is_arrow_or_line a = true -> noted bindable a k ->
               J k (mkBoundRef "arrow" (id a))) ->
  entries_ok J (snd (bind_arrows bindable l bu)).
Proof.
  revert bu. induction l as [|b l IH]; intros bu Hok HJ; [exact Hok|].
  rewrite snd_bind_arrows_cons. apply IH.
  - apply bind_arrow_ok; [exact Hok|]. intros k. apply HJ. now left.
  - intros a k Ha. apply HJ. now right.
Qed.

Lemma merge_refs_incl (base add : list BoundRef) (r : BoundRef) :
  r ∈ base -> r ∈ merge_refs base add.
Proof.
  unfold merge_refs. revert base. induction add as [|ref add IH]; intros base Hr; [exact Hr|].
  simpl. apply IH. destruct (existsb _ base); [exact Hr|]. apply elem_of_app. now left.
Qed.

Lemma merge_refs_has (base add : list BoundRef) (r : BoundRef) :
  r ∈ add -> exists r', r' ∈ merge_refs base add /\ ref_id r' = ref_id r.
Proof.
  unfold merge_refs. revert base. induction add as [|ref add IH]; intros base Hr; [inversion Hr|].
  simpl. apply elem_of_cons in Hr as [->|Hr]; [|now apply IH].
  destruct (existsb _ base) eqn:Hex.
  - apply existsb_ref_id in Hex as (r' & Hr' & Hi). exists r'. split; [|exact Hi].
    now apply (merge_refs_incl base add).
  - exists ref. split; [|reflexivity]. apply (merge_refs_incl (base ++ [ref]) add).
    apply elem_of_app. right. now left.
Qed.

Lemma merge_refs_present (base add : list BoundRef) :
  (forall r, r ∈ add -> exists r', r' ∈ base /\ ref_id r' = ref_id r) ->
  merge_refs base add = base.
Proof.
  unfold merge_refs. induction add as [|ref add IH]; intros Hall; [reflexivity|].
  simpl. assert (Hex : existsb (fun b => bool_decide (ref_id b = ref_id ref)) base = true).
  { apply existsb_ref_id. apply Hall. now left. }
  rewrite Hex. apply IH. intros r Hr. apply Hall. now right.
Qed.

(** *** Scenes on which the binding pass has nothing left to do *)

Lemma dist_start_geo a a' c c' :
  geo a = geo a' -> geo c = geo c' -> dist (start_of a) c = dist (start_of a') c'.
Proof.
  intros Ha Hc. geo_fields Ha. geo_fields Hc.
  unfold dist, start_of, points_of, distToRect.
  now rewrite Hx, Hy, Hwidth, Hheight, Hpoints, Hx0, Hy0, Hwidth0, Hheight0.
Qed.

Lemma dist_end_geo a a' c c' :
  geo a = geo a' -> geo c = geo c' -> dist (end_of a) c = dist (end_of a') c'.
Proof.
  intros Ha Hc. geo_fields Ha. geo_fields Hc.
  unfold dist, end_of, points_of, distToRect.
  now rewrite Hx, Hy, Hwidth, Hheight, Hpoints, Hx0, Hy0, Hwidth0, Hheight0.
Qed.

Lemma within_start_geo a a' c c' :
  geo a = geo a' -> geo c = geo c' -> within (start_of a) c = within (start_of a') c'.
Proof. intros Ha Hc. unfold within. now rewrite (dist_start_geo a a' c c'). Qed.

Lemma within_end_geo a a' c c' :
  geo a = geo a' -> geo c = geo c' -> within (end_of a) c = within (end_of a') c'.
Proof. intros Ha Hc. unfold within. now rewrite (dist_end_geo a a' c c'). Qed.

Lemma type_in_geo types a b : geo a = geo b -> type_in types a = type_in types b.
Proof. intros H. geo_fields H. unfold type_in. now rewrite Htype. Qed.

Lemma settled_transfer (l l' : list element) :
  settled l ->
  (forall b, b ∈ l' -> exists a, a ∈ l /\ core a = core b) ->
  settled l'.
Proof.
  intros [S1 S2 S3 S4] Hcov.
  assert (Hsplit : forall a b, core a = core b ->
            geo a = geo b /\ startBinding a = startBinding b
            /\ endBinding a = endBinding b /\ boundElements a = boundElements b).
  { intros a b H. unfold core in H. split_ands.
    - exact (f_equal (fun t => fst (fst (fst t))) H).
    - exact (f_equal (fun t => snd (fst (fst t))) H).
    - exact (f_equal (fun t => snd (fst t)) H).
    - exact (f_equal snd H). }
  constructor.
  - intros a' c' Ha' Hc' Harr Hnone Hty Hne.
    destruct (Hcov a' Ha') as (a & Ha & (Hga & Hsa & _)%Hsplit).
    destruct (Hcov c' Hc') as (c & Hc & (Hgc & _)%Hsplit).
    rewrite <- (within_start_geo a a' c c' Hga Hgc). apply S1; try assumption.
    + now rewrite (is_arrow_geo a a').
    + now rewrite Hsa.
    + now rewrite (type_in_geo _ c c').
    + now rewrite (id_geo c c'), (id_geo a a').
  - intros a' c' Ha' Hc' Harr Hnone Hty Hne Hne2.
    destruct (Hcov a' Ha') as (a & Ha & (Hga & Hsa & Hea & _)%Hsplit).
    destruct (Hcov c' Hc') as (c & Hc & (Hgc & _)%Hsplit).
    rewrite <- (within_end_geo a a' c c' Hga Hgc). apply S2; try assumption.
    + now rewrite (is_arrow_geo a a').
    + now rewrite Hea.
    + now rewrite (type_in_geo _ c c').
    + now rewrite (id_geo c c'), (id_geo a a').
    + now rewrite (id_geo c c'), Hsa.
  - intros a' el' s Ha' Hel' Harr Hs Hid.
    destruct (Hcov a' Ha') as (a & Ha & (Hga & Hsa & _)%Hsplit).
    destruct (Hcov el' Hel') as (el & Hel & (Hgel & _ & _ & Hbel)%Hsplit).
    unfold has_ref. rewrite <- Hbel, <- (id_geo a a' Hga). apply (S3 a el s); try assumption.
    + now rewrite (is_arrow_geo a a').
    + now rewrite Hsa.
    + now rewrite (id_geo el el').
  - intros a' el' e Ha' Hel' Harr He Hne Hid.
    destruct (Hcov a' Ha') as (a & Ha & (Hga & Hsa & Hea & _)%Hsplit).
    destruct (Hcov el' Hel') as (el & Hel & (Hgel & _ & _ & Hbel)%Hsplit).
    unfold has_ref. rewrite <- Hbel, <- (id_geo a a' Hga). apply (S4 a el e); try assumption.
    + now rewrite (is_arrow_geo a a').
    + now rewrite Hea.
    + now rewrite Hsa.
    + now rewrite (id_geo el el').
Qed.

(** An end stays unbound when every eligible shape is out of reach. *)
Lemma chosen_start_far bindable a :
  startBinding a = None ->
  (forall c, c ∈ bindable -> neq_id (id c) (id a) = true -> within (start_of a) c = false) ->
  chosen_start bindable a = None.
Proof.
  intros Hnone Hfar. unfold chosen_start. rewrite Hnone.
  destruct (0 <? length bindable)%nat; [|reflexivity].
  apply bind_to_closest_far. intros c [Hne Hc]%elem_of_filter_bool. now apply Hfar.
Qed.

Lemma chosen_end_far bindable a startB :
  endBinding a = None ->
  (forall c, c ∈ bindable -> neq_id (id c) (id a) = true ->
             neq_id (id c) (elementId_of startB) = true -> within (end_of a) c = false) ->
  chosen_end bindable a startB = None.
Proof.
  intros Hnone Hfar. unfold chosen_end. rewrite Hnone.
  destruct (0 <? length bindable)%nat; [|reflexivity].
  apply bind_to_closest_far.
  intros c [[Hne Hne2]%andb_true_iff Hc]%elem_of_filter_bool. now apply Hfar.
Qed.

(** When the distances are numbers, an end that stays unbound has every
    eligible shape out of reach. *)
Lemma chosen_start_None bindable a :
  measurable bindable (start_of a) ->
  chosen_start bindable a = None ->
  forall c, c ∈ bindable -> neq_id (id c) (id a) = true -> within (start_of a) c = false.
Proof.
  intros Hnum. unfold chosen_start. destruct (startBinding a) as [s|]; [discriminate|].
  destruct bindable as [|b bindable'] eqn:Hb; [intros _ c Hc; inversion Hc|].
  cbn [length Nat.ltb Nat.leb]. intros Hnone c Hc Hne.
  apply (bind_to_closest_None _ _ (fun c' Hc' => Hnum c' (proj2 (proj1 (elem_of_filter_bool _ _ _) Hc')))
           Hnone).
  apply elem_of_filter_bool. now split.
Qed.

Lemma chosen_end_None bindable a startB :
  measurable bindable (end_of a) ->
  chosen_end bindable a startB = None ->
  forall c, c ∈ bindable -> neq_id (id c) (id a) = true ->
            neq_id (id c) (elementId_of startB) = true -> within (end_of a) c = false.
Proof.
  intros Hnum. unfold chosen_end. destruct (endBinding a) as [e|]; [discriminate|].
  destruct bindable as [|b bindable'] eqn:Hb; [intros _ c Hc; inversion Hc|].
  cbn [length Nat.ltb Nat.leb]. intros Hnone c Hc Hne Hne2.
  apply (bind_to_closest_None _ _ (fun c' Hc' => Hnum c' (proj2 (proj1 (elem_of_filter_bool _ _ _) Hc')))
           Hnone).
  apply elem_of_filter_bool. split; [now rewrite Hne, Hne2 | exact Hc].
Qed.

Lemma forallb_elem {A} (P : A -> bool) (l : list A) :
  forallb P l = true <-> forall a, a ∈ l -> P a = true.
Proof.
  rewrite forallb_forall. split; intros Hall a Ha; apply Hall; now apply list_elem_of_In.
Qed.

Lemma numeric_spec (l : list element) :
  numeric l = true <->
  forall a c, a ∈ l -> c ∈ l -> is_arrow_or_line a = true -> type_in BINDABLE_SHAPES c = true ->
              is_nan (dist (start_of a) c) = false /\ is_nan (dist (end_of a) c) = false.
Proof.
  unfold numeric. rewrite forallb_elem. split.
  - intros Hall a c Ha Hc Harr Hty. specialize (Hall a Ha). rewrite Harr in Hall. simpl in Hall.
    rewrite forallb_elem in Hall. specialize (Hall c Hc). rewrite Hty in Hall. simpl in Hall.
    apply andb_true_iff in Hall as [H1 H2]. now apply negb_true_iff in H1, H2.
  - intros Hall a Ha. destruct (is_arrow_or_line a) eqn:Harr; [|reflexivity]. simpl.
    apply forallb_elem. intros c Hc. destruct (type_in BINDABLE_SHAPES c) eqn:Hty; [|reflexivity].
    simpl. destruct (Hall a c Ha Hc Harr Hty) as [-> ->]. reflexivity.
Qed.

Lemma chosen_start_Some bindable a s : startBinding a = Some s -> chosen_start bindable a = Some s.
Proof. intros H. unfold chosen_start. now rewrite H. Qed.

Lemma chosen_end_Some bindable a startB e :
  endBinding a = Some e -> chosen_end bindable a startB = Some e.
Proof. intros H. unfold chosen_end. now rewrite H. Qed.

Lemma ensureArrowBindings_eq (els : list element) :
  let bindable := filter (type_in BINDABLE_SHAPES) els in
  ensureArrowBindings els
  = List.map (fun el => add_bound (snd (bind_arrows bindable els ∅)) (bound_element bindable el)) els.
Proof.
  intros bindable. unfold ensureArrowBindings. fold bindable.
  pose proof (fst_bind_arrows bindable els ∅) as Hfst.
  destruct (bind_arrows bindable els ∅) as [result bu]. simpl in Hfst. subst result.
  simpl. now rewrite List.map_map.
Qed.

Lemma bound_element_fields bindable el :
  geo (bound_element bindable el) = geo el
  /\ boundElements (bound_element bindable el) = boundElements el
  /\ roughness (bound_element bindable el) = roughness el
  /\ startArrowhead (bound_element bindable el) = startArrowhead el
  /\ endArrowhead (bound_element bindable el) = endArrowhead el
  /\ groupIds (bound_element bindable el) = groupIds el.
Proof. unfold bound_element. destruct (negb _); split_ands; reflexivity. Qed.

Lemma add_bound_fields bu el :
  geo (add_bound bu el) = geo el
  /\ roughness (add_bound bu el) = roughness el
  /\ startArrowhead (add_bound bu el) = startArrowhead el
  /\ endArrowhead (add_bound bu el) = endArrowhead el
  /\ groupIds (add_bound bu el) = groupIds el.
Proof. unfold add_bound. destruct (bu !! id el); split_ands; reflexivity. Qed.

Lemma elem_of_map {A B} (f : A -> B) (l : list A) (b : B) :
  b ∈ List.map f l <-> exists a, a ∈ l /\ b = f a.
Proof.
  rewrite list_elem_of_In, in_map_iff. split; intros (a & H1 & H2); exists a.
  - split; [now apply list_elem_of_In | now symmetry].
  - split; [now symmetry | now apply list_elem_of_In].
Qed.

Lemma bound_element_arrow bindable a :
  is_arrow_or_line a = true ->
  startBinding (bound_element bindable a) = chosen_start bindable a
  /\ endBinding (bound_element bindable a)
     = chosen_end bindable a (chosen_start bindable a).
Proof. intros Harr. unfold bound_element. rewrite Harr. now split. Qed.

Lemma bound_element_shape bindable c :
  is_arrow_or_line c = false -> bound_element bindable c = c.
Proof. intros H. unfold bound_element. now rewrite H. Qed.

Lemma bindable_not_arrow c : type_in BINDABLE_SHAPES c = true -> is_arrow_or_line c = false.
Proof. intros H. now apply (type_in_container c). Qed.

Lemma add_bound_recorded bu el i :
  has_entry bu (id el) i -> has_ref (add_bound bu el) i.
Proof.
  intros (add & Hadd & r & Hr & Hi). unfold add_bound, has_ref. rewrite Hadd. simpl.
  eexists. split; [reflexivity|].
  destruct (merge_refs_has (default [] (boundElements el)) add r Hr) as (r' & Hr' & Hi').
  exists r'. split; [exact Hr' | congruence].
Qed.

(** The back-references are recorded whatever the distances are. *)
Lemma ensureArrowBindings_recorded (els : list element) (a el : element) :
  a ∈ ensureArrowBindings els -> el ∈ ensureArrowBindings els ->
  is_arrow_or_line a = true ->
  (forall s, startBinding a = Some s -> id el = elementId s -> has_ref el (id a))
  /\ (forall e, endBinding a = Some e ->
        neq_id (elementId e) (elementId_of (startBinding a)) = true ->
        id el = elementId e -> has_ref el (id a)).
Proof.
  rewrite ensureArrowBindings_eq. cbv zeta.
  set (bindable := filter (type_in BINDABLE_SHAPES) els).
  set (bu := snd (bind_arrows bindable els ∅)).
  set (f := fun el => add_bound bu (bound_element bindable el)).
  assert (Hgeo : forall e, geo (f e) = geo e).
  { intros e. unfold f. rewrite (proj1 (add_bound_fields _ _)).
    apply (proj1 (bound_element_fields _ _)). }
  assert (Hbind : forall e, is_arrow_or_line e = true ->
             startBinding (f e) = chosen_start bindable e
             /\ endBinding (f e) = chosen_end bindable e (chosen_start bindable e)).
  { intros e He. unfold f.
    destruct (add_bound_bindings bu (bound_element bindable e)) as (-> & -> & _).
    now apply bound_element_arrow. }
  assert (Hrec : forall a e k, a ∈ els -> is_arrow_or_line a = true -> noted bindable a k ->
             id e = k -> has_ref (f e) (id (f a))).
  { intros a0 e k Ha Harr Hnoted Hk. rewrite (id_geo _ _ (Hgeo a0)). unfold f.
    apply add_bound_recorded. rewrite (id_geo _ _ (proj1 (bound_element_fields bindable e))), Hk.
    now apply bind_arrows_complete. }
  intros (a0 & Ha & ->)%elem_of_map (el0 & Hel & ->)%elem_of_map Harr.
  rewrite (is_arrow_geo _ _ (Hgeo a0)) in Harr. split.
  - intros s Hs Hid. rewrite (proj1 (Hbind a0 Harr)) in Hs. rewrite (id_geo _ _ (Hgeo el0)) in Hid.
    apply (Hrec a0 el0 (elementId s) Ha Harr); [|exact Hid]. left. now exists s.
  - intros e He Hne Hid.
    rewrite (proj2 (Hbind a0 Harr)) in He. rewrite (proj1 (Hbind a0 Harr)) in Hne.
    rewrite (id_geo _ _ (Hgeo el0)) in Hid.
    apply (Hrec a0 el0 (elementId e) Ha Harr); [|exact Hid]. right. now exists e.
Qed.

(** After the binding pass nothing is left to bind or to record, when the
    distances are numbers. *)
Lemma ensureArrowBindings_settled (els : list element) :
  numeric els = true -> settled (ensureArrowBindings els).
Proof.
  intros Hnum0. pose proof (proj1 (numeric_spec els) Hnum0) as Hnum. clear Hnum0.
  pose proof (ensureArrowBindings_recorded els) as Hrecorded.
  rewrite ensureArrowBindings_eq in *. cbv zeta in *.
  set (bindable := filter (type_in BINDABLE_SHAPES) els) in *.
  set (bu := snd (bind_arrows bindable els ∅)) in *.
  set (f := fun el => add_bound bu (bound_element bindable el)) in *.
  assert (Hgeo : forall e, geo (f e) = geo e).
  { intros e. unfold f. rewrite (proj1 (add_bound_fields _ _)).
    apply (proj1 (bound_element_fields _ _)). }
  assert (Hbind : forall e, is_arrow_or_line e = true ->
             startBinding (f e) = chosen_start bindable e
             /\ endBinding (f e) = chosen_end bindable e (chosen_start bindable e)).
  { intros e He. unfold f.
    destruct (add_bound_bindings bu (bound_element bindable e)) as (-> & -> & _).
    now apply bound_element_arrow. }
  assert (Hms : forall a, a ∈ els -> is_arrow_or_line a = true ->
             measurable bindable (start_of a) /\ measurable bindable (end_of a)).
  { intros a Ha Harr. split; intros c [Hty Hc]%elem_of_filter_bool;
      now destruct (Hnum a c Ha Hc Harr Hty). }
  constructor.
  - intros a' c' (a & Ha & ->)%elem_of_map (c & Hc & ->)%elem_of_map Harr Hnone Hty Hne.
    rewrite (is_arrow_geo _ _ (Hgeo a)) in Harr.
    rewrite (type_in_geo _ _ _ (Hgeo c)) in Hty.
    rewrite (id_geo _ _ (Hgeo a)), (id_geo _ _ (Hgeo c)) in Hne.
    rewrite (within_start_geo _ a _ c (Hgeo a) (Hgeo c)).
    rewrite (proj1 (Hbind a Harr)) in Hnone.
    apply (chosen_start_None bindable a (proj1 (Hms a Ha Harr)) Hnone); [|exact Hne].
    apply elem_of_filter_bool. now split.
  - intros a' c' (a & Ha & ->)%elem_of_map (c & Hc & ->)%elem_of_map Harr Hnone Hty Hne Hne2.
    rewrite (is_arrow_geo _ _ (Hgeo a)) in Harr.
    rewrite (type_in_geo _ _ _ (Hgeo c)) in Hty.
    rewrite (id_geo _ _ (Hgeo a)), (id_geo _ _ (Hgeo c)) in Hne.
    rewrite (id_geo _ _ (Hgeo c)), (proj1 (Hbind a Harr)) in Hne2.
    rewrite (within_end_geo _ a _ c (Hgeo a) (Hgeo c)).
    rewrite (proj2 (Hbind a Harr)) in Hnone.
    apply (chosen_end_None bindable a _ (proj2 (Hms a Ha Harr)) Hnone); [|exact Hne|exact Hne2].
    apply elem_of_filter_bool. now split.
  - intros a el s Ha Hel Harr. now apply (Hrecorded a el Ha Hel Harr).
  - intros a el e Ha Hel Harr. now apply (Hrecorded a el Ha Hel Harr).
Qed.

Lemma map_fixed {A} (f : A -> A) (l : list A) :
  (forall a, a ∈ l -> f a = a) -> List.map f l = l.
Proof.
  induction l as [|a l IH]; intros Hf; [reflexivity|]. simpl.
  rewrite (Hf a) by now left. rewrite IH; [reflexivity|]. intros b Hb. apply Hf. now right.
Qed.

(** On such a scene the binding pass changes nothing. *)
Lemma ensureArrowBindings_fixpoint (l : list element) :
  settled l -> ensureArrowBindings l = l.
Proof.
  intros [S1 S2 S3 S4]. rewrite ensureArrowBindings_eq. cbv zeta.
  set (bindable := filter (type_in BINDABLE_SHAPES) l).
  set (bu := snd (bind_arrows bindable l ∅)).
  assert (Hstart : forall a, a ∈ l -> is_arrow_or_line a = true ->
             chosen_start bindable a = startBinding a).
  { intros a Ha Harr. destruct (startBinding a) as [s|] eqn:Hs.
    - now apply chosen_start_Some.
    - apply chosen_start_far; [exact Hs|].
      intros c [Hty Hc]%elem_of_filter_bool Hne. now apply (S1 a c). }
  assert (Hend : forall a, a ∈ l -> is_arrow_or_line a = true ->
             chosen_end bindable a (chosen_start bindable a) = endBinding a).
  { intros a Ha Harr. rewrite (Hstart a Ha Harr). destruct (endBinding a) as [e|] eqn:He.
    - now apply chosen_end_Some.
    - apply chosen_end_far; [exact He|].
      intros c [Hty Hc]%elem_of_filter_bool Hne Hne2. now apply (S2 a c). }
  assert (Hbound : forall a, a ∈ l -> bound_element bindable a = a).
  { intros a Ha. unfold bound_element. destruct (is_arrow_or_line a) eqn:Harr; [|reflexivity].
    cbn [negb]. rewrite (Hend a Ha Harr), (Hstart a Ha Harr). now destruct a. }
  assert (Hok : entries_ok
                  (fun k r => exists a, a ∈ l /\ is_arrow_or_line a = true
                                        /\ ref_id r = id a /\ noted bindable a k) bu).
  { apply bind_arrows_ok.
    - intros k add Hk. rewrite lookup_empty in Hk. discriminate.
    - intros a k Ha Harr Hnoted. now exists a. }
  apply map_fixed. intros el Hel. rewrite (Hbound el Hel). unfold add_bound.
  destruct (bu !! id el) as [add|] eqn:Hadd; [|reflexivity].
  destruct (Hok (id el) add Hadd) as [Hne Hjust].
  assert (Href : forall r, r ∈ add -> has_ref el (ref_id r)).
  { intros r Hr. destruct (Hjust r Hr) as (a & Ha & Harr & -> & Hnoted).
    unfold noted in Hnoted. cbv zeta in Hnoted.
    rewrite (Hend a Ha Harr), (Hstart a Ha Harr) in Hnoted.
    destruct Hnoted as [(s & Hs & Hk)|(e & He & Hk & Hne2)].
    - now apply (S3 a el s).
    - now apply (S4 a el e). }
  destruct add as [|r0 add']; [congruence|].
  destruct (Href r0 ltac:(now left)) as (be & Hbe & _).
  rewrite Hbe. change (default [] (Some be)) with be. rewrite merge_refs_present.
  - destruct el. simpl in *. now subst.
  - intros r Hr. destruct (Href r Hr) as (be' & Hbe' & r' & Hr' & Hi).
    rewrite Hbe in Hbe'. injection Hbe' as <-. now exists r'.
Qed.

(** *** The clusters of the grouping pass *)

Lemma index_by_id_snoc (l : list element) (x : element) :
  index_by_id (l ++ [x]) = <[ id x := length l ]> (index_by_id l).
Proof.
  unfold index_by_id. rewrite imap_app, fold_left_app. simpl.
  now rewrite Nat.add_0_r.
Qed.

Lemma index_by_id_lookup (l : list element) (idx : nat) (a : element) :
  NoDup (List.map id l) -> l !! idx = Some a -> index_by_id l !! id a = Some idx.
Proof.
  induction l as [|x l IH] using rev_ind; intros Hnd Ha; [discriminate Ha|].
  rewrite index_by_id_snoc. rewrite List.map_app in Hnd. simpl in Hnd.
  apply NoDup_app in Hnd as (Hnd & Hx & _).
  destruct (decide (idx < length l)%nat) as [Hlt|Hge].
  - rewrite lookup_app_l in Ha by exact Hlt.
    rewrite lookup_insert_ne; [now apply IH|].
    intros Heq. apply (Hx (id a)).
    + apply elem_of_map. exists a. split; [eapply list_elem_of_lookup_2, Ha | reflexivity].
    + rewrite <- Heq. now left.
  - pose proof (lookup_lt_Some _ _ _ Ha) as Hlen. rewrite length_app in Hlen. simpl in Hlen.
    assert (idx = length l) as -> by lia.
    rewrite lookup_app_r, Nat.sub_diag in Ha by lia. injection Ha as <-.
    apply lookup_insert_eq.
Qed.

Lemma has_bounds_not_pseudo c :
  type_in HAS_BOUNDS c = true -> type_in PSEUDO_TYPES c = false.
Proof.
  unfold type_in. intros Ht%bool_decide_eq_true. unfold HAS_BOUNDS in Ht.
  repeat (apply elem_of_cons in Ht as [-> | Ht]); [| | | | | |inversion Ht]; reflexivity.
Qed.

Lemma index_by_id_Some (l : list element) (i : option string) (idx : nat) :
  index_by_id l !! i = Some idx -> exists a, l !! idx = Some a /\ id a = i.
Proof.
  induction l as [|x l IH] using rev_ind; [intros H; cbv [index_by_id imap fold_left] in H;
    now rewrite lookup_empty in H|].
  rewrite index_by_id_snoc. destruct (decide (id x = i)) as [<-|Hne].
  - rewrite lookup_insert_eq. intros [= <-]. exists x. split; [|reflexivity].
    rewrite lookup_app_r by lia. now rewrite Nat.sub_diag.
  - rewrite lookup_insert_ne by exact Hne. intros H. destruct (IH H) as (a & Ha & Hi).
    exists a. split; [|exact Hi]. rewrite lookup_app_l; [exact Ha|]. eapply lookup_lt_Some, Ha.
Qed.

Lemma tag_member_tagged resultById (g : string) (result : list element) (el : element) :
  tag_member resultById g result el
  = match resultById !! id el with
    | Some idx =>
        match result !! idx with
        | Some r => <[ idx := tagged g r ]> result
        | None => result
        end
    | None => result
    end.
Proof.
  unfold tag_member, tagged. destruct (resultById !! id el) as [idx|]; [|reflexivity].
  destruct (result !! idx) as [r|] eqn:Hr; [|reflexivity].
  case_bool_decide; [|reflexivity]. symmetry. now apply list_insert_id.
Qed.

Lemma tagged_idem (g : string) (b : element) : tagged g (tagged g b) = tagged g b.
Proof.
  unfold tagged. destruct (bool_decide (g ∈ default [] (groupIds b))) eqn:H.
  - now rewrite H.
  - simpl. rewrite bool_decide_eq_true_2; [reflexivity|]. apply elem_of_app. right. now left.
Qed.

Lemma tagged_same (g : string) (b : element) : same_but_groups b (tagged g b).
Proof.
  unfold tagged. case_bool_decide; [apply same_but_groups_refl|].
  apply same_but_groups_set, same_but_groups_refl.
Qed.

(** Tagging a member touches the entry its id is filed under, and no
    other. *)
Lemma tag_member_lookup resultById (g : string) (result : list element) (el : element)
    (j : nat) :
  tag_member resultById g result el !! j
  = (if bool_decide (resultById !! id el = Some j) then tagged g else fun b => b)
      <$> result !! j.
Proof.
  rewrite tag_member_tagged. destruct (resultById !! id el) as [idx|].
  - destruct (decide (idx = j)) as [->|Hne].
    + rewrite bool_decide_eq_true_2 by reflexivity.
      destruct (result !! j) as [r|] eqn:Hr; [|now rewrite Hr].
      rewrite list_lookup_insert_eq by (eapply lookup_lt_Some, Hr). reflexivity.
    + rewrite bool_decide_eq_false_2 by congruence.
      destruct (result !! idx) as [r|].
      * rewrite list_lookup_insert_ne by exact Hne. now destruct (result !! j).
      * now destruct (result !! j).
  - rewrite bool_decide_eq_false_2 by discriminate. now destruct (result !! j).
Qed.

Lemma fold_tag_member_lookup resultById (g : string) (members result : list element)
    (j : nat) :
  fold_left (tag_member resultById g) members result !! j
  = (if existsb (fun m => bool_decide (resultById !! id m = Some j)) members
     then tagged g else fun b => b) <$> result !! j.
Proof.
  revert result. induction members as [|m members IH]; intros result; simpl.
  - now destruct (result !! j).
  - rewrite IH, tag_member_lookup.
    destruct (result !! j) as [r|]; [|now destruct (bool_decide _), (existsb _ _)].
    destruct (bool_decide _), (existsb _ _); simpl; try reflexivity.
    now rewrite tagged_idem.
Qed.

Lemma length_fold_tag_member resultById (g : string) (members result : list element) :
  length (fold_left (tag_member resultById g) members result) = length result.
Proof.
  revert result. induction members as [|m members IH]; intros result; simpl; [reflexivity|].
  rewrite IH, tag_member_tagged. destruct (resultById !! id m) as [idx|]; [|reflexivity].
  destruct (result !! idx); [apply length_insert | reflexivity].
Qed.

(** Holding, read on the bounds the passes compute. *)
Lemma holds_by_bounds (p c : element) :
  holds p c
  = type_in CONTAINER_SHAPES p && type_in HAS_BOUNDS c && neq_id (id c) (id p)
    && match elementBounds p with
       | Some pb => inside_of pb c
       | None => false
       end.
Proof.
  unfold holds, boxed, inside_of, elementBounds, isFullyInside, type_in, neq_id,
    CONTAINER_SHAPES, HAS_BOUNDS.
  destruct (bool_decide (type p ∈ _)); [|reflexivity].
  destruct (bool_decide (type c ∈ _)); [|reflexivity].
  destruct (bool_decide (id c = id p)); [reflexivity|]. cbn [andb negb].
  destruct (default 0 (width p) <=? 0)%float; [reflexivity|].
  destruct (default 0 (height p) <=? 0)%float; [reflexivity|].
  destruct (default 0 (width c) <=? 0)%float; [reflexivity|].
  destruct (default 0 (height c) <=? 0)%float; [reflexivity|].
  reflexivity.
Qed.

(** The children of a turn are the elements the parent holds. *)
Lemma children_spec (l : list element) (p c : element) (pb : Bounds) :
  type_in CONTAINER_SHAPES p = true -> elementBounds p = Some pb ->
  c ∈ filter (fun c => neq_id (id c) (id p) && inside_of pb c)
        (filter (type_in HAS_BOUNDS) (filter (fun el => negb (type_in PSEUDO_TYPES el)) l))
  <-> c ∈ l /\ holds p c = true.
Proof.
  intros Htp Hpb. rewrite holds_by_bounds, Htp, Hpb, !elem_of_filter_bool. split.
  - intros ([Hne Hin]%andb_true_iff & Hb & _ & Hc). split; [exact Hc|]. now rewrite Hb, Hne, Hin.
  - intros (Hc & [[[_ Hb]%andb_true_iff Hne]%andb_true_iff Hin]%andb_true_iff).
    split; [now rewrite Hne, Hin|]. split; [exact Hb|]. split; [|exact Hc].
    now rewrite (has_bounds_not_pseudo c Hb).
Qed.

Lemma leads_spec (l : list element) (p : element) :
  leads l p = true <-> exists c, c ∈ l /\ holds p c = true.
Proof. apply existsb_elem. Qed.

Lemma holds_bounds (p c : element) : holds p c = true -> exists pb, elementBounds p = Some pb.
Proof.
  rewrite holds_by_bounds.
  destruct (elementBounds p) as [pb|]; [now exists pb | now rewrite andb_false_r].
Qed.

(** With distinct ids, the entries tagged at the turn of [p] are the
    cluster of [p]. *)
Lemma hits_cluster (l : list element) (p a : element) (pb : Bounds) (j : nat) :
  NoDup (List.map id l) -> p ∈ l ->
  type_in CONTAINER_SHAPES p = true -> elementBounds p = Some pb ->
  l !! j = Some a ->
  existsb
    (fun m =>
       bool_decide
         (index_by_id (List.map (fun el => set_groupIds (Some (default [] (groupIds el))) el) l)
            !! id m = Some j))
    (p :: filter (fun c => neq_id (id c) (id p) && inside_of pb c)
            (filter (type_in HAS_BOUNDS) (filter (fun el => negb (type_in PSEUDO_TYPES el)) l)))
  = in_cluster p a.
Proof.
  intros Hnd Hp Htp Hpb Ha.
  set (result := List.map (fun el => set_groupIds (Some (default [] (groupIds el))) el) l).
  assert (Hids : List.map id result = List.map id l).
  { subst result. rewrite List.map_map. now apply map_ext. }
  assert (Hndr : NoDup (List.map id result)) by now rewrite Hids.
  assert (Hra : result !! j = Some (set_groupIds (Some (default [] (groupIds a))) a)).
  { subst result. now rewrite lookup_map, Ha. }
  assert (Hal : a ∈ l) by (eapply list_elem_of_lookup_2, Ha).
  assert (Hfile : forall m, m ∈ l -> index_by_id result !! id m = Some j <-> id m = id a).
  { intros m Hm. split.
    - intros (r & Hr & Hi)%index_by_id_Some. rewrite Hra in Hr. injection Hr as <-. now symmetry.
    - intros ->. exact (index_by_id_lookup result j _ Hndr Hra). }
  destruct (in_cluster p a) eqn:Hc.
  - apply existsb_elem. unfold in_cluster in Hc. apply orb_true_iff in Hc as [Hc|Hc].
    + apply bool_decide_eq_true in Hc. exists p. split; [now left|].
      apply bool_decide_eq_true. apply Hfile; [exact Hp | now symmetry].
    + exists a. split.
      * right. apply (children_spec l p a pb Htp Hpb). now split.
      * apply bool_decide_eq_true. now apply Hfile.
  - apply not_true_is_false. intros (m & Hm & Hj)%existsb_elem.
    apply bool_decide_eq_true in Hj. unfold in_cluster in Hc.
    apply orb_false_iff in Hc as [Hc1 Hc2]. apply bool_decide_eq_false in Hc1.
    apply elem_of_cons in Hm as [->|Hm].
    + apply Hc1. symmetry. now apply (Hfile p Hp).
    + apply (children_spec l p m pb Htp Hpb) in Hm as [Hml Hh].
      assert (m = a) as -> by (apply (NoDup_map_inj_elem id l); [assumption..|now apply Hfile]).
      congruence.
Qed.

Lemma regrouped_init randomUUID (n : nat) (a : element) :
  regrouped randomUUID n [] a (set_groupIds (Some (default [] (groupIds a))) a).
Proof.
  split; [apply same_but_groups_set, same_but_groups_refl|]. exists []. split_ands.
  - simpl. now rewrite app_nil_r.
  - intros i Hi. inversion Hi.
  - intros i p Hi. discriminate Hi.
Qed.

Lemma regrouped_refl randomUUID (n : nat) (a : element) : regrouped randomUUID n [] a a.
Proof.
  split; [apply same_but_groups_refl|]. exists []. split_ands.
  - simpl. now rewrite app_nil_r.
  - intros i Hi. inversion Hi.
  - intros i p Hi. discriminate Hi.
Qed.

Lemma regrouped_skip randomUUID (n : nat) (ld : list element) (p a b : element) :
  in_cluster p a = false ->
  regrouped randomUUID n ld a b -> regrouped randomUUID n (ld ++ [p]) a b.
Proof.
  intros Hout (Hsame & turns & Hg & Hturns & Hall). split; [exact Hsame|].
  exists turns. split_ands; [exact Hg | |].
  - intros i Hi. destruct (Hturns i Hi) as (q & Hq & Hc). exists q. split; [|exact Hc].
    now apply lookup_app_l_Some.
  - intros i q Hq Hc. apply lookup_app_Some in Hq as [Hq|[_ Hq]]; [now apply (Hall i q)|].
    apply list_lookup_singleton_Some in Hq as [_ <-]. congruence.
Qed.

Lemma regrouped_tag randomUUID (n : nat) (ld : list element) (p a b : element) :
  in_cluster p a = true ->
  regrouped randomUUID n ld a b ->
  regrouped randomUUID n (ld ++ [p]) a (tagged (randomUUID (n + length ld)%nat) b).
Proof.
  intros Hin (Hsame & turns & Hg & Hturns & Hall).
  assert (Hold : forall i, i ∈ turns -> exists q, (ld ++ [p]) !! i = Some q /\ in_cluster q a = true).
  { intros i Hi. destruct (Hturns i Hi) as (q & Hq & Hc). exists q. split; [|exact Hc].
    now apply lookup_app_l_Some. }
  assert (Hlast : (ld ++ [p]) !! length ld = Some p).
  { rewrite lookup_app_r by lia. now rewrite Nat.sub_diag. }
  split.
  { unfold same_but_groups in *. pose proof (tagged_same (randomUUID (n + length ld)%nat) b) as Ht.
    unfold same_but_groups in Ht. rewrite Ht, Hsame. now destruct a. }
  unfold tagged. case_bool_decide as Hhas.
  - exists turns. split_ands; [exact Hg | exact Hold |].
    intros i q Hq Hc. apply lookup_app_Some in Hq as [Hq|[Hlen Hq]]; [now apply (Hall i q)|].
    apply list_lookup_singleton_Some in Hq as [Hi <-].
    replace i with (length ld) by lia. exact Hhas.
  - exists (turns ++ [length ld]). split_ands.
    + simpl. rewrite Hg, List.map_app. simpl. now rewrite <- app_assoc.
    + intros i [Hi|Hi]%elem_of_app; [now apply Hold|].
      apply list_elem_of_singleton in Hi as ->. now exists p.
    + intros i q Hq Hc. simpl. apply elem_of_app.
      apply lookup_app_Some in Hq as [Hq|[Hlen Hq]]; [left; now apply (Hall i q)|].
      apply list_lookup_singleton_Some in Hq as [Hi <-].
      right. replace i with (length ld) by lia. now left.
Qed.

(** One turn of the outer loop: a container that leads a cluster draws one
    group id and gives it to its cluster; any other container does
    nothing. *)
Lemma group_parent_regroups randomUUID (n : nat) (l ld : list element) (p : element)
    (st : list element * nat) :
  NoDup (List.map id l) -> p ∈ l -> type_in CONTAINER_SHAPES p = true ->
  snd st = (n + length ld)%nat ->
  Forall2 (regrouped randomUUID n ld) l (fst st) ->
  let st' :=
    group_parent randomUUID
      (filter (type_in HAS_BOUNDS) (filter (fun el => negb (type_in PSEUDO_TYPES el)) l))
      (index_by_id (List.map (fun el => set_groupIds (Some (default [] (groupIds el))) el) l))
      st p in
  let ld' := ld ++ (if leads l p then [p] else []) in
  snd st' = (n + length ld')%nat /\ Forall2 (regrouped randomUUID n ld') l (fst st').
Proof.
  intros Hnd Hp Htp Hn Hrel. cbv zeta. unfold group_parent.
  destruct (elementBounds p) as [pb|] eqn:Hpb.
  2:{ assert (leads l p = false) as ->.
      { apply not_true_is_false. intros (c & _ & [pb Hpb']%holds_bounds)%leads_spec. congruence. }
      rewrite app_nil_r. now split. }
  set (children := filter (fun c => neq_id (id c) (id p) && inside_of pb c) _).
  destruct (leads l p) eqn:Hl.
  - apply leads_spec in Hl as (c & Hc & Hh).
    assert (Hcc : c ∈ children) by (apply (children_spec l p c pb Htp Hpb); now split).
    destruct children as [|c0 cs] eqn:Hch; [inversion Hcc|]. rewrite <- Hch. clear Hcc.
    replace (length children =? 0)%nat with false by (rewrite Hch; reflexivity).
    cbn [fst snd]. split; [rewrite length_app; simpl; lia|].
    apply Forall2_same_length_lookup. split.
    + rewrite length_fold_tag_member. exact (Forall2_length _ _ _ Hrel).
    + intros j a b' Ha Hb'. rewrite fold_tag_member_lookup in Hb'.
      subst children. rewrite (hits_cluster l p a pb j Hnd Hp Htp Hpb Ha) in Hb'.
      destruct (Forall2_lookup_l _ _ _ _ _ Hrel Ha) as (b & Hb & Hab).
      rewrite Hb, Hn in Hb'. destruct (in_cluster p a) eqn:Hin.
      * injection Hb' as <-. now apply regrouped_tag.
      * injection Hb' as <-. now apply regrouped_skip.
  - assert (children = []) as ->.
    { destruct children as [|c0 cs] eqn:Hch; [reflexivity|]. exfalso.
      assert (Hcc : c0 ∈ children) by (rewrite Hch; now left).
      apply (children_spec l p c0 pb Htp Hpb) in Hcc as [Hc Hh].
      apply not_true_iff_false in Hl. apply Hl, leads_spec. now exists c0. }
    simpl. rewrite app_nil_r. now split.
Qed.

Lemma fold_group_parent_regroups randomUUID (n : nat) (l rest : list element) :
  NoDup (List.map id l) ->
  (forall p, p ∈ rest -> p ∈ l /\ type_in CONTAINER_SHAPES p = true) ->
  forall (ld : list element) (st : list element * nat),
  snd st = (n + length ld)%nat ->
  Forall2 (regrouped randomUUID n ld) l (fst st) ->
  let st' :=
    fold_left
      (group_parent randomUUID
         (filter (type_in HAS_BOUNDS) (filter (fun el => negb (type_in PSEUDO_TYPES el)) l))
         (index_by_id (List.map (fun el => set_groupIds (Some (default [] (groupIds el))) el) l)))
      rest st in
  snd st' = (n + length (ld ++ filter (leads l) rest))%nat
  /\ Forall2 (regrouped randomUUID n (ld ++ filter (leads l) rest)) l (fst st').
Proof.
  intros Hnd. induction rest as [|p rest IH]; intros Hrest ld st Hn Hrel; cbv zeta.
  - simpl. rewrite app_nil_r. now split.
  - cbn [fold_left]. destruct (Hrest p ltac:(now left)) as [Hp Htp].
    destruct (group_parent_regroups randomUUID n l ld p st Hnd Hp Htp Hn Hrel) as [Hn' Hrel'].
    assert (Hsplit : ld ++ filter (leads l) (p :: rest)
                     = (ld ++ (if leads l p then [p] else [])) ++ filter (leads l) rest).
    { rewrite filter_cons. destruct (leads l p); simpl; [now rewrite <- app_assoc|].
      now rewrite app_nil_r. }
    rewrite Hsplit. apply IH; [|exact Hn' | exact Hrel'].
    intros q Hq. apply Hrest. now right.
Qed.

(** With distinct ids, the grouping pass draws one group id for each
    container that leads a cluster, in the order of [leaders], and appends
    it to the group ids of the cluster. *)
Lemma assignGroupIds_regroups randomUUID (n : nat) (l : list element) :
  NoDup (List.map id l) ->
  let r := assignGroupIdsForNestedShapes randomUUID n l in
  snd r = (n + length (leaders l))%nat
  /\ Forall2 (regrouped randomUUID n (leaders l)) l (fst r).
Proof.
  intros Hnd. cbv zeta. unfold assignGroupIdsForNestedShapes, leaders.
  set (drawable := filter (fun el => negb (type_in PSEUDO_TYPES el)) l).
  set (containers := filter (type_in CONTAINER_SHAPES) drawable).
  set (withBounds := filter (type_in HAS_BOUNDS) drawable).
  destruct ((length containers <? 1)%nat || (length withBounds <? 2)%nat) eqn:Hguard.
  - assert (Hnone : filter (leads l) (stable_sort larger containers) = []).
    { apply filter_nil_iff. intros p Hp%elem_of_stable_sort.
      apply not_true_is_false. intros (c & Hc & Hh)%leads_spec.
      assert (Hpc := Hp). apply elem_of_filter_bool in Hp as [Htp [_ Hpl]%elem_of_filter_bool].
      destruct (type_in_container p Htp) as (Hbp & Hpp & _).
      assert (Hpw : p ∈ withBounds).
      { apply elem_of_filter_bool. split; [exact Hbp|]. apply elem_of_filter_bool.
        split; [now rewrite Hpp | exact Hpl]. }
      assert (Hcw : c ∈ withBounds /\ id c <> id p).
      { rewrite holds_by_bounds in Hh.
        apply andb_true_iff in Hh as [[[_ Hb]%andb_true_iff Hne]%andb_true_iff _].
        split.
        - apply elem_of_filter_bool. split; [exact Hb|]. apply elem_of_filter_bool.
          split; [now rewrite (has_bounds_not_pseudo c Hb) | exact Hc].
        - unfold neq_id in Hne. now apply negb_true_iff, bool_decide_eq_false in Hne. }
      destruct Hcw as [Hcw Hne].
      apply orb_true_iff in Hguard as [Hg|Hg]; apply Nat.ltb_lt in Hg.
      - destruct containers; [inversion Hpc | simpl in Hg; lia].
      - destruct withBounds as [|w1 [|w2 ws]]; [inversion Hpw | | simpl in Hg; lia].
        apply list_elem_of_singleton in Hpw, Hcw. congruence. }
    rewrite Hnone. cbn [fst snd length]. split; [lia|].
    apply Forall_Forall2_diag, Forall_forall. intros a _. apply regrouped_refl.
  - apply (fold_group_parent_regroups randomUUID n l (stable_sort larger containers) Hnd
             ltac:(intros p Hp%elem_of_stable_sort;
                   apply elem_of_filter_bool in Hp as [Htp [_ Hpl]%elem_of_filter_bool];
                   now split) [] (_, n)).
    + simpl. lia.
    + cbn [fst]. clear. induction l as [|a l IH]; simpl; constructor; [|exact IH].
      apply regrouped_init.
Qed.

(** *** The whole pipeline, twice *)

Lemma triangle_if_set_idem a : triangle_if_set (triangle_if_set a) = triangle_if_set a.
Proof.
  destruct a as [s|]; [|reflexivity]. simpl.
  destruct (String.eqb s "none") eqn:Hs; simpl; [now rewrite Hs | reflexivity].
Qed.

Lemma covered_refl l : covered l l.
Proof. intros a Ha. now exists a. Qed.

Lemma covered_trans l1 l2 l3 : covered l1 l2 -> covered l2 l3 -> covered l1 l3.
Proof.
  intros H12 H23 a Ha. destruct (H12 a Ha) as (b & Hb & Hab).
  destruct (H23 b Hb) as (c & Hc & Hbc). exists c. split; [exact Hc | congruence].
Qed.

Lemma covered_map (f : element -> element) l :
  (forall e, geo (f e) = geo e) -> covered l (List.map f l) /\ covered (List.map f l) l.
Proof.
  intros Hf. split.
  - intros a Ha. exists (f a). split; [apply elem_of_map; now exists a | apply Hf].
  - intros b (a & Ha & ->)%elem_of_map. exists a. split; [exact Ha | symmetry; apply Hf].
Qed.

Lemma forceTriangleArrowhead_fields e :
  let e' := if negb (is_arrow_or_line e) then e
            else set_arrowheads (triangle_if_set (startArrowhead e))
                   (triangle_if_set (endArrowhead e)) e in
  core e' = core e /\ roughness e' = roughness e /\ normal_heads e'.
Proof.
  cbv zeta. destruct (is_arrow_or_line e) eqn:Harr; simpl.
  - split_ands; try reflexivity. intros _. simpl. now rewrite !triangle_if_set_idem.
  - split_ands; try reflexivity. intros H. congruence.
Qed.

Lemma same_but_groups_fields a b :
  same_but_groups a b ->
  core b = core a /\ roughness b = roughness a
  /\ startArrowhead b = startArrowhead a /\ endArrowhead b = endArrowhead a.
Proof. unfold same_but_groups. intros ->. split_ands; reflexivity. Qed.

Lemma core_geo a b : core a = core b -> geo a = geo b.
Proof. intros H. exact (f_equal (fun t => fst (fst (fst t))) H). Qed.

(** The distances are those of the [geo] of the elements. *)
Lemma numeric_covered l l' : covered l' l -> numeric l = true -> numeric l' = true.
Proof.
  intros Hcov Hnum. apply numeric_spec. pose proof (proj1 (numeric_spec l) Hnum) as Hall.
  intros a' c' Ha' Hc' Harr Hty.
  destruct (Hcov a' Ha') as (a & Ha & Hga). destruct (Hcov c' Hc') as (c & Hc & Hgc).
  rewrite (dist_start_geo a' a c' c), (dist_end_geo a' a c' c) by (symmetry; assumption).
  apply Hall; try assumption.
  - now rewrite (is_arrow_geo _ _ Hga).
  - now rewrite (type_in_geo _ _ _ Hgc).
Qed.

(** What one run of the pipeline establishes of its output. *)
Lemma normalize_output randomUUID (n : nat) (els : list element) :
  numeric els = true ->
  let out := fst (normalize randomUUID n els) in
  Forall clean out /\ Forall normal_heads out /\ settled out
  /\ covered els out /\ covered out els.
Proof.
  intros Hnum. unfold normalize.
  set (l1 := forceCleanStyle els).
  set (l2 := ensureArrowBindings l1).
  set (l3 := forceTriangleArrowhead l2).
  pose proof (assignGroupIds_extends randomUUID n l3) as H4. cbv zeta in H4.
  destruct (assignGroupIdsForNestedShapes randomUUID n l3) as [l4 n']. cbn [fst snd] in H4. cbn [fst].
  assert (H1 : Forall clean l1).
  { apply Forall_forall. intros b (a & _ & ->)%elem_of_map. reflexivity. }
  assert (G1 : covered els l1 /\ covered l1 els).
  { apply covered_map. intros e. reflexivity. }
  assert (H2 : Forall clean l2).
  { unfold l2. rewrite ensureArrowBindings_eq. cbv zeta. apply Forall_forall.
    intros b (a & Ha & ->)%elem_of_map. unfold clean.
    rewrite (proj1 (proj2 (add_bound_fields _ _))).
    rewrite (proj1 (proj2 (proj2 (bound_element_fields _ _)))).
    exact (proj1 (Forall_forall _ _) H1 a Ha). }
  assert (G2 : covered l1 l2 /\ covered l2 l1).
  { unfold l2. rewrite ensureArrowBindings_eq. cbv zeta. apply covered_map. intros e.
    rewrite (proj1 (add_bound_fields _ _)). apply (proj1 (bound_element_fields _ _)). }
  assert (S2 : settled l2).
  { apply ensureArrowBindings_settled. apply (numeric_covered els); [apply G1 | exact Hnum]. }
  assert (H3 : forall b, b ∈ l3 -> exists a, a ∈ l2 /\ core b = core a
                                            /\ roughness b = roughness a /\ normal_heads b).
  { intros b (a & Ha & ->)%elem_of_map. exists a. split; [exact Ha|].
    apply forceTriangleArrowhead_fields. }
  assert (H5 : forall b, b ∈ l4 -> exists a, a ∈ l2 /\ core b = core a
                                            /\ roughness b = roughness a /\ normal_heads b).
  { intros b Hb. apply list_elem_of_lookup in Hb as [k Hk].
    destruct (Forall2_lookup_r _ _ _ _ _ H4 Hk) as (c & Hc & [Hsame _]).
    destruct (H3 c ltac:(apply list_elem_of_lookup; now exists k)) as (a & Ha & Hcore & Hr & Hn).
    destruct (same_but_groups_fields c b Hsame) as (Hcb & Hrb & Hsb & Heb).
    exists a. split; [exact Ha|]. split; [congruence|]. split; [congruence|].
    intros Harr. rewrite Hsb, Heb. apply Hn.
    now rewrite (is_arrow_geo c b (eq_sym (core_geo _ _ Hcb))). }
  assert (G4 : covered l2 l4 /\ covered l4 l2).
  { split.
    - intros a Ha. unfold l3 in H4.
      apply list_elem_of_lookup in Ha as [k Hk].
      assert (Hk3 : l3 !! k = Some (if negb (is_arrow_or_line a) then a
                                    else set_arrowheads (triangle_if_set (startArrowhead a))
                                           (triangle_if_set (endArrowhead a)) a)).
      { unfold l3, forceTriangleArrowhead. now rewrite lookup_map, Hk. }
      destruct (Forall2_lookup_l _ _ _ _ _ H4 Hk3) as (b & Hb & [Hsame _]).
      exists b. split; [apply list_elem_of_lookup; now exists k|].
      rewrite (same_but_groups_geo _ _ Hsame).
      apply core_geo, (proj1 (forceTriangleArrowhead_fields a)).
    - intros b Hb. destruct (H5 b Hb) as (a & Ha & Hcore & _).
      exists a. split; [exact Ha|]. symmetry. now apply core_geo. }
  assert (Hout : forall b, b ∈ reorderElementsForArrows l4 -> b ∈ l4)
    by (intros b; apply elem_of_reorder).
  split_ands.
  - apply Forall_forall. intros b Hb%Hout. destruct (H5 b Hb) as (a & Ha & _ & Hr & _).
    unfold clean. rewrite Hr. exact (proj1 (Forall_forall _ _) H2 a Ha).
  - apply Forall_forall. intros b Hb%Hout. now destruct (H5 b Hb) as (a & Ha & _ & _ & Hn).
  - apply (settled_transfer l2); [exact S2|]. intros b Hb%Hout.
    destruct (H5 b Hb) as (a & Ha & Hcore & _). exists a. split; [exact Ha | now symmetry].
  - apply (covered_trans _ l1); [apply G1|]. apply (covered_trans _ l2); [apply G2|].
    apply (covered_trans _ l4); [apply G4|].
    intros a Ha. exists a. split; [now apply elem_of_reorder | reflexivity].
  - apply (covered_trans _ l4).
    + intros a Ha%Hout. now exists a.
    + apply (covered_trans _ l2); [apply G4|]. apply (covered_trans _ l1); [apply G2 | apply G1].
Qed.

Lemma classes_disjoint_covered l l' :
  covered l l' -> covered l' l -> classes_disjoint l' = classes_disjoint l.
Proof.
  intros H1 H2. destruct (classes_covered l l' H1 H2) as [Hc Ha].
  unfold classes_disjoint. now rewrite Hc, Ha.
Qed.

(** The passes before the draw order keep every element in its place, with
    its [geo]. *)
Lemma stages_geo (els : list element) :
  List.map geo (forceTriangleArrowhead (ensureArrowBindings (forceCleanStyle els)))
  = List.map geo els.
Proof.
  unfold forceTriangleArrowhead.
  destruct (ensureArrowBindings_map (forceCleanStyle els)) as (bu & ->).
  unfold forceCleanStyle. rewrite !List.map_map. apply map_ext. intros a.
  rewrite (core_geo _ _ (proj1 (forceTriangleArrowhead_fields _))).
  rewrite (proj1 (add_bound_fields _ _)). now rewrite (proj1 (bound_element_fields _ _)).
Qed.

Lemma map_id_geo (l l' : list element) :
  List.map geo l = List.map geo l' -> List.map id l = List.map id l'.
Proof.
  intros H.
  apply (f_equal (List.map (fun g : _ * option string * float * float * option float
                                    * option float * option ((float * float) * list (float * float))
                            => snd (fst (fst (fst (fst (fst g)))))))) in H.
  rewrite !List.map_map in H. exact H.
Qed.

Lemma Forall2_map_geo (P : element -> element -> Prop) l l' :
  (forall a b, P a b -> geo b = geo a) -> Forall2 P l l' -> List.map geo l' = List.map geo l.
Proof.
  intros HP. induction 1 as [|a b l l' Hab _ IH]; [reflexivity|].
  simpl. now rewrite IH, (HP a b Hab).
Qed.

Lemma map_geo_covered (l l' : list element) :
  List.map geo l = List.map geo l' -> covered l l'.
Proof.
  intros Hg a [k Hk]%list_elem_of_lookup.
  assert (Hk' : List.map geo l' !! k = Some (geo a)) by now rewrite <- Hg, lookup_map, Hk.
  rewrite lookup_map in Hk'. destruct (l' !! k) as [b|] eqn:Hb; [|discriminate].
  exists b. split; [eapply list_elem_of_lookup_2, Hb|].
  exact (f_equal (default (geo a)) Hk').
Qed.

Lemma holds_geo p p' c c' : geo p = geo p' -> geo c = geo c' -> holds p c = holds p' c'.
Proof.
  intros Hp Hc. rewrite !holds_by_bounds. unfold inside_of, type_in.
  rewrite (elementBounds_geo _ _ Hp), (elementBounds_geo _ _ Hc).
  geo_fields Hp. geo_fields Hc. now rewrite Htype, Hid, Htype0, Hid0.
Qed.

Lemma in_cluster_geo p p' a a' :
  geo p = geo p' -> geo a = geo a' -> in_cluster p a = in_cluster p' a'.
Proof.
  intros Hp Ha. unfold in_cluster.
  now rewrite (holds_geo p p' a a' Hp Ha), (id_geo _ _ Hp), (id_geo _ _ Ha).
Qed.

Lemma leads_covered l l' p p' :
  covered l l' -> geo p' = geo p -> leads l p = true -> leads l' p' = true.
Proof.
  intros Hcov Hp (c & Hc & Hh)%leads_spec. apply leads_spec.
  destruct (Hcov c Hc) as (c' & Hc' & Hg). exists c'. split; [exact Hc'|].
  now rewrite (holds_geo p' p c' c).
Qed.

Lemma leads_covered_eq l l' p p' :
  covered l l' -> covered l' l -> geo p' = geo p -> leads l' p' = leads l p.
Proof.
  intros H1 H2 Hp. destruct (leads l p) eqn:Hl.
  - now apply (leads_covered l l' p p').
  - apply not_true_is_false. intros Hl'. apply not_true_iff_false in Hl. apply Hl.
    now apply (leads_covered l' l p' p).
Qed.

Lemma leads_container l p : leads l p = true -> type_in CONTAINER_SHAPES p = true.
Proof.
  intros (c & _ & Hh)%leads_spec. rewrite holds_by_bounds in Hh.
  now apply andb_true_iff in Hh as [[[Ht _]%andb_true_iff _]%andb_true_iff _].
Qed.

Lemma elem_of_leaders l p : p ∈ leaders l <-> p ∈ l /\ leads l p = true.
Proof.
  unfold leaders. rewrite elem_of_filter_bool, elem_of_stable_sort, !elem_of_filter_bool. split.
  - intros (Hl & Ht & _ & Hp). now split.
  - intros (Hp & Hl). pose proof (leads_container l p Hl) as Ht.
    split; [exact Hl|]. split; [exact Ht|]. split; [|exact Hp].
    destruct (type_in_container p Ht) as (_ & Hpp & _). now rewrite Hpp.
Qed.

Lemma NoDup_of_map {A B} (f : A -> B) (l : list A) : NoDup (List.map f l) -> NoDup l.
Proof.
  induction l as [|a l IH]; simpl; [constructor|]. rewrite !NoDup_cons. intros [Ha Hnd].
  split; [|now apply IH]. intros Hin. apply Ha. apply elem_of_map. now exists a.
Qed.

Lemma NoDup_leaders l : NoDup (List.map id l) -> NoDup (leaders l).
Proof.
  intros Hnd%NoDup_of_map. unfold leaders. apply NoDup_filter. rewrite stable_sort_perm.
  now apply NoDup_filter, NoDup_filter.
Qed.

Lemma length_leaders l :
  length (leaders l)
  = length (filter (leads l)
              (filter (type_in CONTAINER_SHAPES)
                 (filter (fun el => negb (type_in PSEUDO_TYPES el)) l))).
Proof. unfold leaders. now rewrite stable_sort_perm. Qed.

Lemma length_leaders_perm l l' : l ≡ₚ l' -> length (leaders l) = length (leaders l').
Proof.
  intros Hperm. rewrite !length_leaders.
  rewrite (filter_ext_elem (leads l) (leads l')).
  - now rewrite Hperm.
  - intros p _. apply leads_covered_eq; [| |reflexivity]; intros a Ha; exists a;
      (split; [|reflexivity]); [now rewrite Hperm | now rewrite <- Hperm].
Qed.

Lemma length_leaders_geo (l l' : list element) :
  List.map geo l' = List.map geo l -> length (leaders l) = length (leaders l').
Proof.
  intros Hg. rewrite !length_leaders.
  assert (Hrel : Forall2 (fun a b => geo b = geo a) l l').
  { clear -Hg. revert l' Hg. induction l as [|a l IH]; intros [|b l'] Hg; try discriminate.
    - constructor.
    - simpl in Hg. constructor.
      + exact (f_equal (fun t => default (geo a) (head t)) Hg).
      + apply IH. exact (f_equal (@tail _) Hg). }
  pose proof (map_geo_covered l' l Hg) as Hc1.
  pose proof (map_geo_covered l l' (eq_sym Hg)) as Hc2.
  eapply Forall2_length. repeat apply Forall2_filter_bool; [| | |exact Hrel].
  - intros a b Hab. symmetry. now apply leads_covered_eq.
  - intros a b Hab. now apply type_in_geo.
  - intros a b Hab. now rewrite (type_in_geo PSEUDO_TYPES a b).
Qed.

Lemma regrouped_same randomUUID (n : nat) (ld : list element) (a b : element) :
  regrouped randomUUID n ld a b -> geo b = geo a.
Proof. intros [Hsame _]. now apply same_but_groups_geo. Qed.

(** C4 (as amended). Take a scene with distinct ids, where no id is in two
    of the sets of the draw order and every distance between an end of an
    arrow and a bindable shape is a number. A second run of the pipeline on
    the output of a first run gives the same elements in the same order,
    with the same bindings and back-references. It forms the same groups,
    but under new group ids. The clusters are the shapes that hold some
    element, each with what it holds; the runs visit them in some order.
    Both runs draw exactly one group id for each cluster; every member of a
    cluster carries a group id that the first run drew for it; and the
    second run appends to the group ids of an element, for the clusters
    the element is in and for no other, the group id it draws at the turn
    of the cluster, so that every member of the cluster carries it. *)
Theorem normalize_again (randomUUID : nat -> string) (n : nat) (els : list element) :
  NoDup (List.map id els) ->
  classes_disjoint els = true ->
  numeric els = true ->
  let out1 := fst (normalize randomUUID n els) in
  let n1 := snd (normalize randomUUID n els) in
  let out2 := fst (normalize randomUUID n1 out1) in
  let n2 := snd (normalize randomUUID n1 out1) in
  List.map id out2 = List.map id out1
  /\ List.map startBinding out2 = List.map startBinding out1
  /\ List.map endBinding out2 = List.map endBinding out1
  /\ List.map boundElements out2 = List.map boundElements out1
  /\ exists clusters : list element,
       NoDup clusters
       /\ (forall p, p ∈ clusters <-> p ∈ out1 /\ leads out1 p = true)
       /\ n1 = (n + length clusters)%nat
       /\ n2 = (n1 + length clusters)%nat
       /\ (forall p, p ∈ clusters ->
             exists k, (n <= k < n1)%nat
               /\ forall e, e ∈ out1 -> in_cluster p e = true ->
                            randomUUID k ∈ default [] (groupIds e))
       /\ Forall2
            (fun a b =>
               b = set_groupIds (groupIds b) a
               /\ exists turns : list nat,
                    default [] (groupIds b)
                    = default [] (groupIds a)
                      ++ List.map (fun i => randomUUID (n1 + i)%nat) turns
                    /\ (forall i, i ∈ turns ->
                          exists p, clusters !! i = Some p /\ in_cluster p a = true)
                    /\ (forall i p, clusters !! i = Some p -> in_cluster p a = true ->
                          randomUUID (n1 + i)%nat ∈ default [] (groupIds b)))
            out1 out2.
Proof.
  intros Hnd Hdis Hnum out1 n1 out2 n2.
  destruct (normalize_output randomUUID n els Hnum) as (Hclean & Hheads & Hsettled & Hcov1 & Hcov2).
  fold out1 in Hclean, Hheads, Hsettled, Hcov1, Hcov2.
  set (l3 := forceTriangleArrowhead (ensureArrowBindings (forceCleanStyle els))).
  set (l4 := fst (assignGroupIdsForNestedShapes randomUUID n l3)).
  assert (Hout1 : out1 = reorderElementsForArrows l4).
  { subst out1 l4. unfold normalize. fold l3.
    now destruct (assignGroupIdsForNestedShapes randomUUID n l3). }
  assert (Hn1 : n1 = snd (assignGroupIdsForNestedShapes randomUUID n l3)).
  { subst n1. unfold normalize. fold l3.
    now destruct (assignGroupIdsForNestedShapes randomUUID n l3). }
  assert (Hg3 : List.map geo l3 = List.map geo els) by apply stages_geo.
  assert (Hnd3 : NoDup (List.map id l3)) by now rewrite (map_id_geo _ _ Hg3).
  destruct (assignGroupIds_regroups randomUUID n l3 Hnd3) as [Hcount1 Hrel1].
  fold l4 in Hrel1. rewrite <- Hn1 in Hcount1.
  assert (Hg4 : List.map geo l4 = List.map geo l3).
  { apply (Forall2_map_geo _ _ _ (regrouped_same randomUUID n (leaders l3)) Hrel1). }
  assert (Hnd4 : NoDup (List.map id l4)) by now rewrite (map_id_geo _ _ Hg4).
  assert (Hcov4 : covered els l4 /\ covered l4 els).
  { split; apply map_geo_covered; congruence. }
  assert (Hdis4 : classes_disjoint l4 = true).
  { now rewrite (classes_disjoint_covered els l4 (proj1 Hcov4) (proj2 Hcov4)). }
  assert (Hperm : out1 ≡ₚ l4).
  { rewrite Hout1. apply reorder_perm; [exact Hnd4|]. intros el Hel Hc.
    apply not_true_is_false. intros Hn.
    unfold classes_disjoint in Hdis4. destruct (classify l4) as [cs ns] eqn:Hcl.
    apply andb_true_iff in Hdis4 as [[Hcn _]%andb_true_iff _]. apply bool_decide_eq_true in Hcn.
    apply (not_elem_of_empty (C := IdSet) (id el)). rewrite <- Hcn. apply elem_of_intersection.
    pose proof (classify_spec l4 (id el)) as [Hs1 Hs2]. rewrite Hcl in Hs1, Hs2. cbn [fst snd] in *.
    split; [apply Hs1 | apply Hs2]; now exists el. }
  assert (Hnd1 : NoDup (List.map id out1)).
  { assert (Hp : List.map id out1 ≡ₚ List.map id l4) by now apply Permutation_map.
    now rewrite Hp. }
  assert (Hfix : reorderElementsForArrows out1 = out1).
  { rewrite Hout1. now apply reorder_idempotent. }
  assert (HC : forceCleanStyle out1 = out1).
  { apply map_fixed. intros e He. pose proof (proj1 (Forall_forall _ _) Hclean e He) as Hr.
    unfold clean in Hr. destruct e. simpl in *. now subst. }
  assert (HB : ensureArrowBindings out1 = out1) by now apply ensureArrowBindings_fixpoint.
  assert (HT : forceTriangleArrowhead out1 = out1).
  { apply map_fixed. intros e He. destruct (is_arrow_or_line e) eqn:Harr; [|reflexivity].
    destruct (proj1 (Forall_forall _ _) Hheads e He Harr) as [Hs Hend].
    cbn [negb]. rewrite Hs, Hend. now destruct e. }
  destruct (assignGroupIds_regroups randomUUID n1 out1 Hnd1) as [Hcount2 Hrel2].
  set (clusters := leaders out1) in *.
  assert (Hout2 : out2 = reorderElementsForArrows
                           (fst (assignGroupIdsForNestedShapes randomUUID n1 out1))
                  /\ n2 = snd (assignGroupIdsForNestedShapes randomUUID n1 out1)).
  { subst out2 n2. unfold normalize at 1 2. rewrite HC, HB, HT.
    now destruct (assignGroupIdsForNestedShapes randomUUID n1 out1). }
  destruct Hout2 as [Hout2 Hn2].
  assert (Hrel : Forall2 (regrouped randomUUID n1 clusters) out1 out2).
  { pose proof (reorder_Forall2 _ _ _ (regrouped_same randomUUID n1 clusters) Hrel2) as H.
    rewrite Hfix in H. now rewrite Hout2. }
  assert (Hfield : forall (B : Type) (f : element -> B),
             (forall a g, f (set_groupIds g a) = f a) ->
             List.map f out2 = List.map f out1).
  { intros B f Hf. clear -Hrel Hf. induction Hrel as [|a b l l' [Hab _] _ IH]; [reflexivity|].
    simpl. rewrite IH. f_equal. unfold same_but_groups in Hab. rewrite Hab. apply Hf. }
  assert (Hlen : length clusters = length (leaders l3)).
  { unfold clusters. rewrite (length_leaders_perm out1 l4 Hperm).
    symmetry. now apply length_leaders_geo. }
  split; [apply Hfield; reflexivity|]. split; [apply Hfield; reflexivity|].
  split; [apply Hfield; reflexivity|]. split; [apply Hfield; reflexivity|].
  exists clusters. split_ands.
  - now apply NoDup_leaders.
  - intros p. apply elem_of_leaders.
  - now rewrite Hlen.
  - now rewrite Hn2.
  - intros p Hpl.
    apply elem_of_leaders in Hpl as (Hp1 & Hleads).
    assert (Hp4 : p ∈ l4) by (apply (elem_of_reorder l4); rewrite <- Hout1; exact Hp1).
    apply list_elem_of_lookup in Hp4 as [j Hj].
    destruct (Forall2_lookup_r _ _ _ _ _ Hrel1 Hj) as (p3 & Hj3 & Hpp).
    pose proof (regrouped_same _ _ _ _ _ Hpp) as Hgp.
    assert (Hl3 : p3 ∈ leaders l3).
    { apply elem_of_leaders. split; [eapply list_elem_of_lookup_2, Hj3|].
      apply (leads_covered out1 l3 p p3); [|now symmetry | exact Hleads].
      apply (covered_trans _ els); [exact Hcov2|]. apply map_geo_covered. now symmetry. }
    apply list_elem_of_lookup in Hl3 as [k Hk]. exists (n + k)%nat. split.
    + pose proof (lookup_lt_Some _ _ _ Hk). lia.
    + intros e He Hin.
      assert (He4 : e ∈ l4) by (apply (elem_of_reorder l4); rewrite <- Hout1; exact He).
      apply list_elem_of_lookup in He4 as [j' Hj'].
      destruct (Forall2_lookup_r _ _ _ _ _ Hrel1 Hj') as (e3 & He3 & _ & turns & _ & _ & Hall).
      apply (Hall k p3 Hk).
      destruct (Forall2_lookup_lr _ _ _ _ _ _ Hrel1 He3 Hj') as [Hse _].
      now rewrite (in_cluster_geo p3 p e3 e (eq_sym Hgp) (eq_sym (same_but_groups_geo _ _ Hse))).
  - eapply Forall2_impl; [exact Hrel|]. intros a b Hab. exact Hab.
Qed.

(** On [zone_scene] the zone leads the one cluster: the first run gives
    its members the first group id of the stream, the second run the
    second one. *)
Lemma normalize_again_witness :
  let out1 := fst (normalize example_uuids 0 zone_scene) in
  let n1 := snd (normalize example_uuids 0 zone_scene) in
  let out2 := fst (normalize example_uuids n1 out1) in
  let n2 := snd (normalize example_uuids n1 out1) in
  List.map id out2 = List.map id out1
  /\ List.map startBinding out2 = List.map startBinding out1
  /\ List.map endBinding out2 = List.map endBinding out1
  /\ List.map boundElements out2 = List.map boundElements out1
  /\ exists clusters : list element,
       NoDup clusters
       /\ (forall p, p ∈ clusters <-> p ∈ out1 /\ leads out1 p = true)
       /\ n1 = (0 + length clusters)%nat
       /\ n2 = (n1 + length clusters)%nat
       /\ (forall p, p ∈ clusters ->
             exists k, (0 <= k < n1)%nat
               /\ forall e, e ∈ out1 -> in_cluster p e = true ->
                            example_uuids k ∈ default [] (groupIds e))
       /\ Forall2
            (fun a b =>
               b = set_groupIds (groupIds b) a
               /\ exists turns : list nat,
                    default [] (groupIds b)
                    = default [] (groupIds a)
                      ++ List.map (fun i => example_uuids (n1 + i)%nat) turns
                    /\ (forall i, i ∈ turns ->
                          exists p, clusters !! i = Some p /\ in_cluster p a = true)
                    /\ (forall i p, clusters !! i = Some p -> in_cluster p a = true ->
                          example_uuids (n1 + i)%nat ∈ default [] (groupIds b)))
            out1 out2.
Proof.
  apply (normalize_again example_uuids 0 zone_scene).
  - apply (bool_decide_unpack _). vm_compute. exact I.
  - vm_compute. reflexivity.
  - vm_compute. reflexivity.
Defined.

(** C4 as stated fails on the groups: the second run appends a new group id
    to every member of a group. It also fails on the draw order when a
    shape is both a container and nested, for such a shape is emitted
    twice by every run. *)
Lemma normalize_again_counterexample :
  (let out1 := fst (normalize example_uuids 0 zone_scene) in
   let n1 := snd (normalize example_uuids 0 zone_scene) in
   let out2 := fst (normalize example_uuids n1 out1) in
   List.map (fun e => (id e, groupIds e)) out1
   = [(Some "zone", Some ["uuid-0"]); (Some "link", Some []);
      (Some "chip1", Some ["uuid-0"]); (Some "chip2", Some ["uuid-0"]);
      (Some "note", Some [])]
   /\ List.map (fun e => (id e, groupIds e)) out2
      = [(Some "zone", Some ["uuid-0"; "uuid-1"]); (Some "link", Some []);
         (Some "chip1", Some ["uuid-0"; "uuid-1"]); (Some "chip2", Some ["uuid-0"; "uuid-1"]);
         (Some "note", Some [])]
   /\ List.map groupIds out2 <> List.map groupIds out1)
  /\ (let out1 := fst (normalize example_uuids 0 nested_scene) in
      let n1 := snd (normalize example_uuids 0 nested_scene) in
      let out2 := fst (normalize example_uuids n1 out1) in
      List.map id out1 = [Some "outer"; Some "middle"; Some "inner"; Some "middle"]
      /\ List.map id out2
         = [Some "outer"; Some "middle"; Some "middle"; Some "middle"; Some "inner"; Some "middle"]
      /\ List.map id out2 <> List.map id out1).
Proof.
  cbv zeta. split_ands; try (vm_compute; reflexivity); vm_compute; discriminate.
Qed.

End GeometryFacts.

(* ===================================================================== *)
(** * Properties of the rest of the code *)
(* ===================================================================== *)

(** ** [create_view]: what is saved, and when *)

Lemma findM_none (p : json -> throws bool) (l : list json) :
  Forall (fun el => p el = Some false) l -> findM p l = Some None.
Proof. induction 1 as [|el l Hel Hl IH]; simpl; [reflexivity|]. rewrite Hel. simpl. exact IH. Qed.

Lemma foldl_delete_ids_none (l : list json) (ids : gset string) :
  Forall (fun el => is_type "delete" el = false) l ->
  foldl
    (fun ids el =>
       if is_type "delete" el then
         foldl (fun acc i => acc ∪ {[ JsString.trim i ]}) ids
           (JsString.split ","%char (String_of (nullish_or (prop el "ids") (prop el "id"))))
       else ids)
    ids l = ids.
Proof.
  intros Hl. revert ids. induction Hl as [|el l Hel Hl IH]; intros ids; simpl; [reflexivity|].
  rewrite Hel. apply IH.
Qed.

Lemma kept_empty (el : json) : kept ∅ el = true.
Proof.
  unfold kept, has.
  destruct (prop el "id") as [[]|], (prop el "containerId") as [[]|]; reflexivity.
Qed.

Section CreateViewMore.

Context {S : Type} `{CheckpointStore S}.
Variable JSON_parse : string -> option json.
Variable SyntaxError_message : string -> string.
Variable ratioHint : list json -> string.

Let handler := create_view JSON_parse SyntaxError_message ratioHint.

Lemma save_and_reply_cases st tr uuid parsed resolved p :
  let o := save_and_reply ratioHint st tr uuid parsed resolved p in
  (result o = None /\ store_after o = st /\ trace o = tr)
  \/ (exists t, result o = Some (mkResult t false (Some (checkpointId_of uuid)))
      /\ store_after o = save st (checkpointId_of uuid) (mkCheckpoint (JArr resolved) p)
      /\ trace o = tr ++ [EvSave (checkpointId_of uuid)]).
Proof.
  unfold save_and_reply. destruct (filterM _ parsed); simpl; [right|left]; eauto.
Qed.

Lemma create_view_cases elements_arg plan_arg uuid st :
  let o := handler elements_arg plan_arg uuid st in
  ((result o = None \/ exists r, result o = Some r /\ isError r = true)
   /\ store_after o = st /\ forall i, EvSave i ∉ trace o)
  \/ (exists t cp tr, result o = Some (mkResult t false (Some (checkpointId_of uuid)))
      /\ store_after o = save st (checkpointId_of uuid) cp
      /\ trace o = tr ++ [EvSave (checkpointId_of uuid)]
      /\ forall i, EvSave i ∉ tr).
Proof.
  assert (Hno1 : forall i, EvSave i ∉ [EvParse]).
  { intros i Hi. apply list_elem_of_singleton in Hi. discriminate Hi. }
  assert (Hno2 : forall j i, EvSave i ∉ [EvParse; EvLoad j]).
  { intros j i Hi. apply elem_of_cons in Hi as [Hi|Hi]; [discriminate Hi|].
    apply list_elem_of_singleton in Hi. discriminate Hi. }
  assert (Hscratch : forall parsed,
    let o := save_from_scratch ratioHint st uuid parsed plan_arg in
    ((result o = None \/ exists r, result o = Some r /\ isError r = true)
     /\ store_after o = st /\ forall i, EvSave i ∉ trace o)
    \/ (exists t cp tr, result o = Some (mkResult t false (Some (checkpointId_of uuid)))
        /\ store_after o = save st (checkpointId_of uuid) cp
        /\ trace o = tr ++ [EvSave (checkpointId_of uuid)]
        /\ forall i, EvSave i ∉ tr)).
  { intros parsed. unfold save_from_scratch. destruct (filterM is_not_delete parsed) as [res|]; simpl.
    - destruct (save_and_reply_cases st [EvParse] uuid parsed res plan_arg) as [(Hr & Hs & Ht)|(t & Hr & Hs & Ht)].
      + left. rewrite Hs, Ht. split_ands; auto.
      + right. exists t, (mkCheckpoint (JArr res) plan_arg), [EvParse]. auto.
    - left. split_ands; auto. }
  unfold handler, create_view. cbv zeta.
  destruct (_ >? _); [left; simpl; split_ands; [right; eauto| reflexivity | intros i Hi; inversion Hi]|].
  destruct (JSON_parse elements_arg) as [parsedv|]; [|left; simpl; split_ands; [right; eauto| reflexivity | apply Hno1]].
  destruct (as_array parsedv) as [parsed|]; simpl; [|left; split_ands; auto].
  destruct (restoreEl_id parsed) as [[i|]|]; simpl; [| apply Hscratch | left; split_ands; auto].
  destruct (truthy (Some i)); [|apply Hscratch].
  unfold restore_and_save. destruct (load st i) as [base|]; [|left; simpl; split_ands; [right; eauto| reflexivity | apply Hno2]].
  destruct (resolve_restored base parsed) as [res|]; [|left; simpl; split_ands; auto].
  match goal with |- context [save_and_reply _ _ ?tr _ _ ?r ?p] =>
    destruct (save_and_reply_cases st tr uuid parsed r p) as [(Hr & Hs & Ht)|(t & Hr & Hs & Ht)] end.
  - left. rewrite Hs, Ht. split_ands; auto.
  - right. do 3 eexists. split_ands; eauto.
Qed.

(** X1. Whatever the input, the store changes on success only: a success comes
    with one save, made last and under the checkpoint id of the answer; an
    error answer or a throw leaves the store as it was and asks for no
    save. *)
Theorem create_view_saves_only_on_success (elements_arg : string) (plan_arg : option string)
    (uuid : string) (st : S) :
  let o := handler elements_arg plan_arg uuid st in
  let c := checkpointId_of uuid in
  (forall r, result o = Some r -> isError r = false ->
     structuredContent r = Some c
     /\ (exists cp, store_after o = save st c cp)
     /\ exists tr, trace o = tr ++ [EvSave c] /\ forall i, EvSave i ∉ tr)
  /\ (forall r, result o = Some r -> isError r = true ->
      store_after o = st /\ forall i, EvSave i ∉ trace o)
  /\ (result o = None -> store_after o = st /\ forall i, EvSave i ∉ trace o).
Proof.
  intros o c.
  destruct (create_view_cases elements_arg plan_arg uuid st)
    as [(Hr & Hs & Ht)|(t & cp & tr & Hr & Hs & Ht & Hno)]; fold o in Hr, Hs, Ht.
  - split_ands.
    + intros r Hres Herr. destruct Hr as [Hr|(r0 & Hr & He)]; congruence.
    + intros; now split.
    + intros; now split.
  - rewrite Hr. split_ands.
    + intros r [= <-] _. split_ands; [reflexivity | eauto | eauto].
    + intros r [= <-] Herr. discriminate Herr.
    + discriminate.
Qed.

Lemma save_from_scratch_outcome (plan_arg : option string) (uuid : string) (st : S)
    (parsed : list json) :
  Forall not_null parsed ->
  save_from_scratch ratioHint st uuid parsed plan_arg
  = mkOutcome
      (Some (mkResult (text_displayed (checkpointId_of uuid)
                         (ratioHint (filter (is_type "cameraUpdate") parsed)))
               false (Some (checkpointId_of uuid))))
      (save st (checkpointId_of uuid)
         (mkCheckpoint (JArr (filter (fun el => negb (is_type "delete" el)) parsed)) plan_arg))
      [EvParse; EvSave (checkpointId_of uuid)].
Proof.
  intros Hnn. unfold save_from_scratch.
  rewrite (filterM_not_null _ (fun el => negb (is_type "delete" el)) _ Hnn).
  - unfold save_and_reply.
    rewrite (filterM_not_null _ (is_type "cameraUpdate") _ Hnn)
      by (intros v Hv; apply type_is_not_null, Hv).
    reflexivity.
  - intros v Hv. unfold is_not_delete. now rewrite (type_is_not_null _ v Hv).
Qed.

(** X2. Without a restore directive that carries a truthy id the store is
    not read and the input alone is the scene: what is saved is the input
    without its delete entries, under the plan of the call. *)
Theorem create_view_from_scratch (elements_arg : string) (plan_arg : option string)
    (uuid : string) (st : S) (parsed : list json) (i : jsval) :
  Z.of_nat (String.length elements_arg) <= MAX_INPUT_BYTES ->
  JSON_parse elements_arg = Some (JArr parsed) ->
  Forall not_null parsed ->
  restoreEl_id parsed = Some i ->
  truthy i = false ->
  let c := checkpointId_of uuid in
  handler elements_arg plan_arg uuid st
  = mkOutcome
      (Some (mkResult (text_displayed c (ratioHint (filter (is_type "cameraUpdate") parsed)))
               false (Some c)))
      (save st c
         (mkCheckpoint (JArr (filter (fun el => negb (is_type "delete" el)) parsed)) plan_arg))
      [EvParse; EvSave c].
Proof.
  intros Hlen Hparse Hnn Hid Hfalsy c. unfold handler, create_view.
  assert ((Z.of_nat (String.length elements_arg) >? MAX_INPUT_BYTES) = false) as ->.
  { destruct (Z.gtb_spec (Z.of_nat (String.length elements_arg)) MAX_INPUT_BYTES); [lia | reflexivity]. }
  rewrite Hparse. simpl. rewrite Hid. simpl.
  destruct i as [i|]; [rewrite Hfalsy|]; now apply save_from_scratch_outcome.
Qed.

(** A scene without directives is saved as it is. *)
Lemma create_view_plain (elements_arg : string) (plan_arg : option string)
    (uuid : string) (st : S) (els : list json) :
  Z.of_nat (String.length elements_arg) <= MAX_INPUT_BYTES ->
  JSON_parse elements_arg = Some (JArr els) ->
  Forall (fun el => not_null el /\ supplied el = true) els ->
  store_after (handler elements_arg plan_arg uuid st)
  = save st (checkpointId_of uuid) (mkCheckpoint (JArr els) plan_arg).
Proof.
  intros Hlen Hparse Hels.
  assert (Hnn : Forall not_null els) by (eapply Forall_impl; [exact Hels|]; now intros el []).
  assert (Hsup : forall el, supplied el = true ->
            is_type "restoreCheckpoint" el = false /\ is_type "delete" el = false).
  { intros el. unfold supplied. rewrite andb_true_iff, !negb_true_iff. tauto. }
  unfold handler, create_view.
  assert ((Z.of_nat (String.length elements_arg) >? MAX_INPUT_BYTES) = false) as ->.
  { destruct (Z.gtb_spec (Z.of_nat (String.length elements_arg)) MAX_INPUT_BYTES); [lia | reflexivity]. }
  rewrite Hparse. simpl.
  assert (restoreEl_id els = Some None) as ->.
  { unfold restoreEl_id. rewrite findM_none; [reflexivity|].
    eapply Forall_impl; [exact Hels|]. intros el [Hel Hs]. simpl.
    now rewrite (type_is_not_null _ el Hel), (proj1 (Hsup el Hs)). }
  simpl. rewrite (save_from_scratch_outcome plan_arg uuid st els Hnn). simpl.
  f_equal. f_equal. f_equal. apply filter_all.
  eapply Forall_impl; [exact Hels|]. intros el [_ Hel]. simpl.
  now rewrite (proj2 (Hsup el Hel)).
Qed.

Lemma is_type_restore_not_delete (r : json) :
  is_type "restoreCheckpoint" r = true -> is_type "delete" r = false /\ supplied r = false.
Proof.
  intros Hr. split.
  - unfold is_type in *. destruct (prop r "type") as [[]|]; try discriminate Hr.
    apply String.eqb_eq in Hr as ->. reflexivity.
  - unfold supplied. now rewrite Hr.
Qed.

(** A restore directive followed by plain elements: the base scene followed
    by these elements is saved. *)
Lemma create_view_restore_plain (elements_arg : string) (plan_arg : option string)
    (uuid : string) (st : S) (r : json) (els : list json) (c : string) (base : Checkpoint)
    (baseElements : list json) :
  Z.of_nat (String.length elements_arg) <= MAX_INPUT_BYTES ->
  JSON_parse elements_arg = Some (JArr (r :: els)) ->
  is_type "restoreCheckpoint" r = true ->
  prop r "id" = Some (JStr c) ->
  c <> "" ->
  Forall (fun el => not_null el /\ supplied el = true) els ->
  load st (JStr c) = Some base ->
  elements base = JArr baseElements ->
  Forall not_null baseElements ->
  store_after (handler elements_arg plan_arg uuid st)
  = save st (checkpointId_of uuid)
      (mkCheckpoint (JArr (baseElements ++ els))
         (match plan_arg with Some p => Some p | None => Some (default "" (plan base)) end)).
Proof.
  intros Hlen Hparse Hr Hid Hc Hels Hload Hbels Hbase.
  assert (Hnn : Forall not_null els) by (eapply Forall_impl; [exact Hels|]; now intros el []).
  assert (Hsup : forall el, supplied el = true ->
            is_type "restoreCheckpoint" el = false /\ is_type "delete" el = false).
  { intros el. unfold supplied. rewrite andb_true_iff, !negb_true_iff. tauto. }
  assert (Hrnn : not_null r) by (intros ->; discriminate Hr).
  destruct (is_type_restore_not_delete r Hr) as [Hrd Hrs].
  assert (Hall : Forall not_null (r :: els)) by now constructor.
  assert (Hrid : restoreEl_id (r :: els) = Some (Some (JStr c))).
  { unfold restoreEl_id. simpl. rewrite (type_is_not_null _ r Hrnn), Hr. simpl.
    now rewrite (get_not_null r "id" Hrnn), Hid. }
  assert (Hdel : delete_ids (r :: els) = ∅).
  { unfold delete_ids. simpl. rewrite Hrd. apply foldl_delete_ids_none.
    eapply Forall_impl; [exact Hels|]. intros el [_ Hel]. apply (Hsup el Hel). }
  assert (Hnew : filter supplied (r :: els) = els).
  { rewrite filter_cons, Hrs. simpl. apply filter_all.
    eapply Forall_impl; [exact Hels|]. now intros el []. }
  revert Hall Hrid Hdel Hnew Hparse. generalize (r :: els). intros parsed Hall Hrid Hdel Hnew Hparse.
  unfold handler, create_view.
  assert ((Z.of_nat (String.length elements_arg) >? MAX_INPUT_BYTES) = false) as ->.
  { destruct (Z.gtb_spec (Z.of_nat (String.length elements_arg)) MAX_INPUT_BYTES); [lia | reflexivity]. }
  rewrite Hparse. simpl. rewrite Hrid. simpl.
  assert (truthy (Some (JStr c)) = true) as ->.
  { unfold truthy. apply negb_true_iff, String.eqb_neq, Hc. }
  unfold restore_and_save. rewrite Hload. unfold resolve_restored.
  rewrite (collect_delete_ids_not_null parsed ∅ Hall). fold (delete_ids parsed). rewrite Hdel.
  simpl. rewrite Hbels. simpl.
  rewrite (filterM_not_null _ (kept ∅) _ Hbase) by (intros v Hv; apply survives_not_null, Hv).
  simpl.
  rewrite (filterM_not_null _ supplied _ Hall) by (intros v Hv; apply is_new_element_not_null, Hv).
  simpl. unfold save_and_reply.
  rewrite (filterM_not_null _ (is_type "cameraUpdate") _ Hall)
    by (intros v Hv; apply type_is_not_null, Hv).
  simpl. f_equal. f_equal. f_equal.
  rewrite (filter_all (kept ∅)) by (apply Forall_forall; intros; apply kept_empty).
  now rewrite Hnew.
Qed.

End CreateViewMore.

(** *** The checkpoint id *)

Lemma length_substring0 (n : nat) (s : string) :
  String.length (String.substring 0 n s) = Nat.min n (String.length s).
Proof.
  revert n. induction s as [|c s IH]; intros [|n]; simpl; try reflexivity.
  now rewrite IH.
Qed.

Lemma has_char_substring0 (c : ascii) (n : nat) (s : string) :
  JsString.has_char c s = false -> JsString.has_char c (String.substring 0 n s) = false.
Proof.
  revert n. induction s as [|c' s IH]; intros [|n]; simpl; try reflexivity.
  intros [-> Hs]%orb_false_iff. simpl. now apply IH.
Qed.

Lemma has_char_remove_char (c : ascii) (s : string) :
  JsString.has_char c (JsString.remove_char c s) = false.
Proof.
  induction s as [|c' s IH]; simpl; [reflexivity|].
  destruct (Ascii.eqb c' c) eqn:E; [exact IH|]. simpl. now rewrite E.
Qed.

Lemma remove_char_absent (c : ascii) (s : string) :
  JsString.has_char c s = false -> JsString.remove_char c s = s.
Proof.
  induction s as [|c' s IH]; simpl; [reflexivity|].
  intros [-> Hs]%orb_false_iff. now rewrite IH.
Qed.

Lemma substring0_all (n : nat) (s : string) :
  (String.length s <= n)%nat -> String.substring 0 n s = s.
Proof.
  revert n. induction s as [|c s IH]; intros [|n]; simpl; try reflexivity; try lia.
  intros Hn. rewrite IH; [reflexivity | lia].
Qed.

(** X3. The checkpoint id has at most 18 characters, exactly 18 when the uuid
    has that many characters besides its hyphens, and no hyphen; it is a
    fixed point of the derivation. *)
Theorem checkpointId_of_shape (uuid : string) :
  String.length (checkpointId_of uuid)
  = Nat.min 18 (String.length (JsString.remove_char "-"%char uuid))
  /\ JsString.has_char "-"%char (checkpointId_of uuid) = false
  /\ checkpointId_of (checkpointId_of uuid) = checkpointId_of uuid.
Proof.
  unfold checkpointId_of, JsString.slice0. split_ands.
  - apply length_substring0.
  - apply has_char_substring0, has_char_remove_char.
  - rewrite (remove_char_absent "-"%char (String.substring 0 18 _))
      by apply has_char_substring0, has_char_remove_char.
    apply substring0_all. rewrite length_substring0. lia.
Qed.

(** *** One call after another *)

Section CreateThenRestore.

Variable JSON_parse : string -> option json.
Variable SyntaxError_message : string -> string.
Variable ratioHint : list json -> string.

Let handler := create_view (S := gmap string Checkpoint) JSON_parse SyntaxError_message ratioHint.

(** X4. A scene saved by one call and restored by the next one, with no delete
    directive, is the first scene followed by the new elements. *)
Theorem create_view_then_restore (e1 e2 : string) (p1 p2 : option string) (u1 u2 : string)
    (st : gmap string Checkpoint) (els1 els2 : list json) (r : json) :
  Z.of_nat (String.length e1) <= MAX_INPUT_BYTES ->
  Z.of_nat (String.length e2) <= MAX_INPUT_BYTES ->
  JSON_parse e1 = Some (JArr els1) ->
  Forall (fun el => not_null el /\ supplied el = true) els1 ->
  checkpointId_of u1 <> "" ->
  JSON_parse e2 = Some (JArr (r :: els2)) ->
  is_type "restoreCheckpoint" r = true ->
  prop r "id" = Some (JStr (checkpointId_of u1)) ->
  Forall (fun el => not_null el /\ supplied el = true) els2 ->
  let st1 := store_after (handler e1 p1 u1 st) in
  let st2 := store_after (handler e2 p2 u2 st1) in
  st2 !! checkpointId_of u2
  = Some (mkCheckpoint (JArr (els1 ++ els2))
            (match p2 with Some p => Some p | None => Some (default "" p1) end)).
Proof.
  intros Hl1 Hl2 Hp1 He1 Hc1 Hp2 Hr Hid He2 st1 st2.
  assert (Hst1 : st1 = <[ checkpointId_of u1 := mkCheckpoint (JArr els1) p1 ]> st).
  { subst st1 handler.
    now rewrite (create_view_plain JSON_parse SyntaxError_message ratioHint e1 p1 u1 st els1). }
  subst st2 handler.
  rewrite (create_view_restore_plain JSON_parse SyntaxError_message ratioHint e2 p2 u2 st1
             r els2 (checkpointId_of u1) (mkCheckpoint (JArr els1) p1) els1
             Hl2 Hp2 Hr Hid Hc1 He2).
  - simpl. now rewrite lookup_insert_eq.
  - rewrite Hst1. simpl. apply lookup_insert_eq.
  - reflexivity.
  - eapply Forall_impl; [exact He1|]. now intros el [].
Qed.

End CreateThenRestore.

(** A delete directive without a restore directive is dropped, and the
    element it names stays. *)
Lemma create_view_from_scratch_witness :
  store_after
    (create_view Json.parse example_message example_hint
       (JsString.dq "[{'type':'rectangle','id':'A'},{'type':'delete','ids':'A'}]")
       (Some "plan") example_uuid (∅ : gmap string Checkpoint))
  = {[ "123e4567e89b12d3a4" := mkCheckpoint (JArr [shape "rectangle" "A"]) (Some "plan") ]}.
Proof.
  rewrite (create_view_from_scratch Json.parse example_message example_hint
             (JsString.dq "[{'type':'rectangle','id':'A'},{'type':'delete','ids':'A'}]")
             (Some "plan") example_uuid ∅
             [shape "rectangle" "A"; JObj [("type", JStr "delete"); ("ids", JStr "A")]] None).
  - reflexivity.
  - vm_compute. discriminate.
  - vm_compute. reflexivity.
  - repeat constructor; discriminate.
  - reflexivity.
  - reflexivity.
Defined.

Lemma create_view_then_restore_witness :
  store_after
    (create_view Json.parse example_message example_hint
       (JsString.dq "[{'type':'restoreCheckpoint','id':'123e4567e89b12d3a4'},{'type':'ellipse','id':'B'}]")
       None other_uuid
       (store_after
          (create_view Json.parse example_message example_hint
             (JsString.dq "[{'type':'rectangle','id':'A'}]") (Some "one box") example_uuid
             (∅ : gmap string Checkpoint))))
    !! "0f8fad5bd9cb469fa1"
  = Some (mkCheckpoint (JArr [shape "rectangle" "A"; shape "ellipse" "B"]) (Some "one box")).
Proof.
  apply (create_view_then_restore Json.parse example_message example_hint
           (JsString.dq "[{'type':'rectangle','id':'A'}]")
           (JsString.dq "[{'type':'restoreCheckpoint','id':'123e4567e89b12d3a4'},{'type':'ellipse','id':'B'}]")
           (Some "one box") None example_uuid other_uuid ∅
           [shape "rectangle" "A"] [shape "ellipse" "B"]
           (shape "restoreCheckpoint" "123e4567e89b12d3a4")).
  - vm_compute. discriminate.
  - vm_compute. discriminate.
  - vm_compute. reflexivity.
  - repeat constructor; discriminate.
  - vm_compute. discriminate.
  - vm_compute. reflexivity.
  - reflexivity.
  - reflexivity.
  - repeat constructor; discriminate.
Defined.

(** ** The extractor of the widget, entry by entry *)

Lemma extract_step_null (acc : Extracted) : extract_step acc JNull = None.
Proof. reflexivity. Qed.
Lemma delete_ids_foldl (parsed : list json) : delete_ids parsed = foldl ids_of_entry ∅ parsed.
Proof. reflexivity. Qed.

Lemma extract_step_not_null (acc : Extracted) (el : json) :
  not_null el ->
  exists acc', extract_step acc el = Some acc'
    /\ deleteIds acc' = ids_of_entry (deleteIds acc) el
    /\ drawElements acc' = drawElements acc ++ (if drawn el then [el] else [])
    /\ viewport acc'
       = (if is_type "cameraUpdate" el then Some (camera_of el) else viewport acc)
    /\ restoreId acc'
       = (if is_type "restoreCheckpoint" el then prop el "id" else restoreId acc).
Proof.
  intros Hel. unfold extract_step, ids_of_entry, drawn, camera_of.
  rewrite !(type_is_not_null _ el Hel), !(get_not_null el _ Hel). simpl.
  destruct (is_type "cameraUpdate" el) eqn:Hc; simpl.
  { rewrite (is_type_exclusive _ "delete" el Hc), (is_type_exclusive _ "restoreCheckpoint" el Hc)
      by discriminate.
    eexists. split; [reflexivity|]. simpl. now rewrite app_nil_r. }
  destruct (is_type "restoreCheckpoint" el) eqn:Hr; simpl.
  { rewrite (is_type_exclusive _ "delete" el Hr) by discriminate.
    eexists. split; [reflexivity|]. simpl. now rewrite app_nil_r. }
  destruct (is_type "delete" el) eqn:Hd; simpl.
  - rewrite (add_delete_ids_not_null el _ Hel). simpl.
    eexists. split; [reflexivity|]. simpl. now rewrite app_nil_r.
  - eexists. split; [reflexivity|]. simpl. auto.
Qed.

Lemma extract_loop_not_null (l : list json) (acc : Extracted) :
  Forall not_null l ->
  exists acc', extract_loop acc l = Some acc'
    /\ deleteIds acc' = foldl ids_of_entry (deleteIds acc) l
    /\ drawElements acc' = drawElements acc ++ filter drawn l
    /\ viewport acc'
       = match last (filter (is_type "cameraUpdate") l) with
         | Some cam => Some (camera_of cam)
         | None => viewport acc
         end
    /\ restoreId acc'
       = match last (filter (is_type "restoreCheckpoint") l) with
         | Some el => prop el "id"
         | None => restoreId acc
         end.
Proof.
  intros Hl. revert acc. induction Hl as [|el l Hel Hl IH]; intros acc.
  - exists acc. simpl. now rewrite app_nil_r.
  - destruct (extract_step_not_null acc el Hel) as (acc1 & Hstep & Hd & Hdraw & Hv & Hr).
    destruct (IH acc1) as (acc' & Hloop & Hd' & Hdraw' & Hv' & Hr').
    exists acc'. cbn [extract_loop]. rewrite Hstep. simpl. split; [exact Hloop|].
    rewrite Hd', Hdraw', Hv', Hr', Hd, Hdraw, Hv, Hr. rewrite !filter_cons. split_ands.
    + reflexivity.
    + rewrite <- app_assoc. now destruct (drawn el).
    + destruct (is_type "cameraUpdate" el); simpl; [|reflexivity].
      rewrite last_cons. now destruct (last _).
    + destruct (is_type "restoreCheckpoint" el); simpl; [|reflexivity].
      rewrite last_cons.
      now destruct (last (filter (fun v => is_type "restoreCheckpoint" v) l)).
Qed.

Lemma extract_loop_null (l : list json) (acc : Extracted) :
  JNull ∈ l -> extract_loop acc l = None.
Proof.
  revert acc. induction l as [|el l IH]; intros acc Hin; [inversion Hin|].
  cbn [extract_loop]. destruct (extract_step acc el) as [acc1|] eqn:Hstep; [|reflexivity].
  simpl. apply IH. apply elem_of_cons in Hin as [<-|Hin]; [discriminate Hstep | exact Hin].
Qed.

Lemma not_null_or (l : list json) : Forall not_null l \/ JNull ∈ l.
Proof.
  induction l as [|el l [IH|IH]].
  - left. constructor.
  - destruct el; try (left; constructor; [discriminate | exact IH]). right. now left.
  - right. now right.
Qed.

Lemma has_empty (v : jsval) : has ∅ v = false.
Proof. destruct v as [[]|]; reflexivity. Qed.

Lemma shown_empty (el : json) : shown ∅ el = el.
Proof. unfold shown. now rewrite !has_empty. Qed.

Lemma mapM_hide_deleted (ids : gset string) (l : list json) :
  Forall not_null l -> mapM (hide_deleted ids) l = Some (List.map (shown ids) l).
Proof.
  induction 1 as [|el l Hel Hl IH]; [reflexivity|].
  simpl. rewrite IH. unfold hide_deleted.
  rewrite !(get_not_null el _ Hel). reflexivity.
Qed.

Lemma Forall_filter_bool {A} (P : A -> Prop) (p : A -> bool) (l : list A) :
  Forall P l -> Forall P (filter p l).
Proof.
  induction 1 as [|a l Ha Hl IH]; [constructor|].
  rewrite filter_cons. destruct (p a); [now constructor | exact IH].
Qed.

(** The extractor, read off an array without [null]. *)
Lemma extractViewportAndElements_not_null (parsed : list json) :
  Forall not_null parsed ->
  extractViewportAndElements parsed
  = Some (mkExtracted
            (camera_of <$> last (filter (is_type "cameraUpdate") parsed))
            (List.map (shown (delete_ids parsed)) (filter drawn parsed))
            (last (filter (is_type "restoreCheckpoint") parsed) ≫= fun el => prop el "id")
            (delete_ids parsed)).
Proof.
  intros Hl. unfold extractViewportAndElements.
  destruct (extract_loop_not_null parsed (mkExtracted None [] None ∅) Hl)
    as (acc & -> & Hd & Hdraw & Hv & Hr).
  cbn [deleteIds drawElements viewport restoreId app] in Hd, Hdraw, Hv, Hr.
  change (foldl ids_of_entry ∅ parsed) with (delete_ids parsed) in Hd.
  cbn [mbind option_bind]. rewrite Hd, Hdraw, Hv, Hr.
  assert (Hp : (if bool_decide (delete_ids parsed = ∅) then Some (filter drawn parsed)
                else mapM (hide_deleted (delete_ids parsed)) (filter drawn parsed))
               = Some (List.map (shown (delete_ids parsed)) (filter drawn parsed))).
  { case_bool_decide as He.
    - rewrite He. f_equal. symmetry. erewrite map_ext; [apply map_id|]. apply shown_empty.
    - apply mapM_hide_deleted, Forall_filter_bool, Hl. }
  rewrite Hp. cbn [mbind option_bind].
  destruct (last (filter (fun v => is_type "cameraUpdate" v) parsed)),
    (last (filter (fun v => is_type "restoreCheckpoint" v) parsed)); reflexivity.
Qed.

Lemma extractViewportAndElements_null (parsed : list json) :
  JNull ∈ parsed -> extractViewportAndElements parsed = None.
Proof.
  intros Hin. unfold extractViewportAndElements. now rewrite (extract_loop_null parsed _ Hin).
Qed.

(** X5. A [null] entry makes the extractor throw; on any other array every
    drawn entry is handed on, in order, itself or with opacity 1 when a
    delete directive of the array names its id or its container. *)
Theorem extractor_hides_never_removes (parsed : list json) :
  (JNull ∈ parsed -> extractViewportAndElements parsed = None)
  /\ (Forall not_null parsed ->
      exists ex, extractViewportAndElements parsed = Some ex
        /\ drawElements ex = List.map (shown (deleteIds ex)) (filter drawn parsed)
        /\ length (drawElements ex) = length (filter drawn parsed)).
Proof.
  split; [apply extractViewportAndElements_null|].
  intros Hl. rewrite (extractViewportAndElements_not_null parsed Hl).
  eexists. split; [reflexivity|]. simpl. split; [reflexivity | apply length_map].
Qed.

(** X6. The viewport is the one of the last camera entry, and unset when the
    array has no camera entry. *)
Theorem extractor_takes_last_camera (parsed : list json) :
  Forall not_null parsed ->
  viewport <$> extractViewportAndElements parsed
  = Some (camera_of <$> last (filter (is_type "cameraUpdate") parsed)).
Proof. intros Hl. now rewrite (extractViewportAndElements_not_null parsed Hl). Qed.

Lemma collect_delete_ids_null (l : list json) (ids : gset string) :
  JNull ∈ l -> collect_delete_ids l ids = None.
Proof.
  revert ids. induction l as [|el l IH]; intros ids Hin; [inversion Hin|].
  cbn [collect_delete_ids]. apply elem_of_cons in Hin as [<-|Hin]; [reflexivity|].
  destruct (type_is "delete" el) as [b|]; [|reflexivity]. simpl.
  destruct (if b then _ else _); [|reflexivity]. simpl. now apply IH.
Qed.

Section ServerAndWidget.

Context {S : Type} `{CheckpointStore S}.
Variable JSON_parse : string -> option json.
Variable SyntaxError_message : string -> string.
Variable ratioHint : list json -> string.

Let handler := create_view JSON_parse SyntaxError_message ratioHint.

(** X7. When [create_view] restores a checkpoint that holds an array, it
    throws exactly when the extractor of the widget throws on the same
    input, and otherwise removes from the base scene the elements whose id
    or [containerId] is in the delete set that the extractor reads off that
    input. *)
Theorem delete_ids_agree (elements_arg : string) (plan_arg : option string)
    (uuid : string) (st : S) (parsed : list json) (i : json) (base : Checkpoint)
    (baseElements : list json) :
  Z.of_nat (String.length elements_arg) <= MAX_INPUT_BYTES ->
  JSON_parse elements_arg = Some (JArr parsed) ->
  restoreEl_id parsed = Some (Some i) ->
  truthy (Some i) = true ->
  load st i = Some base ->
  elements base = JArr baseElements ->
  Forall not_null baseElements ->
  let o := handler elements_arg plan_arg uuid st in
  match extractViewportAndElements parsed with
  | None => result o = None /\ store_after o = st
  | Some ex =>
      (exists r, result o = Some r /\ isError r = false)
      /\ store_after o
         = save st (checkpointId_of uuid)
             (mkCheckpoint
                (JArr (filter (kept (deleteIds ex)) baseElements ++ filter supplied parsed))
                (match plan_arg with
                 | Some p => Some p
                 | None => Some (default "" (plan base))
                 end))
  end.
Proof.
  intros Hlen Hparse Hid Htruthy Hload Hels Hbase o.
  destruct (not_null_or parsed) as [Hl|Hin].
  - rewrite (extractViewportAndElements_not_null parsed Hl). cbn [deleteIds].
    subst o handler.
    rewrite (create_view_restore_outcome JSON_parse SyntaxError_message ratioHint
               elements_arg plan_arg uuid st parsed i base baseElements
               Hlen Hparse Hl Hels Hbase Hid Htruthy Hload).
    split; [eexists; split; reflexivity | reflexivity].
  - rewrite (extractViewportAndElements_null parsed Hin).
    subst o handler. unfold create_view.
    assert ((Z.of_nat (String.length elements_arg) >? MAX_INPUT_BYTES) = false) as ->.
    { destruct (Z.gtb_spec (Z.of_nat (String.length elements_arg)) MAX_INPUT_BYTES); [lia | reflexivity]. }
    rewrite Hparse. simpl. rewrite Hid. simpl. rewrite Htruthy.
    unfold restore_and_save. rewrite Hload. unfold resolve_restored.
    rewrite (collect_delete_ids_null parsed ∅ Hin). simpl. now split.
Qed.

End ServerAndWidget.

(** The widget hides [B] and the text bound to it; the server drops both
    from the base scene. *)
Lemma delete_ids_agree_witness :
  deleteIds <$> extractViewportAndElements
                  [shape "restoreCheckpoint" "K"; JObj [("type", JStr "delete"); ("ids", JStr "B")];
                   shape "rectangle" "C"]
  = Some {[ "B" ]}
  /\ store_after
       (create_view Json.parse example_message example_hint
          (JsString.dq "[{'type':'restoreCheckpoint','id':'K'},{'type':'delete','ids':'B'},{'type':'rectangle','id':'C'}]")
          None example_uuid example_store) !! "123e4567e89b12d3a4"
     = Some (mkCheckpoint (JArr [shape "rectangle" "A"; shape "rectangle" "C"])
               (Some "two shapes")).
Proof.
  pose proof (delete_ids_agree Json.parse example_message example_hint
                (JsString.dq "[{'type':'restoreCheckpoint','id':'K'},{'type':'delete','ids':'B'},{'type':'rectangle','id':'C'}]")
                None example_uuid example_store
                [shape "restoreCheckpoint" "K";
                 JObj [("type", JStr "delete"); ("ids", JStr "B")];
                 shape "rectangle" "C"]
                (JStr "K")
                (mkCheckpoint (JArr [shape "rectangle" "A"; shape "ellipse" "B"; bound_text "T" "B"])
                   (Some "two shapes"))
                [shape "rectangle" "A"; shape "ellipse" "B"; bound_text "T" "B"]) as Hw.
  cbv zeta in Hw.
  split; [vm_compute; reflexivity|].
  destruct (extractViewportAndElements _) as [ex|] eqn:Hex in Hw; [|discriminate Hex].
  destruct Hw as [_ Hsaved].
  - vm_compute. discriminate.
  - vm_compute. reflexivity.
  - vm_compute. reflexivity.
  - reflexivity.
  - reflexivity.
  - reflexivity.
  - repeat constructor; discriminate.
  - rewrite Hsaved. injection Hex as <-. vm_compute. reflexivity.
Defined.

Lemma stream_directive_loop_null (l : list json) (acc : jsval * gset string) :
  JNull ∈ l -> stream_directive_loop acc l = None.
Proof.
  revert acc. induction l as [|el l IH]; intros acc Hin; [inversion Hin|].
  cbn [stream_directive_loop]. apply elem_of_cons in Hin as [<-|Hin]; [reflexivity|].
  destruct (stream_directive_step acc el); [|reflexivity]. simpl. now apply IH.
Qed.

Lemma stream_directive_loop_not_null (l : list json) (acc : jsval * gset string) :
  Forall not_null l ->
  stream_directive_loop acc l
  = Some (match last (filter (is_type "restoreCheckpoint") l) with
          | Some el => prop el "id"
          | None => fst acc
          end,
          foldl ids_of_entry (snd acc) l).
Proof.
  intros Hl. revert acc. induction Hl as [|el l Hel Hl IH]; intros [i ids]; [reflexivity|].
  cbn [stream_directive_loop]. unfold stream_directive_step.
  rewrite !(type_is_not_null _ el Hel). cbn [mbind option_bind].
  rewrite filter_cons. cbn [foldl]. unfold ids_of_entry at 2.
  destruct (is_type "restoreCheckpoint" el) eqn:Hr.
  - rewrite (is_type_exclusive _ "delete" el Hr) by discriminate.
    rewrite (get_not_null el _ Hel). simpl. rewrite IH. simpl. rewrite last_cons.
    now destruct (last (filter (fun v => is_type "restoreCheckpoint" v) l)).
  - simpl. destruct (is_type "delete" el) eqn:Hd.
    + rewrite (add_delete_ids_not_null el _ Hel). simpl. now rewrite IH.
    + simpl. now rewrite IH.
Qed.

(** X8. A streaming frame reads the restore id and the delete set off the whole
    recovered array: they are the ones the extractor reads off it. *)
Theorem stream_directives_agree (parsed : list json) :
  streamDirectives parsed
  = (fun ex => (restoreId ex, deleteIds ex)) <$> extractViewportAndElements parsed.
Proof.
  destruct (not_null_or parsed) as [Hl|Hin].
  - rewrite (extractViewportAndElements_not_null parsed Hl).
    unfold streamDirectives. rewrite (stream_directive_loop_not_null parsed _ Hl). simpl.
    now destruct (last (filter (fun v => is_type "restoreCheckpoint" v) parsed)).
  - rewrite (extractViewportAndElements_null parsed Hin).
    apply stream_directive_loop_null, Hin.
Qed.

Lemma foldl_ids_of_entry_mono (l : list json) (ids : gset string) :
  ids ⊆ foldl ids_of_entry ids l.
Proof.
  revert ids. induction l as [|el l IH]; intros ids; simpl; [reflexivity|].
  etransitivity; [|apply IH]. unfold ids_of_entry.
  destruct (is_type "delete" el); [|reflexivity].
  generalize (JsString.split ","%char (String_of (nullish_or (prop el "ids") (prop el "id")))).
  intros parts. revert ids. induction parts as [|p parts IHp]; intros ids; simpl; [reflexivity|].
  etransitivity; [|apply IHp]. set_solver.
Qed.

Lemma excludeIncompleteLastItem_take {T} (arr : list T) :
  excludeIncompleteLastItem arr = take (length arr - 1) arr.
Proof.
  unfold excludeIncompleteLastItem. destruct arr as [|a [|b arr]]; reflexivity.
Qed.

Lemma has_mono (ids ids' : gset string) (v : jsval) :
  ids ⊆ ids' -> has ids v = true -> has ids' v = true.
Proof.
  intros Hsub. destruct v as [[]|]; simpl; try discriminate.
  rewrite !bool_decide_eq_true. apply Hsub.
Qed.

(** X9. The elements the extractor returns in a streaming frame, before the
    titles are merged into the shapes, are the beginning of the elements
    it returns in the final frame from the same array: entry by entry the
    same element, which the final frame may besides have hidden. *)
Theorem streaming_draws_a_prefix (parsed : list json) (exs exf : Extracted) :
  extractViewportAndElements (excludeIncompleteLastItem parsed) = Some exs ->
  extractViewportAndElements parsed = Some exf ->
  deleteIds exs ⊆ deleteIds exf
  /\ (length (drawElements exs) <= length (drawElements exf))%nat
  /\ forall k s, drawElements exs !! k = Some s ->
       exists f, drawElements exf !! k = Some f /\ (f = s \/ f = with_opacity_1 s).
Proof.
  intros Hs Hf.
  destruct (not_null_or parsed) as [Hl|Hin];
    [|now rewrite (extractViewportAndElements_null parsed Hin) in Hf].
  rewrite excludeIncompleteLastItem_take in Hs.
  assert (Hl' : Forall not_null (take (length parsed - 1) parsed)) by now apply Forall_take.
  rewrite (extractViewportAndElements_not_null _ Hl') in Hs.
  rewrite (extractViewportAndElements_not_null _ Hl) in Hf.
  injection Hs as <-. injection Hf as <-. cbn [deleteIds drawElements].
  assert (Hparsed : parsed = take (length parsed - 1) parsed ++ drop (length parsed - 1) parsed)
    by (symmetry; apply take_drop).
  set (pre := take (length parsed - 1) parsed) in *.
  set (post := drop (length parsed - 1) parsed) in *.
  assert (Hsub : delete_ids pre ⊆ delete_ids parsed).
  { rewrite Hparsed at 1. unfold delete_ids.
    change (foldl _ ∅ ?l) with (foldl ids_of_entry ∅ l).
    rewrite foldl_app. apply foldl_ids_of_entry_mono. }
  assert (Hfil : filter drawn parsed = filter drawn pre ++ filter drawn post).
  { rewrite Hparsed at 1. apply filter_app. }
  split_ands.
  - exact Hsub.
  - rewrite !length_map, Hfil, length_app. lia.
  - intros k s Hk. rewrite lookup_map in Hk.
    destruct (filter drawn pre !! k) as [el|] eqn:Hel; [|discriminate].
    injection Hk as <-. exists (shown (delete_ids parsed) el).
    assert (Hel' : filter drawn parsed !! k = Some el).
    { rewrite Hfil. now apply lookup_app_l_Some. }
    split; [now rewrite lookup_map, Hel'|].
    unfold shown.
    destruct (has (delete_ids pre) (prop el "id") || has (delete_ids pre) (prop el "containerId")) eqn:Hh.
    + left. apply orb_true_iff in Hh as [Hh|Hh];
        rewrite (has_mono _ _ _ Hsub Hh); [reflexivity | now rewrite orb_true_r].
    + destruct (has (delete_ids parsed) (prop el "id")
                || has (delete_ids parsed) (prop el "containerId")); [now right | now left].
Qed.

Lemma extractor_takes_last_camera_witness :
  viewport <$> extractViewportAndElements
                 [camera 0 0 400 300; shape "rectangle" "A"; camera 100 0 800 600]
  = Some (Some (mkViewport (Some (JNum 100)) (Some (JNum 0))
                  (Some (JNum 800)) (Some (JNum 600)))).
Proof.
  rewrite (extractor_takes_last_camera
             [camera 0 0 400 300; shape "rectangle" "A"; camera 100 0 800 600]).
  - reflexivity.
  - repeat constructor; discriminate.
Defined.

(** The frame that streams [[A, B, delete A]] draws [A] and [B]; the final
    frame draws [A] hidden, and [B]. *)
Lemma streaming_draws_a_prefix_witness :
  exists f, drawElements
              (mkExtracted None
                 [with_opacity_1 (shape "rectangle" "A"); shape "rectangle" "B"] None {[ "A" ]})
            !! 0%nat = Some f
    /\ (f = shape "rectangle" "A" \/ f = with_opacity_1 (shape "rectangle" "A")).
Proof.
  refine (proj2 (proj2 (streaming_draws_a_prefix
            [shape "rectangle" "A"; shape "rectangle" "B";
             JObj [("type", JStr "delete"); ("ids", JStr "A")]]
            (mkExtracted None [shape "rectangle" "A"; shape "rectangle" "B"] None ∅)
            (mkExtracted None
               [with_opacity_1 (shape "rectangle" "A"); shape "rectangle" "B"] None {[ "A" ]})
            _ _)) 0%nat (shape "rectangle" "A") _);
    vm_compute; reflexivity.
Defined.

(** ** File names *)

Lemma chars_rev_onto (s acc : string) :
  chars (JsString.rev_onto s acc) = List.rev (chars s) ++ chars acc.
Proof.
  revert acc. induction s as [|c s IH]; intros acc; simpl; [reflexivity|].
  rewrite IH. simpl. now rewrite <- app_assoc.
Qed.

Lemma chars_rev (s : string) : chars (JsString.rev s) = List.rev (chars s).
Proof. unfold JsString.rev. rewrite chars_rev_onto. simpl. apply app_nil_r. Qed.

Lemma chars_inj (s t : string) : chars s = chars t -> s = t.
Proof.
  intros Heq. rewrite <- (string_of_list_ascii_of_string s), <- (string_of_list_ascii_of_string t).
  unfold chars in Heq. now rewrite Heq.
Qed.

Lemma rev_rev (s : string) : JsString.rev (JsString.rev s) = s.
Proof. apply chars_inj. rewrite !chars_rev. apply rev_involutive. Qed.

Lemma chars_trimStart (s : string) :
  exists p, chars s = p ++ chars (JsString.trimStart s)
            /\ Forall (fun c => JsString.is_js_space c = true) p.
Proof.
  induction s as [|c s (p & Hp & Hall)]; [now exists []|].
  simpl. destruct (JsString.is_js_space c) eqn:Hc.
  - exists (c :: p). simpl. rewrite Hp. split; [reflexivity | now constructor].
  - now exists [].
Qed.

Lemma chars_trimEnd (s : string) :
  exists q, chars s = chars (JsString.trimEnd s) ++ q
            /\ Forall (fun c => JsString.is_js_space c = true) q.
Proof.
  unfold JsString.trimEnd.
  destruct (chars_trimStart (JsString.rev s)) as (p & Hp & Hall).
  exists (List.rev p). rewrite chars_rev in *. split.
  - rewrite <- (rev_involutive (chars s)), Hp, rev_app_distr. reflexivity.
  - now apply Forall_rev.
Qed.

Lemma chars_trim (s : string) :
  exists p q, chars s = p ++ chars (JsString.trim s) ++ q.
Proof.
  unfold JsString.trim.
  destruct (chars_trimStart s) as (p & Hp & _).
  destruct (chars_trimEnd (JsString.trimStart s)) as (q & Hq & _).
  exists p, q. now rewrite Hp, Hq.
Qed.

Lemma chars_substring0 (n : nat) (s : string) :
  chars (String.substring 0 n s) = take n (chars s).
Proof.
  revert n. induction s as [|c s IH]; intros [|n]; simpl; try reflexivity.
  now rewrite IH.
Qed.

Lemma length_chars (s : string) : length (chars s) = String.length s.
Proof. induction s as [|c s IH]; simpl; [reflexivity | now rewrite IH]. Qed.

Lemma get_chars (s : string) (i : nat) : String.get i s = chars s !! i.
Proof.
  revert i. induction s as [|c s IH]; intros [|i]; simpl; try reflexivity. apply IH.
Qed.

Lemma tidy_weaken (b : bool) (l : list ascii) : tidy true l = true -> tidy b l = true.
Proof.
  destruct l as [|c r]; [reflexivity|]. simpl.
  destruct (JsString.is_js_space c); [|auto].
  rewrite !andb_true_iff. intros (_ & [[_ H] _]). discriminate H.
Qed.

Lemma tidy_false (b : bool) (l : list ascii) : tidy b l = true -> tidy false l = true.
Proof.
  destruct b; [|auto]. destruct l as [|c r]; [reflexivity|]. simpl.
  destruct (JsString.is_js_space c); [|auto].
  rewrite !andb_true_iff. intros (_ & [[_ H] _]). discriminate H.
Qed.

Lemma tidy_tail (b : bool) (c : ascii) (l : list ascii) :
  tidy b (c :: l) = true -> tidy false l = true.
Proof.
  simpl. rewrite andb_true_iff. intros [_ H].
  destruct (JsString.is_js_space c); [|exact H].
  apply andb_true_iff in H as [_ H]. now apply (tidy_false true).
Qed.

Lemma tidy_suffix (p l : list ascii) : tidy false (p ++ l) = true -> tidy false l = true.
Proof.
  induction p as [|c p IH]; [auto|]. intros H. apply IH. now apply (tidy_tail false c).
Qed.

Lemma tidy_prefix (b : bool) (l q : list ascii) : tidy b (l ++ q) = true -> tidy b l = true.
Proof.
  revert b. induction l as [|c l IH]; intros b; [reflexivity|]. simpl.
  rewrite !andb_true_iff. intros [Hc H]. split; [exact Hc|].
  destruct (JsString.is_js_space c).
  - rewrite !andb_true_iff in *. destruct H as [H1 H2]. split; [exact H1 | now apply IH].
  - now apply IH.
Qed.

Lemma is_unsafe_replaced (c : ascii) :
  is_unsafe_char (if is_unsafe_char c then "-"%char else c) = false.
Proof. destruct (is_unsafe_char c) eqn:E; [reflexivity | exact E]. Qed.

Lemma is_js_space_replaced (c : ascii) :
  JsString.is_js_space (if is_unsafe_char c then "-"%char else c) = true ->
  JsString.is_js_space c = true.
Proof. destruct (is_unsafe_char c); [discriminate | auto]. Qed.

Lemma tidy_collapse (b : bool) (s : string) :
  tidy b (chars (collapse_spaces b (replace_unsafe s))) = true.
Proof.
  revert b. induction s as [|c s IH]; intros b; [reflexivity|].
  cbn [replace_unsafe collapse_spaces].
  destruct (JsString.is_js_space _) eqn:Hsp.
  - destruct b; [apply IH|]. cbn [chars list_ascii_of_string tidy]. simpl. apply IH.
  - cbn [chars list_ascii_of_string tidy]. rewrite Hsp, is_unsafe_replaced. simpl. apply IH.
Qed.

Lemma tidy_sanitized (name : string) :
  tidy false (chars (JsString.slice0 100
                       (JsString.trim (collapse_spaces false (replace_unsafe name))))) = true.
Proof.
  unfold JsString.slice0. rewrite chars_substring0.
  destruct (chars_trim (collapse_spaces false (replace_unsafe name))) as (p & q & Hpq).
  pose proof (tidy_collapse false name) as Ht. rewrite Hpq in Ht.
  apply tidy_suffix, tidy_prefix in Ht.
  rewrite <- (take_drop 100 (chars (JsString.trim _))) in Ht.
  now apply tidy_prefix in Ht.
Qed.

Lemma tidy_lookup (b : bool) (l : list ascii) (i : nat) (c : ascii) :
  tidy b l = true -> l !! i = Some c ->
  is_unsafe_char c = false
  /\ (JsString.is_js_space c = true -> c = " "%char /\ l !! Datatypes.S i <> Some " "%char).
Proof.
  revert b i. induction l as [|a l IH]; intros b i Ht Hi; [discriminate Hi|].
  destruct i as [|i].
  - injection Hi as ->. simpl in Ht. apply andb_true_iff in Ht as [Hu Ht].
    split; [now apply negb_true_iff|]. intros Hsp. rewrite Hsp in Ht.
    apply andb_true_iff in Ht as [[Hc _]%andb_true_iff Ht].
    split; [now apply Ascii.eqb_eq|].
    destruct l as [|a' l]; simpl; [discriminate|]. intros [= ->].
    simpl in Ht. discriminate Ht.
  - simpl in Hi. simpl in Ht. apply andb_true_iff in Ht as [_ Ht].
    destruct (JsString.is_js_space a).
    + apply andb_true_iff in Ht as [_ Ht]. exact (IH true i Ht Hi).
    + exact (IH false i Ht Hi).
Qed.

Lemma trimStart_head (s : string) (c : ascii) :
  String.get 0 (JsString.trimStart s) = Some c -> JsString.is_js_space c = false.
Proof.
  induction s as [|a s IH]; simpl; [discriminate|].
  destruct (JsString.is_js_space a) eqn:Ha; [exact IH|]. simpl. now intros [= <-].
Qed.

Lemma trim_head (s : string) (c : ascii) :
  String.get 0 (JsString.trim s) = Some c -> JsString.is_js_space c = false.
Proof.
  unfold JsString.trim. intros Hc.
  destruct (chars_trimEnd (JsString.trimStart s)) as (q & Hq & _).
  apply (trimStart_head s). rewrite get_chars in *. rewrite Hq.
  now apply lookup_app_l_Some.
Qed.

(** X10. The sanitized name is a usable file name part: between 1 and 100
    characters, none of them unsafe, no white space but single spaces, and
    no space in front. *)
Theorem sanitizeFilenamePart_safe (name : string) :
  let r := sanitizeFilenamePart name in
  (1 <= String.length r <= 100)%nat
  /\ (forall i c, String.get i r = Some c ->
        is_unsafe_char c = false
        /\ (JsString.is_js_space c = true ->
            c = " "%char /\ i <> 0%nat /\ String.get (Datatypes.S i) r <> Some " "%char)).
Proof.
  intros r. subst r. unfold sanitizeFilenamePart.
  set (t := JsString.trim (collapse_spaces false (replace_unsafe name))).
  destruct (String.eqb_spec (JsString.slice0 100 t) "") as [He|Hne].
  - split; [simpl; lia|]. intros i c Hc.
    assert (Hin : c ∈ chars "diagram") by (rewrite get_chars in Hc; eapply list_elem_of_lookup_2, Hc).
    vm_compute in Hin.
    repeat (apply elem_of_cons in Hin as [->|Hin]; [split; [reflexivity | discriminate]|]).
    inversion Hin.
  - split.
    + split.
      * destruct (JsString.slice0 100 t); [congruence | simpl; lia].
      * unfold JsString.slice0. rewrite <- length_chars, chars_substring0, length_take. lia.
    + intros i c Hc. rewrite get_chars in Hc.
      destruct (tidy_lookup false _ i c (tidy_sanitized name) Hc) as [Hu Hsp].
      split; [exact Hu|]. intros Hs. destruct (Hsp Hs) as [-> Hnext].
      split_ands; [reflexivity | | now rewrite get_chars].
      intros ->. fold t in Hc. unfold JsString.slice0 in Hc.
      rewrite chars_substring0, lookup_take in Hc by lia.
      rewrite <- get_chars in Hc. apply trim_head in Hc. discriminate Hc.
Qed.

Lemma replace_unsafe_id (s : string) :
  Forall (fun c => is_unsafe_char c = false) (chars s) -> replace_unsafe s = s.
Proof.
  induction s as [|c s IH]; [reflexivity|]. simpl. intros Hall.
  apply Forall_cons in Hall as [-> Hall]. now rewrite IH.
Qed.

Lemma collapse_spaces_id (b : bool) (s : string) :
  tidy b (chars s) = true -> collapse_spaces b s = s.
Proof.
  revert b. induction s as [|c s IH]; intros b; [reflexivity|].
  cbn [chars list_ascii_of_string tidy collapse_spaces].
  rewrite andb_true_iff. intros [_ Ht]. destruct (JsString.is_js_space c).
  - apply andb_true_iff in Ht as [[->%Ascii.eqb_eq ->%negb_true_iff]%andb_true_iff Ht].
    now rewrite (IH true Ht).
  - now rewrite (IH false Ht).
Qed.

Lemma tidy_of_lookup (b : bool) (l : list ascii) :
  (forall i c, l !! i = Some c ->
     is_unsafe_char c = false
     /\ (JsString.is_js_space c = true ->
         c = " "%char /\ (i = 0%nat -> b = false) /\ l !! Datatypes.S i <> Some " "%char)) ->
  tidy b l = true.
Proof.
  revert b. induction l as [|a l IH]; intros b Hl; [reflexivity|].
  destruct (Hl 0%nat a eq_refl) as [Hu Hsp]. simpl. rewrite Hu. simpl.
  destruct (JsString.is_js_space a) eqn:Ha.
  - destruct (Hsp eq_refl) as (-> & Hb & Hnext). rewrite (Hb eq_refl). simpl.
    apply IH. intros i c Hc. destruct (Hl (Datatypes.S i) c Hc) as [Hu' Hsp'].
    split; [exact Hu'|]. intros Hs. destruct (Hsp' Hs) as (-> & _ & Hn).
    split_ands; [reflexivity | | exact Hn].
    intros ->. simpl in Hnext. congruence.
  - apply IH. intros i c Hc. destruct (Hl (Datatypes.S i) c Hc) as [Hu' Hsp'].
    split; [exact Hu'|]. intros Hs. destruct (Hsp' Hs) as (-> & _ & Hn). now split_ands.
Qed.

Lemma trimStart_id (s : string) :
  (forall c, String.get 0 s = Some c -> JsString.is_js_space c = false) ->
  JsString.trimStart s = s.
Proof. destruct s as [|c s]; [reflexivity|]. simpl. intros Hc. now rewrite (Hc c eq_refl). Qed.

Lemma lookup_rev_0 {A} (l : list A) : List.rev l !! 0%nat = last l.
Proof.
  induction l as [|a l _] using rev_ind; [reflexivity|].
  now rewrite rev_unit, last_snoc.
Qed.

Lemma trimEnd_id (s : string) :
  (forall c, last (chars s) = Some c -> JsString.is_js_space c = false) ->
  JsString.trimEnd s = s.
Proof.
  intros Hc. unfold JsString.trimEnd. rewrite trimStart_id; [apply rev_rev|].
  intros c. rewrite get_chars, chars_rev. intros Hget. apply Hc.
  now rewrite lookup_rev_0 in Hget.
Qed.

(** X11. A name that is already a usable file name part comes back unchanged. *)
Theorem sanitizeFilenamePart_keeps_clean (name : string) :
  name <> "" ->
  (String.length name <= 100)%nat ->
  (forall i c, String.get i name = Some c ->
     is_unsafe_char c = false
     /\ (JsString.is_js_space c = true ->
         c = " "%char /\ i <> 0%nat
         /\ exists c', String.get (Datatypes.S i) name = Some c' /\ c' <> " "%char)) ->
  sanitizeFilenamePart name = name.
Proof.
  intros Hne Hlen Hc.
  assert (Htidy : tidy true (chars name) = true).
  { apply tidy_of_lookup. intros i c Hi. rewrite <- get_chars in Hi.
    destruct (Hc i c Hi) as [Hu Hsp]. split; [exact Hu|]. intros Hs.
    destruct (Hsp Hs) as (-> & Hi0 & c' & Hc' & Hne').
    split_ands; [reflexivity | congruence |]. rewrite <- get_chars, Hc'. congruence. }
  unfold sanitizeFilenamePart.
  rewrite replace_unsafe_id.
  2:{ apply Forall_lookup. intros i c Hi. rewrite <- get_chars in Hi. apply (Hc i c Hi). }
  rewrite (collapse_spaces_id false) by now apply (tidy_false true).
  assert (Htrim : JsString.trim name = name).
  { unfold JsString.trim. rewrite trimStart_id.
    - apply trimEnd_id. intros c Hlast. destruct (JsString.is_js_space c) eqn:Hs; [|reflexivity].
      rewrite last_lookup in Hlast. rewrite <- get_chars in Hlast.
      destruct (Hc _ c Hlast) as [_ Hsp]. destruct (Hsp Hs) as (_ & _ & c' & Hc' & _).
      rewrite get_chars in Hc'. apply lookup_lt_Some in Hc'. lia.
    - intros c Hget. destruct (JsString.is_js_space c) eqn:Hs; [|reflexivity].
      destruct (Hc _ c Hget) as [_ Hsp]. now destruct (Hsp Hs) as (_ & Hi0 & _). }
  rewrite Htrim. unfold JsString.slice0. rewrite substring0_all by exact Hlen.
  destruct (String.eqb_spec name ""); [contradiction | reflexivity].
Qed.

Lemma sanitizeFilenamePart_keeps_clean_witness :
  sanitizeFilenamePart "Login flow v2" = "Login flow v2".
Proof.
  apply sanitizeFilenamePart_keeps_clean.
  - discriminate.
  - simpl. lia.
  - intros i c Hc.
    do 13 (destruct i as [|i]; [injection Hc as <-; split; [reflexivity|];
                                intros Hs; first [discriminate Hs
                                                 | split_ands; [reflexivity | discriminate
                                                               | eexists; split; [reflexivity | discriminate]]]|]).
    discriminate Hc.
Defined.

(** Slashes become hyphens, runs of white space one space, and the ends are
    trimmed; nothing usable gives [diagram]. *)
Example sanitizeFilenamePart_examples :
  sanitizeFilenamePart "  a/b:  c?  " = "a-b- c-"
  /\ sanitizeFilenamePart "   " = "diagram"
  /\ sanitizeFilenamePart "" = "diagram".
Proof. split_ands; reflexivity. Qed.

(** ** The upload frame *)

Lemma length_uint32_bytes v : length (uint32_bytes v) = 4%nat.
Proof. reflexivity. Qed.

Lemma length_framed b : length (framed b) = (4 + length b)%nat.
Proof. unfold framed. now rewrite length_app, length_uint32_bytes. Qed.

Lemma total_length_spec (bufs : list Uint8Array) (n : nat) :
  total_length bufs n = (n + length (flat_map framed bufs))%nat.
Proof.
  revert n. unfold total_length.
  induction bufs as [|b bufs IH]; intros n; cbn [fold_left flat_map]; [simpl; lia|].
  rewrite IH, length_app, length_framed. lia.
Qed.

Lemma list_inserts_over (pre k z rest : list Z) :
  length k = length z ->
  list_inserts (length pre) k (pre ++ z ++ rest) = pre ++ k ++ rest.
Proof.
  intros Hlen. rewrite <- (Nat.add_0_r (length pre)), list_inserts_app_r.
  f_equal. now apply list_inserts_0_r.
Qed.

Lemma write_buffers_spec (bufs : list Uint8Array) (pre : list Z) (rest : list Z) :
  fold_left write_buffer bufs
    (pre ++ replicate (length (flat_map framed bufs)) 0 ++ rest, length pre)
  = (pre ++ flat_map framed bufs ++ rest, length (pre ++ flat_map framed bufs)).
Proof.
  revert pre. induction bufs as [|b bufs IH]; intros pre.
  - simpl. now rewrite app_nil_r.
  - cbn [fold_left flat_map]. rewrite length_app, replicate_add, length_framed.
    cbn [write_buffer]. unfold setUint32, set_at.
    replace (replicate (4 + length b) 0) with (replicate 4 0 ++ replicate (length b) 0)
      by now rewrite <- replicate_add.
    rewrite <- !app_assoc.
    rewrite (list_inserts_over pre (uint32_bytes _) (replicate 4 0)) by reflexivity.
    replace (length pre + 4)%nat with (length (pre ++ uint32_bytes (Z.of_nat (length b))))
      by (rewrite length_app, length_uint32_bytes; lia).
    rewrite (app_assoc pre (uint32_bytes _)).
    rewrite (list_inserts_over _ b (replicate (length b) 0)) by now rewrite length_replicate.
    replace (length (pre ++ uint32_bytes (Z.of_nat (length b))) + length b)%nat
      with (length ((pre ++ uint32_bytes (Z.of_nat (length b))) ++ b))
      by now rewrite (length_app _ b).
    rewrite (app_assoc _ b), IH. unfold framed. now rewrite <- !app_assoc.
Qed.

Lemma concatBuffers_eq (bufs : list Uint8Array) :
  concatBuffers bufs = uint32_bytes 1 ++ flat_map framed bufs.
Proof.
  unfold concatBuffers, new_Uint8Array, setUint32.
  rewrite total_length_spec, replicate_add.
  rewrite (list_inserts_0_r (uint32_bytes 1) (replicate 4 0)) by reflexivity.
  pose proof (write_buffers_spec bufs (uint32_bytes 1) []) as Hw.
  rewrite !app_nil_r in Hw. change (length (uint32_bytes 1)) with 4%nat in Hw at 1.
  now rewrite Hw.
Qed.

(** X12. The buffer that [concatBuffers] fills is the version word 1 followed by
    every buffer behind its length, with no byte left over or unwritten. *)
Theorem concatBuffers_layout (bufs : list Uint8Array) :
  concatBuffers bufs = [0; 0; 0; 1] ++ flat_map framed bufs
  /\ length (concatBuffers bufs)
     = (4 + 4 * length bufs + length (concat bufs))%nat.
Proof.
  rewrite concatBuffers_eq. split; [reflexivity|].
  rewrite length_app, length_uint32_bytes.
  induction bufs as [|b bufs IH]; [reflexivity|].
  cbn [flat_map concat length]. rewrite !length_app, length_framed. lia.
Qed.

Lemma uint32_bytes_value (n : Z) :
  0 <= n < 2 ^ 32 ->
  match uint32_bytes n with
  | [a; b; c; d] => n = a * 2 ^ 24 + b * 2 ^ 16 + c * 2 ^ 8 + d
  | _ => False
  end.
Proof.
  intros Hn. unfold uint32_bytes. rewrite (Z.mod_small n) by exact Hn.
  change (2 ^ 24) with 16777216. change (2 ^ 16) with 65536. change (2 ^ 8) with 256.
  pose proof (Z.div_mod n 16777216 ltac:(lia)).
  pose proof (Z.div_mod n 65536 ltac:(lia)).
  pose proof (Z.div_mod n 256 ltac:(lia)).
  pose proof (Z.div_mod (n / 65536) 256 ltac:(lia)).
  pose proof (Z.div_mod (n / 256) 256 ltac:(lia)).
  rewrite Z.div_div in * by lia. change (65536 * 256) with 16777216 in *.
  change (256 * 256) with 65536 in *. lia.
Qed.

Lemma uint32_bytes_inj (n m : Z) :
  0 <= n < 2 ^ 32 -> 0 <= m < 2 ^ 32 -> uint32_bytes n = uint32_bytes m -> n = m.
Proof.
  intros Hn Hm Heq. pose proof (uint32_bytes_value n Hn) as Vn.
  pose proof (uint32_bytes_value m Hm) as Vm. rewrite Heq in Vn.
  destruct (uint32_bytes m) as [|a [|b [|c [|d [|]]]]]; try contradiction. lia.
Qed.

Lemma flat_map_framed_inj (bufs bufs' : list Uint8Array) :
  Forall (fun b => Z.of_nat (length b) < 2 ^ 32) bufs ->
  Forall (fun b => Z.of_nat (length b) < 2 ^ 32) bufs' ->
  flat_map framed bufs = flat_map framed bufs' -> bufs = bufs'.
Proof.
  intros Hb. revert bufs'. induction Hb as [|b bufs Hlen Hb IH]; intros bufs' Hb' Heq.
  - destruct bufs' as [|b' bufs']; [reflexivity|]. discriminate Heq.
  - destruct Hb' as [|b' bufs' Hlen' Hb']; [discriminate Heq|].
    cbn [flat_map] in Heq. unfold framed in Heq. rewrite <- !app_assoc in Heq.
    apply app_inj_1 in Heq as [Hlen_eq Heq]; [|reflexivity].
    apply uint32_bytes_inj in Hlen_eq; [|lia|lia].
    apply app_inj_1 in Heq as [-> Heq]; [|lia].
    f_equal. now apply IH.
Qed.

(** X13. The framing is unambiguous: two sequences of buffers that give the same
    bytes are the same sequence. *)
Theorem concatBuffers_inj (bufs bufs' : list Uint8Array) :
  Forall (fun b => Z.of_nat (length b) < 2 ^ 32) bufs ->
  Forall (fun b => Z.of_nat (length b) < 2 ^ 32) bufs' ->
  concatBuffers bufs = concatBuffers bufs' -> bufs = bufs'.
Proof.
  intros Hb Hb' Heq.
  rewrite !concatBuffers_eq in Heq.
  apply app_inv_head in Heq. now apply flat_map_framed_inj.
Qed.

Lemma concatBuffers_inj_witness :
  [[123; 125]; [1; 2; 3]] = [[123; 125]; [1; 2; 3]]
  /\ concatBuffers [[123; 125]; [1; 2; 3]]
     = [0; 0; 0; 1; 0; 0; 0; 2; 123; 125; 0; 0; 0; 3; 1; 2; 3].
Proof.
  split; [|reflexivity].
  apply concatBuffers_inj; [repeat constructor | repeat constructor | reflexivity].
Defined.

(** ** [save_checkpoint] *)

Section SaveCheckpointFacts.

Context {S : Type} `{CheckpointStore S}.
Variable JSON_parse : string -> option json.
Variable SyntaxError_message : string -> string.
Variable TypeError_message : string.

Let handler := save_checkpoint JSON_parse SyntaxError_message TypeError_message.


End SaveCheckpointFacts.

Section SaveThenRestore.

Variable JSON_parse : string -> option json.
Variable SyntaxError_message : string -> string.
Variable TypeError_message : string.
Variable ratioHint : list json -> string.

Let saver :=
  save_checkpoint (S := gmap string Checkpoint) JSON_parse SyntaxError_message TypeError_message.
Let creator :=
  create_view (S := gmap string Checkpoint) JSON_parse SyntaxError_message ratioHint.

Lemma save_checkpoint_ok (id data : string) (st : gmap string Checkpoint) (parsed : json) :
  Z.of_nat (String.length data) <= MAX_INPUT_BYTES ->
  JSON_parse data = Some parsed ->
  not_null parsed ->
  saver id data st
  = mkOutcome (Some (mkResult "ok" false None))
      (<[ id := mkCheckpoint
                  (elements_or (prop parsed "elements")
                     (default (JArr []) (elements <$> st !! id)))
                  (st !! id ≫= plan) ]> st)
      [EvParse; EvLoad (JStr id); EvSave id].
Proof.
  intros Hlen Hparse Hnn. unfold saver, save_checkpoint.
  assert ((Z.of_nat (String.length data) >? MAX_INPUT_BYTES) = false) as ->.
  { destruct (Z.gtb_spec (Z.of_nat (String.length data)) MAX_INPUT_BYTES); [lia | reflexivity]. }
  rewrite Hparse, (get_not_null parsed "elements" Hnn). cbn [load MapStore].
  now destruct (st !! id) as [cp|].
Qed.

(** X15. Saving data over a checkpoint replaces its elements by the
    [elements] member of the data when that member is not nullish, whatever
    its value, and keeps them otherwise; it keeps the plan and touches no
    other checkpoint. An id that the store does not hold gets a checkpoint
    without a plan, with an empty scene when the data has no elements.
    Data without elements over a checkpoint changes nothing. *)
Theorem save_checkpoint_merges (id data : string) (st : gmap string Checkpoint)
    (parsed : json) :
  Z.of_nat (String.length data) <= MAX_INPUT_BYTES ->
  JSON_parse data = Some parsed ->
  not_null parsed ->
  let o := saver id data st in
  let member := prop parsed "elements" in
  result o = Some (mkResult "ok" false None)
  /\ (forall v, member = Some v -> v <> JNull ->
      store_after o !! id = Some (mkCheckpoint v (st !! id ≫= plan)))
  /\ (nullish_or member None = None ->
      store_after o !! id
      = Some (mkCheckpoint (default (JArr []) (elements <$> st !! id)) (st !! id ≫= plan)))
  /\ (forall id', id' <> id -> store_after o !! id' = st !! id')
  /\ (nullish_or member None = None -> is_Some (st !! id) -> store_after o = st).
Proof.
  intros Hlen Hparse Hnn o member. subst o.
  rewrite (save_checkpoint_ok id data st parsed Hlen Hparse Hnn). fold member.
  simpl. split_ands.
  - reflexivity.
  - intros v Hv Hne. rewrite lookup_insert_eq, Hv. unfold elements_or.
    now destruct v.
  - intros Hnone. rewrite lookup_insert_eq. unfold elements_or. now rewrite Hnone.
  - intros id' Hne. now apply lookup_insert_ne.
  - intros Hnone [cp Hcp]. unfold elements_or. rewrite Hnone, Hcp. simpl.
    destruct cp as [els p]. simpl. now apply insert_id.
Qed.

(** X16. The elements saved over a checkpoint are the base of the next
    [create_view] that restores it, behind which the new elements come; the
    plan of the checkpoint is kept unless the call brings one. *)
Theorem save_checkpoint_then_restore (c data e2 : string) (p2 : option string) (u2 : string)
    (st : gmap string Checkpoint) (cp : Checkpoint) (parsed r : json)
    (edited els2 : list json) :
  Z.of_nat (String.length data) <= MAX_INPUT_BYTES ->
  Z.of_nat (String.length e2) <= MAX_INPUT_BYTES ->
  st !! c = Some cp ->
  c <> "" ->
  JSON_parse data = Some parsed ->
  prop parsed "elements" = Some (JArr edited) ->
  Forall not_null edited ->
  JSON_parse e2 = Some (JArr (r :: els2)) ->
  is_type "restoreCheckpoint" r = true ->
  prop r "id" = Some (JStr c) ->
  Forall (fun el => not_null el /\ supplied el = true) els2 ->
  store_after (creator e2 p2 u2 (store_after (saver c data st))) !! checkpointId_of u2
  = Some (mkCheckpoint (JArr (edited ++ els2))
            (match p2 with Some p => Some p | None => Some (default "" (plan cp)) end)).
Proof.
  intros Hl1 Hl2 Hcp Hc Hp1 Hels Hed Hp2 Hr Hid He2.
  assert (Hnn : not_null parsed) by (intros ->; discriminate Hels).
  rewrite (save_checkpoint_ok c data st parsed Hl1 Hp1 Hnn). simpl. unfold creator.
  rewrite (create_view_restore_plain JSON_parse SyntaxError_message ratioHint e2 p2 u2 _
             r els2 c (mkCheckpoint (JArr edited) (plan cp)) edited Hl2 Hp2 Hr Hid Hc He2).
  - simpl. now rewrite lookup_insert_eq.
  - simpl. rewrite lookup_insert_eq, Hcp, Hels. reflexivity.
  - reflexivity.
  - exact Hed.
Qed.

End SaveThenRestore.

(** A member that is no array is saved as it is. *)
Lemma save_checkpoint_merges_witness :
  store_after
    (save_checkpoint Json.parse example_message example_type_error "K"
       (JsString.dq "{'elements':[{'type':'diamond','id':'D'}]}") example_store) !! "K"
  = Some (mkCheckpoint (JArr [shape "diamond" "D"]) (Some "two shapes"))
  /\ store_after
       (save_checkpoint Json.parse example_message example_type_error "K"
          (JsString.dq "{'elements':5}") example_store) !! "K"
     = Some (mkCheckpoint (JNum 5) (Some "two shapes")).
Proof.
  split.
  - refine (proj1 (proj2 (save_checkpoint_merges Json.parse example_message example_type_error
              "K" (JsString.dq "{'elements':[{'type':'diamond','id':'D'}]}") example_store
              (JObj [("elements", JArr [shape "diamond" "D"])]) _ _ _))
              (JArr [shape "diamond" "D"]) _ _).
    + vm_compute. discriminate.
    + vm_compute. reflexivity.
    + discriminate.
    + reflexivity.
    + discriminate.
  - refine (proj1 (proj2 (save_checkpoint_merges Json.parse example_message example_type_error
              "K" (JsString.dq "{'elements':5}") example_store
              (JObj [("elements", JNum 5)]) _ _ _)) (JNum 5) _ _).
    + vm_compute. discriminate.
    + vm_compute. reflexivity.
    + discriminate.
    + reflexivity.
    + discriminate.
Defined.

Lemma save_checkpoint_then_restore_witness :
  store_after
    (create_view Json.parse example_message example_hint
       (JsString.dq "[{'type':'restoreCheckpoint','id':'K'},{'type':'ellipse','id':'E'}]")
       None example_uuid
       (store_after
          (save_checkpoint Json.parse example_message example_type_error "K"
             (JsString.dq "{'elements':[{'type':'diamond','id':'D'}]}") example_store)))
    !! "123e4567e89b12d3a4"
  = Some (mkCheckpoint (JArr [shape "diamond" "D"; shape "ellipse" "E"]) (Some "two shapes")).
Proof.
  apply (save_checkpoint_then_restore Json.parse example_message example_type_error example_hint
           "K" (JsString.dq "{'elements':[{'type':'diamond','id':'D'}]}")
           (JsString.dq "[{'type':'restoreCheckpoint','id':'K'},{'type':'ellipse','id':'E'}]")
           None example_uuid example_store
           (mkCheckpoint (JArr [shape "rectangle" "A"; shape "ellipse" "B"; bound_text "T" "B"])
              (Some "two shapes"))
           (JObj [("elements", JArr [shape "diamond" "D"])])
           (shape "restoreCheckpoint" "K") [shape "diamond" "D"] [shape "ellipse" "E"]).
  - vm_compute. discriminate.
  - vm_compute. discriminate.
  - reflexivity.
  - discriminate.
  - vm_compute. reflexivity.
  - reflexivity.
  - repeat constructor; discriminate.
  - vm_compute. reflexivity.
  - reflexivity.
  - reflexivity.
  - repeat constructor; discriminate.
Defined.

(** ** Geometry passes, one by one *)

Module GeometryMore.
Import Geometry GeometryFacts.

Lemma merge_refs_prefix (base add : list BoundRef) :
  exists extra, merge_refs base add = base ++ extra.
Proof.
  unfold merge_refs. revert base. induction add as [|ref add IH]; intros base.
  - exists []. simpl. now rewrite app_nil_r.
  - simpl. destruct (existsb _ base); [apply IH|].
    destruct (IH (base ++ [ref])) as (extra & ->). exists (ref :: extra).
    now rewrite <- app_assoc.
Qed.

Lemma Forall2_map_diag {A B} (P : A -> B -> Prop) (f : A -> B) (l : list A) :
  (forall a, a ∈ l -> P a (f a)) -> Forall2 P l (List.map f l).
Proof.
  induction l as [|a l IH]; intros Hl; simpl; constructor.
  - apply Hl. now left.
  - apply IH. intros b Hb. apply Hl. now right.
Qed.

(** X17. The binding pass keeps every element in its place and touches nothing
    but bindings and back-references: a binding that is already there is
    kept, an element that is no arrow or line gets none, and
    back-references are only added behind the ones that are there. *)
Theorem ensureArrowBindings_keeps_elements (els : list element) :
  Forall2
    (fun a b =>
       geo b = geo a /\ roughness b = roughness a
       /\ startArrowhead b = startArrowhead a /\ endArrowhead b = endArrowhead a
       /\ groupIds b = groupIds a
       /\ (forall s, startBinding a = Some s -> startBinding b = Some s)
       /\ (forall e, endBinding a = Some e -> endBinding b = Some e)
       /\ (is_arrow_or_line a = false ->
           startBinding b = startBinding a /\ endBinding b = endBinding a)
       /\ (boundElements b = boundElements a
           \/ exists extra, boundElements b = Some (default [] (boundElements a) ++ extra)))
    els (ensureArrowBindings els).
Proof.
  destruct (ensureArrowBindings_map els) as (bu & ->).
  set (bindable := filter (type_in BINDABLE_SHAPES) els).
  apply Forall2_map_diag. intros a _.
  destruct (bound_element_fields bindable a) as (Hg & Hb & Hr & Hs & He & Hgr).
  destruct (add_bound_fields bu (bound_element bindable a)) as (Hg' & Hr' & Hs' & He' & Hgr').
  destruct (add_bound_bindings bu (bound_element bindable a)) as (Hsb & Heb & _).
  rewrite Hg', Hr', Hs', He', Hgr', Hsb, Heb. split_ands; try assumption.
  - intros s Hsa. unfold bound_element. destruct (negb _); [exact Hsa|]. simpl.
    now apply chosen_start_Some.
  - intros e Hea. unfold bound_element. destruct (negb _); [exact Hea|]. simpl.
    now apply chosen_end_Some.
  - intros Harr. now rewrite (bound_element_shape bindable a Harr).
  - unfold add_bound. destruct (bu !! id (bound_element bindable a)) as [add|]; [|now left].
    right. simpl. rewrite Hb.
    destruct (merge_refs_prefix (default [] (boundElements a)) add) as (extra & ->).
    now exists extra.
Qed.

(** X18. After the binding pass every binding of an arrow or line is recorded on
    the elements it names: each of them carries a back-reference to the
    arrow. *)
Theorem ensureArrowBindings_records_bindings (els : list element) (a el : element)
    (b : Binding) :
  a ∈ ensureArrowBindings els -> el ∈ ensureArrowBindings els ->
  is_arrow_or_line a = true ->
  id el = elementId b ->
  startBinding a = Some b \/ (endBinding a = Some b /\ elementId b <> None) ->
  exists refs r, boundElements el = Some refs /\ r ∈ refs /\ ref_id r = id a.
Proof.
  intros Ha Hel Harr Hid Hb.
  destruct (ensureArrowBindings_recorded els a el Ha Hel Harr) as [Hstart Hend].
  assert (Hgoal : has_ref el (id a)).
  { destruct Hb as [Hs|[He Hsome]].
    - exact (Hstart b Hs Hid).
    - destruct (decide (elementId b = elementId_of (startBinding a))) as [Heq|Hne].
      + destruct (startBinding a) as [s|] eqn:Hs; [|now simpl in Heq].
        simpl in Heq. apply (Hstart s eq_refl). congruence.
      + apply (Hend b He); [|exact Hid].
        unfold neq_id. now apply negb_true_iff, bool_decide_eq_false. }
  destruct Hgoal as (refs & Hrefs & r & Hr & Hi). now exists refs, r.
Qed.

Lemma is_arrow_set_arrowheads s e a :
  is_arrow_or_line (set_arrowheads s e a) = is_arrow_or_line a.
Proof. reflexivity. Qed.

(** X19. Forcing the arrowheads twice is forcing them once; afterwards every
    arrowhead of an arrow or line is [none] or [triangle], and nothing else
    has changed. *)
Theorem forceTriangleArrowhead_idempotent (els : list element) :
  forceTriangleArrowhead (forceTriangleArrowhead els) = forceTriangleArrowhead els
  /\ Forall2
       (fun a b =>
          b = set_arrowheads (startArrowhead b) (endArrowhead b) a
          /\ (is_arrow_or_line a = false -> b = a)
          /\ (is_arrow_or_line a = true ->
              forall h, startArrowhead b = Some h \/ endArrowhead b = Some h ->
                        h = "none" \/ h = "triangle"))
       els (forceTriangleArrowhead els).
Proof.
  assert (Hheads : forall a h, triangle_if_set a = Some h -> h = "none" \/ h = "triangle").
  { intros [s|] h; [|discriminate]. simpl. destruct (String.eqb_spec s "none") as [->|_]; simpl.
    - intros [= <-]. now left.
    - intros [= <-]. now right. }
  split.
  - unfold forceTriangleArrowhead. rewrite List.map_map. apply map_ext. intros a.
    destruct (is_arrow_or_line a) eqn:Harr; cbn [negb].
    + rewrite is_arrow_set_arrowheads, Harr. cbn [negb]. simpl.
      now rewrite !triangle_if_set_idem.
    + now rewrite Harr.
  - unfold forceTriangleArrowhead. apply Forall2_map_diag. intros a _.
    destruct (is_arrow_or_line a) eqn:Harr; simpl.
    + split_ands; [reflexivity | discriminate |]. intros _ h [Hh|Hh]; eapply Hheads, Hh.
    + split_ands; [now destruct a | reflexivity | discriminate].
Qed.

(** X20. The draw order drops no element and invents none, whatever the ids: its
    members are those of the scene, and it is at least as long. *)
Theorem reorder_keeps_every_element (els : list element) :
  (forall a, a ∈ reorderElementsForArrows els <-> a ∈ els)
  /\ (length els <= length (reorderElementsForArrows els))%nat.
Proof.
  split; [intros a; apply elem_of_reorder|].
  unfold reorderElementsForArrows. destruct (classify els) as [cs ns].
  generalize (arrow_ids els). intros ars. cbv zeta. rewrite !length_app.
  induction els as [|a els IH]; [simpl; lia|].
  rewrite !filter_cons.
  destruct (in_set cs a), (in_set ars a), (in_set ns a); simpl; lia.
Qed.

(** *** Grouping a container with what it holds *)

Lemma extended_keeps (fresh : string -> Prop) (l l' : list element) (j : nat) (a : element)
    (g : string) :
  Forall2 (groups_extended fresh) l l' ->
  l !! j = Some a -> g ∈ default [] (groupIds a) ->
  exists b, l' !! j = Some b /\ g ∈ default [] (groupIds b).
Proof.
  intros Hrel Ha Hg. destruct (Forall2_lookup_l _ _ _ _ _ Hrel Ha) as (b & Hb & _ & extra & He & _).
  exists b. split; [exact Hb|]. rewrite He. apply elem_of_app. now left.
Qed.

Lemma extended_id (fresh : string -> Prop) (l l' : list element) (j : nat) (a : element) :
  Forall2 (groups_extended fresh) l l' ->
  l !! j = Some a -> exists b, l' !! j = Some b /\ id b = id a.
Proof.
  intros Hrel Ha. destruct (Forall2_lookup_l _ _ _ _ _ Hrel Ha) as (b & Hb & Hs & _).
  exists b. split; [exact Hb|]. now apply id_geo, same_but_groups_geo.
Qed.

Lemma tag_member_adds resultById (g : string) (result : list element) (m r : element)
    (idx : nat) :
  resultById !! id m = Some idx -> result !! idx = Some r ->
  exists r', tag_member resultById g result m !! idx = Some r'
             /\ g ∈ default [] (groupIds r').
Proof.
  intros Hidx Hr. unfold tag_member. rewrite Hidx, Hr.
  case_bool_decide as Hin.
  - now exists r.
  - eexists. split.
    + apply list_lookup_insert_eq. eapply lookup_lt_Some, Hr.
    + simpl. apply elem_of_app. right. now left.
Qed.

Lemma fold_tag_member_adds resultById (g : string) (members result : list element)
    (m : element) (idx : nat) :
  m ∈ members -> resultById !! id m = Some idx -> (idx < length result)%nat ->
  exists r', fold_left (tag_member resultById g) members result !! idx = Some r'
             /\ g ∈ default [] (groupIds r').
Proof.
  revert result. induction members as [|m0 members IH]; intros result Hm Hidx Hlt; [inversion Hm|].
  simpl.
  assert (Hstep : Forall2 (groups_extended (fun _ => True)) result
                    (tag_member resultById g result m0)).
  { apply tag_member_extends; [exact I|].
    apply Forall_Forall2_diag, Forall_forall. intros a _. apply groups_extended_refl. }
  apply elem_of_cons in Hm as [->|Hm].
  - destruct (lookup_lt_is_Some_2 _ _ Hlt) as [r Hr].
    destruct (tag_member_adds resultById g result m0 r idx Hidx Hr) as (r' & Hr' & Hg).
    eapply (extended_keeps (fun _ => True)); [|exact Hr' | exact Hg].
    apply fold_tag_member_extends; [exact I|].
    apply Forall_Forall2_diag, Forall_forall. intros a _. apply groups_extended_refl.
  - apply IH; [exact Hm | exact Hidx |].
    now rewrite <- (Forall2_length _ _ _ Hstep).
Qed.

Lemma fold_group_parent_extends randomUUID withBounds resultById (rest : list element)
    (st : list element * nat) :
  let st' := fold_left (group_parent randomUUID withBounds resultById) rest st in
  (snd st <= snd st')%nat
  /\ Forall2 (groups_extended (drawn_between randomUUID (snd st) (snd st'))) (fst st) (fst st').
Proof.
  cbv zeta.
  assert (Hgen : forall n l, (n <= snd st)%nat ->
            Forall2 (groups_extended (drawn_between randomUUID n (snd st))) l (fst st) ->
            let st' := fold_left (group_parent randomUUID withBounds resultById) rest st in
            (n <= snd st')%nat
            /\ Forall2 (groups_extended (drawn_between randomUUID n (snd st'))) l (fst st')).
  { revert st. induction rest as [|p rest IH]; intros st n l Hn Hrel; simpl; [now split|].
    destruct (group_parent_extends randomUUID withBounds resultById n l st p Hn Hrel) as [Hn' Hrel'].
    now apply IH. }
  apply Hgen; [lia|].
  apply Forall_Forall2_diag, Forall_forall. intros a _. apply groups_extended_refl.
Qed.

Lemma fold_group_parent_tags randomUUID withBounds resultById (byArea : list element)
    (st : list element * nat) (p c : element) (pb : Bounds) (ip ic : nat) :
  p ∈ byArea ->
  elementBounds p = Some pb ->
  c ∈ withBounds -> neq_id (id c) (id p) = true -> inside_of pb c = true ->
  resultById !! id p = Some ip -> resultById !! id c = Some ic ->
  (ip < length (fst st))%nat -> (ic < length (fst st))%nat ->
  let st' := fold_left (group_parent randomUUID withBounds resultById) byArea st in
  exists k p' c', (snd st <= k < snd st')%nat
    /\ fst st' !! ip = Some p' /\ fst st' !! ic = Some c'
    /\ randomUUID k ∈ default [] (groupIds p')
    /\ randomUUID k ∈ default [] (groupIds c').
Proof.
  intros Hp Hpb Hc Hne Hin Hip Hic. revert st.
  induction byArea as [|p0 byArea IH]; intros st Hlp Hlc; [inversion Hp|].
  cbn [fold_left]. set (st1 := group_parent randomUUID withBounds resultById st p0).
  destruct (fold_group_parent_extends randomUUID withBounds resultById byArea st1) as [Hmono Hext].
  assert (Hstep : (snd st <= snd st1)%nat /\ length (fst st1) = length (fst st)).
  { destruct (group_parent_extends randomUUID withBounds resultById (snd st) (fst st) st p0
                ltac:(lia)) as [Hn Hrel].
    - apply Forall_Forall2_diag, Forall_forall. intros a _. apply groups_extended_refl.
    - split; [exact Hn|]. symmetry. exact (Forall2_length _ _ _ Hrel). }
  apply elem_of_cons in Hp as [<-|Hp].
  - (* the turn of [p] *)
    assert (Hchildren : c ∈ filter (fun c => neq_id (id c) (id p) && inside_of pb c) withBounds).
    { apply elem_of_filter_bool. split; [now rewrite Hne, Hin | exact Hc]. }
    assert (Hst1 : st1 = (fold_left (tag_member resultById (randomUUID (snd st)))
                            (p :: filter (fun c => neq_id (id c) (id p) && inside_of pb c) withBounds)
                            (fst st), Datatypes.S (snd st))).
    { subst st1. unfold group_parent. rewrite Hpb.
      destruct (filter _ withBounds) as [|c0 cs] eqn:Hf; [inversion Hchildren|]. reflexivity. }
    destruct (fold_tag_member_adds resultById (randomUUID (snd st))
                (p :: filter (fun c => neq_id (id c) (id p) && inside_of pb c) withBounds)
                (fst st) p ip ltac:(now left) Hip Hlp) as (p1 & Hp1 & Hgp).
    destruct (fold_tag_member_adds resultById (randomUUID (snd st))
                (p :: filter (fun c => neq_id (id c) (id p) && inside_of pb c) withBounds)
                (fst st) c ic ltac:(now right) Hic Hlc) as (c1 & Hc1 & Hgc).
    rewrite Hst1 in Hext, Hmono. cbn [fst snd] in Hext, Hmono.
    destruct (extended_keeps _ _ _ ip p1 _ Hext Hp1 Hgp) as (p' & Hp' & Hgp').
    destruct (extended_keeps _ _ _ ic c1 _ Hext Hc1 Hgc) as (c' & Hc' & Hgc').
    exists (snd st), p', c'. fold st1. rewrite Hst1. split; [cbn [snd]; lia|].
    split_ands; assumption.
  - destruct Hstep as [Hn Hlen].
    destruct (IH Hp st1 ltac:(lia) ltac:(lia)) as (k & p' & c' & Hk & Hrest).
    exists k, p', c'. split; [lia | exact Hrest].
Qed.

(** X21. A container and every shape it holds end up in one group: the id drawn
    at the turn of the container is among the group ids of both. *)
Theorem assignGroupIds_groups_cluster (randomUUID : nat -> string) (n : nat)
    (els : list element) (p c : element) (pb : Bounds) (ip ic : nat) :
  NoDup (List.map id els) ->
  els !! ip = Some p -> els !! ic = Some c ->
  type_in CONTAINER_SHAPES p = true ->
  type_in HAS_BOUNDS c = true ->
  id c <> id p ->
  elementBounds p = Some pb ->
  inside_of pb c = true ->
  let r := assignGroupIdsForNestedShapes randomUUID n els in
  exists k p' c', (n <= k < snd r)%nat
    /\ fst r !! ip = Some p' /\ fst r !! ic = Some c'
    /\ id p' = id p /\ id c' = id c
    /\ randomUUID k ∈ default [] (groupIds p')
    /\ randomUUID k ∈ default [] (groupIds c').
Proof.
  intros Hnd Hp Hc Htp Htc Hne Hpb Hin r.
  pose proof (assignGroupIds_extends randomUUID n els) as Hall. cbv zeta in Hall. fold r in Hall.
  destruct (type_in_container p Htp) as (Hbp & Hpp & _).
  pose proof (has_bounds_not_pseudo c Htc) as Hpc.
  assert (Hpl : p ∈ els) by (eapply list_elem_of_lookup_2, Hp).
  assert (Hcl : c ∈ els) by (eapply list_elem_of_lookup_2, Hc).
  set (drawable := filter (fun el => negb (type_in PSEUDO_TYPES el)) els).
  set (containers := filter (type_in CONTAINER_SHAPES) drawable).
  set (withBounds := filter (type_in HAS_BOUNDS) drawable).
  assert (Hpd : p ∈ drawable) by (apply elem_of_filter_bool; split; [now rewrite Hpp | exact Hpl]).
  assert (Hcd : c ∈ drawable) by (apply elem_of_filter_bool; split; [now rewrite Hpc | exact Hcl]).
  assert (Hpc' : p ∈ containers) by (apply elem_of_filter_bool; now split).
  assert (Hpw : p ∈ withBounds) by (apply elem_of_filter_bool; now split).
  assert (Hcw : c ∈ withBounds) by (apply elem_of_filter_bool; now split).
  assert (Hguard : (length containers <? 1)%nat || (length withBounds <? 2)%nat = false).
  { apply orb_false_iff. split; apply Nat.ltb_ge.
    - destruct containers; [inversion Hpc' | simpl; lia].
    - destruct withBounds as [|w1 [|w2 ws]]; [inversion Hpw | | simpl; lia].
      apply list_elem_of_singleton in Hpw, Hcw. congruence. }
  set (result := List.map (fun el => set_groupIds (Some (default [] (groupIds el))) el) els).
  assert (Hids : List.map id result = List.map id els).
  { subst result. rewrite List.map_map. now apply map_ext. }
  assert (Hrp : result !! ip = Some (set_groupIds (Some (default [] (groupIds p))) p)).
  { subst result. now rewrite lookup_map, Hp. }
  assert (Hrc : result !! ic = Some (set_groupIds (Some (default [] (groupIds c))) c)).
  { subst result. now rewrite lookup_map, Hc. }
  assert (Hndr : NoDup (List.map id result)) by now rewrite Hids.
  pose proof (index_by_id_lookup result ip _ Hndr Hrp) as Hip.
  pose proof (index_by_id_lookup result ic _ Hndr Hrc) as Hic.
  cbn [id set_groupIds] in Hip, Hic.
  destruct (fold_group_parent_tags randomUUID withBounds (index_by_id result)
              (stable_sort larger containers) (result, n) p c pb ip ic) as (k & p' & c' & Hk & Hp' & Hc' & Hgp & Hgc).
  - now apply elem_of_stable_sort.
  - exact Hpb.
  - exact Hcw.
  - unfold neq_id. now apply negb_true_iff, bool_decide_eq_false.
  - exact Hin.
  - exact Hip.
  - exact Hic.
  - eapply lookup_lt_Some, Hrp.
  - eapply lookup_lt_Some, Hrc.
  - assert (Hr : r = fold_left (group_parent randomUUID withBounds (index_by_id result))
                      (stable_sort larger containers) (result, n)).
    { subst r. unfold assignGroupIdsForNestedShapes.
      fold drawable. fold containers. fold withBounds. now rewrite Hguard. }
    rewrite <- Hr in Hk, Hp', Hc'. cbn [snd] in Hk.
    exists k, p', c'. split; [exact Hk|]. split_ands; try assumption.
    + destruct (extended_id _ _ _ ip p Hall Hp) as (b & Hb & Hi). congruence.
    + destruct (extended_id _ _ _ ic c Hall Hc) as (b & Hb & Hi). congruence.
Qed.

(** X22. Grouping changes nothing but group ids, and those by appending only:
    every element keeps the group ids it had, in order, followed by ids
    drawn during the run. *)
Theorem assignGroupIds_only_appends (randomUUID : nat -> string) (n : nat)
    (els : list element) :
  let r := assignGroupIdsForNestedShapes randomUUID n els in
  (n <= snd r)%nat
  /\ Forall2
       (fun a b =>
          b = set_groupIds (groupIds b) a
          /\ exists extra,
               default [] (groupIds b) = default [] (groupIds a) ++ extra
               /\ Forall (fun g => exists k, (n <= k < snd r)%nat /\ g = randomUUID k) extra)
       els (fst r).
Proof.
  intros r. split; [|exact (assignGroupIds_extends randomUUID n els)].
  subst r. unfold assignGroupIdsForNestedShapes. destruct (_ || _); [simpl; lia|].
  match goal with |- context [fold_left ?f ?l ?st] =>
    exact (proj1 (fold_group_parent_extends randomUUID _ _ l st)) end.
Qed.

(** *** Distances *)

Lemma ltb_not_nan (a b : float) : (a <? b)%float = true -> is_nan a = false /\ is_nan b = false.
Proof.
  intros Hab. split; apply not_true_is_false; intros Hnan.
  - rewrite (NumberFacts.ltb_nan_l a b Hnan) in Hab. discriminate Hab.
  - rewrite (NumberFacts.ltb_nan_r a b Hnan) in Hab. discriminate Hab.
Qed.

(** [Math.max(a, 0, c)] is [0] when [a] and [c] are negative. *)
Lemma Math_max3_negative (a c : float) :
  (a <? 0)%float = true -> (c <? 0)%float = true -> Number.Math_max3 a 0 c = 0%float.
Proof.
  intros Ha Hc. destruct (ltb_not_nan a 0 Ha) as [Hna _]. destruct (ltb_not_nan c 0 Hc) as [Hnc _].
  unfold Number.Math_max3.
  assert (Number.Math_max a 0 = 0%float) as ->.
  { unfold Number.Math_max. rewrite Hna, Ha. reflexivity. }
  unfold Number.Math_max. rewrite Hnc, (NumberFacts.ltb_asym c 0 Hc), Hc. reflexivity.
Qed.

(** X23. The distance to a shape is zero for every point inside its
    rectangle, off the border, and such a point is within the binding
    radius. *)
Theorem distToRect_zero (px py : float) (el : element) :
  (x el <? px)%float = true -> (px <? x el + default 0 (width el))%float = true ->
  (y el <? py)%float = true -> (py <? y el + default 0 (height el))%float = true ->
  distToRect px py el = 0%float /\ within (px, py) el = true.
Proof.
  intros Hx1 Hx2 Hy1 Hy2.
  assert (Hd : distToRect px py el = 0%float).
  { unfold distToRect. cbv zeta.
    rewrite (Math_max3_negative (x el - px)%float (px - (x el + default 0 (width el)))%float)
      by (rewrite NumberFacts.sub_neg_iff; assumption).
    rewrite (Math_max3_negative (y el - py)%float (py - (y el + default 0 (height el)))%float)
      by (rewrite NumberFacts.sub_neg_iff; assumption).
    reflexivity. }
  split; [exact Hd|]. unfold within, dist. cbn [fst snd]. rewrite Hd. reflexivity.
Qed.

End GeometryMore.

Module GeometryWitnesses.
Import Geometry GeometryFacts GeometryMore.

(** In [two_boxes] the arrow [join] is bound to [left] at its start, and
    [left] carries the back-reference. *)
Lemma ensureArrowBindings_records_bindings_witness :
  exists refs r,
    boundElements (set_boundElements (Some [mkBoundRef "arrow" (Some "join")])
                     (box "rectangle" "left" 0 0 100 60)) = Some refs
    /\ r ∈ refs /\ ref_id r = Some "join".
Proof.
  apply (ensureArrowBindings_records_bindings two_boxes
           (set_bindings (Some (mkBinding (Some "left") (Some (1, 0.5)%float)))
              (Some (mkBinding (Some "right") (Some (0, 0.5)%float)))
              (arrow_to "join" 110 30 180 0))
           (set_boundElements (Some [mkBoundRef "arrow" (Some "join")])
              (box "rectangle" "left" 0 0 100 60))
           (mkBinding (Some "left") (Some (1, 0.5)%float))).
  - apply list_elem_of_In. vm_compute. right. left. reflexivity.
  - apply list_elem_of_In. vm_compute. left. reflexivity.
  - reflexivity.
  - reflexivity.
  - left. reflexivity.
Defined.

(** In [zone_scene] the zone and the first chip end up in the group of the
    first id drawn. *)
Lemma assignGroupIds_groups_cluster_witness :
  exists k p' c', (0 <= k < snd (assignGroupIdsForNestedShapes example_uuids 0 zone_scene))%nat
    /\ fst (assignGroupIdsForNestedShapes example_uuids 0 zone_scene) !! 2%nat = Some p'
    /\ fst (assignGroupIdsForNestedShapes example_uuids 0 zone_scene) !! 0%nat = Some c'
    /\ id p' = Some "zone" /\ id c' = Some "chip1"
    /\ example_uuids k ∈ default [] (groupIds p')
    /\ example_uuids k ∈ default [] (groupIds c').
Proof.
  apply (assignGroupIds_groups_cluster example_uuids 0 zone_scene
           (box "rectangle" "zone" 0 0 400 300) (box "rectangle" "chip1" 20 20 50 50)
           (mkBounds 0 0 (0 + 400) (0 + 300)) 2 0).
  - apply (bool_decide_unpack _). vm_compute. exact I.
  - reflexivity.
  - reflexivity.
  - reflexivity.
  - reflexivity.
  - discriminate.
  - reflexivity.
  - reflexivity.
Defined.

(** The arrow of [zone_scene] is horizontal: it has no bounds and joins no
    group. *)
Example assignGroupIds_zone_scene :
  List.map (fun el => (id el, groupIds el))
    (fst (assignGroupIdsForNestedShapes example_uuids 0 zone_scene))
  = [(Some "chip1", Some ["uuid-0"]); (Some "link", Some []);
     (Some "zone", Some ["uuid-0"]); (Some "chip2", Some ["uuid-0"]);
     (Some "note", Some [])].
Proof. vm_compute. reflexivity. Qed.

(** The centre of the left box of [two_boxes] is at distance zero of it. *)
Lemma distToRect_zero_witness :
  distToRect 50 30 (box "rectangle" "left" 0 0 100 60) = 0%float
  /\ within (50, 30)%float (box "rectangle" "left" 0 0 100 60) = true.
Proof.
  apply (distToRect_zero 50 30 (box "rectangle" "left" 0 0 100 60)); reflexivity.
Defined.

End GeometryWitnesses.

(** ** Titles *)

Lemma chars_append (a b : string) : chars (a +:+ b) = chars a ++ chars b.
Proof. induction a as [|c a IH]; [reflexivity|]. rewrite append_cons. simpl. now rewrite IH. Qed.

Lemma has_char_chars (c : ascii) (s : string) :
  JsString.has_char c s = false <-> c ∉ chars s.
Proof.
  induction s as [|c' s IH]; simpl.
  - split; [intros _ H; inversion H | reflexivity].
  - rewrite orb_false_iff, IH, not_elem_of_cons, Ascii.eqb_neq. split; intros [H1 H2]; split; congruence.
Qed.

Lemma chars_trim_spaces (s : string) :
  exists p q, chars s = p ++ chars (JsString.trim s) ++ q
    /\ Forall (fun c => JsString.is_js_space c = true) p
    /\ Forall (fun c => JsString.is_js_space c = true) q.
Proof.
  unfold JsString.trim.
  destruct (chars_trimStart s) as (p & Hp & Hps).
  destruct (chars_trimEnd (JsString.trimStart s)) as (q & Hq & Hqs).
  exists p, q. now rewrite Hp, Hq.
Qed.

Lemma has_char_trim (c : ascii) (s : string) :
  JsString.has_char c s = false -> JsString.has_char c (JsString.trim s) = false.
Proof.
  rewrite !has_char_chars. destruct (chars_trim s) as (p & q & ->).
  rewrite !not_elem_of_app. tauto.
Qed.

Lemma length_trim (s : string) : (String.length (JsString.trim s) <= String.length s)%nat.
Proof.
  rewrite <- !length_chars. destruct (chars_trim s) as (p & q & ->).
  rewrite !length_app. lia.
Qed.

Lemma trim_nonempty (s : string) (c : ascii) :
  c ∈ chars s -> JsString.is_js_space c = false -> JsString.trim s <> "".
Proof.
  intros Hc Hs Hempty. destruct (chars_trim_spaces s) as (p & q & Hpq & Hp & Hq).
  rewrite Hempty in Hpq. simpl in Hpq. rewrite Hpq in Hc.
  apply elem_of_app in Hc as [Hc|Hc].
  - rewrite Forall_forall in Hp. specialize (Hp c Hc). congruence.
  - rewrite Forall_forall in Hq. specialize (Hq c Hc). congruence.
Qed.

Lemma has_char_replace_newlines (s : string) :
  JsString.has_char "010"%char (replace_newlines s) = false.
Proof.
  induction s as [|c s IH]; [reflexivity|]. simpl. rewrite IH, orb_false_r.
  destruct (Ascii.eqb c "010"%char) eqn:E; [reflexivity | exact E].
Qed.

Lemma get_0_substring (n : nat) (s : string) :
  String.get 0 (String.substring 0 (Datatypes.S n) s) = String.get 0 s.
Proof. destruct s; reflexivity. Qed.

Lemma title_part_like (s : string) : title_part s <> "" -> title_like (title_part s).
Proof.
  intros Hne. unfold title_like, title_part, JsString.slice0 in *. split_ands.
  - exact Hne.
  - rewrite length_substring0. lia.
  - apply has_char_substring0, has_char_trim, has_char_replace_newlines.
  - intros c. rewrite get_0_substring. apply trim_head.
Qed.

(** The state of the loop: [seen] holds the parts in lower case, and no two
    parts are the same in lower case. *)
Lemma add_part_inv (v : jsval) (st st' : gset string * list string) :
  add_part v st = Some st' ->
  (forall t, t ∈ fst st <-> t ∈ List.map toLowerCase (snd st)) ->
  NoDup (List.map toLowerCase (snd st)) -> Forall title_like (snd st) ->
  (forall t, t ∈ fst st' <-> t ∈ List.map toLowerCase (snd st'))
  /\ NoDup (List.map toLowerCase (snd st')) /\ Forall title_like (snd st').
Proof.
  unfold add_part.
  destruct (nullish_or v (Some (JStr ""))) as [[| | |s| |]|]; try discriminate.
  destruct (String.eqb_spec (title_part s) "") as [He|Hne]; simpl.
  { intros [= <-]. auto. }
  case_bool_decide as Hin; simpl.
  { intros [= <-]. auto. }
  intros [= <-] Hseen Hnd Hall. simpl. rewrite List.map_app. simpl. split_ands.
  - intros t. rewrite elem_of_union, elem_of_singleton, elem_of_app, list_elem_of_singleton.
    now rewrite Hseen.
  - apply NoDup_app. split_ands; [exact Hnd | | apply NoDup_singleton].
    intros t Ht Ht'. apply list_elem_of_singleton in Ht' as ->.
    apply Hin, Hseen, Ht.
  - apply Forall_app. split; [exact Hall|]. constructor; [|constructor].
    now apply title_part_like.
Qed.

Lemma title_step_inv (el : json) (st st' : gset string * list string) :
  title_step st el = Some st' ->
  (forall t, t ∈ fst st <-> t ∈ List.map toLowerCase (snd st)) ->
  NoDup (List.map toLowerCase (snd st)) -> Forall title_like (snd st) ->
  (forall t, t ∈ fst st' <-> t ∈ List.map toLowerCase (snd st'))
  /\ NoDup (List.map toLowerCase (snd st')) /\ Forall title_like (snd st').
Proof.
  unfold title_step. destruct (negb (truthy (Some el))); [intros [= <-]; auto|].
  destruct (get el "isDeleted") as [d|]; simpl; [|discriminate].
  destruct (truthy d); [intros [= <-]; auto|].
  destruct (type_is "text" el) as [[|]|]; simpl; [| |discriminate].
  - destruct (get el "text") as [t|]; simpl; [|discriminate].
    destruct (get el "rawText") as [r|]; simpl; [|discriminate].
    apply add_part_inv.
  - destruct (label_text el) as [lt|]; simpl; [|discriminate].
    destruct (truthy lt); [apply add_part_inv | intros [= <-]; auto].
Qed.

Lemma title_loop_inv (els : list json) (st st' : gset string * list string) :
  title_loop st els = Some st' ->
  (forall t, t ∈ fst st <-> t ∈ List.map toLowerCase (snd st)) ->
  NoDup (List.map toLowerCase (snd st)) -> Forall title_like (snd st) ->
  NoDup (List.map toLowerCase (snd st')) /\ Forall title_like (snd st').
Proof.
  revert st. induction els as [|el els IH]; intros st; simpl.
  - intros [= <-] _ Hnd Hall. now split.
  - destruct (title_step st el) as [st1|] eqn:Hstep; simpl; [|discriminate].
    intros Hloop Hseen Hnd Hall.
    destruct (title_step_inv el st st1 Hstep Hseen Hnd Hall) as (H1 & H2 & H3).
    now apply (IH st1).
Qed.

Lemma length_join_with (sep : string) (l : list string) (n : nat) :
  Forall (fun p => (String.length p <= n)%nat) l ->
  (String.length (join_with sep l)
   <= length l * n + (length l - 1) * String.length sep)%nat.
Proof.
  induction 1 as [|p l Hp Hl IH]; [simpl; lia|].
  destruct l as [|q l]; [simpl; lia|].
  change (join_with sep (p :: q :: l)) with (p +:+ sep +:+ join_with sep (q :: l)).
  rewrite <- !length_chars, !chars_append, !length_app, !length_chars in *.
  simpl length in *. nia.
Qed.

Lemma has_char_join_with (c : ascii) (sep : string) (l : list string) :
  JsString.has_char c sep = false ->
  Forall (fun p => JsString.has_char c p = false) l ->
  JsString.has_char c (join_with sep l) = false.
Proof.
  intros Hsep. induction 1 as [|p l Hp Hl IH]; [reflexivity|].
  destruct l as [|q l]; [exact Hp|].
  change (join_with sep (p :: q :: l)) with (p +:+ sep +:+ join_with sep (q :: l)).
  rewrite has_char_chars in *. rewrite !chars_append, !not_elem_of_app. auto.
Qed.

Lemma head_join_with (sep p : string) (l : list string) (c : ascii) :
  String.get 0 p = Some c -> String.get 0 (join_with sep (p :: l)) = Some c.
Proof.
  destruct l as [|q l]; [auto|].
  change (join_with sep (p :: q :: l)) with (p +:+ sep +:+ join_with sep (q :: l)).
  destruct p as [|c' p]; [discriminate|]. now rewrite append_cons.
Qed.

(** X25. The parts of a derived title are not empty, at most 60 characters long,
    on one line and without white space in front, and no two of them are
    the same up to case. The title is [diagram] when there is no part;
    otherwise it is the first three parts joined by [ - ] and trimmed,
    which is not empty, at most 186 characters long, and on one line. *)
Theorem deriveTitleFromElements_title (elements : list json) (parts : list string) :
  title_parts elements = Some parts ->
  NoDup (List.map toLowerCase parts)
  /\ Forall title_like parts
  /\ exists title, deriveTitleFromElements elements = Some title
       /\ (parts = [] -> title = "diagram")
       /\ (parts <> [] -> title = JsString.trim (join_with " - " (take 3 parts)))
       /\ title <> ""
       /\ (String.length title <= 186)%nat
       /\ JsString.has_char "010"%char title = false.
Proof.
  intros Hparts. unfold deriveTitleFromElements. rewrite Hparts. simpl.
  unfold title_parts in Hparts.
  destruct (title_loop (∅, []) elements) as [st|] eqn:Hloop; [|discriminate].
  injection Hparts as <-.
  destruct (title_loop_inv elements (∅, []) st Hloop) as [Hnd Hall].
  { intros t. simpl. split; intros Ht; [set_solver | inversion Ht]. }
  { constructor. }
  { constructor. }
  split; [exact Hnd|]. split; [exact Hall|].
  eexists. split; [reflexivity|].
  destruct (snd st) as [|p parts] eqn:Hst.
  { simpl. split_ands; try reflexivity; try discriminate; try congruence. simpl. lia. }
  assert (Hall3 : Forall title_like (take 3 (p :: parts))) by now apply Forall_take.
  assert (Hjoin : JsString.trim (join_with " - " (take 3 (p :: parts))) <> "").
  { apply Forall_cons in Hall as [(Hne & _ & _ & Hhead) _].
    destruct p as [|c p]; [congruence|].
    apply (trim_nonempty _ c); [|now apply Hhead].
    change (take 3 (String c p :: parts)) with (String c p :: take 2 parts).
    pose proof (head_join_with " - " (String c p) (take 2 parts) c eq_refl) as Hget.
    rewrite get_chars in Hget. eapply list_elem_of_lookup_2, Hget. }
  destruct (String.eqb_spec (JsString.trim (join_with " - " (take 3 (p :: parts)))) "")
    as [He|_]; [contradiction|].
  split_ands.
  - discriminate.
  - reflexivity.
  - exact Hjoin.
  - etransitivity; [apply length_trim|].
    etransitivity; [apply (length_join_with _ _ 60)|].
    + eapply Forall_impl; [exact Hall3|]. now intros q (_ & Hq & _).
    + rewrite length_take. simpl String.length. lia.
  - apply has_char_trim, has_char_join_with; [reflexivity|].
    eapply Forall_impl; [exact Hall3|]. now intros q (_ & _ & Hq & _).
Qed.

Lemma title_loop_app (l1 l2 : list json) (st : gset string * list string) :
  title_loop st (l1 ++ l2) = (title_loop st l1 ≫= fun st' => title_loop st' l2).
Proof.
  revert st. induction l1 as [|e l1 IH]; intros st; simpl; [reflexivity|].
  destruct (title_step st e); simpl; [apply IH | reflexivity].
Qed.

(** X26. A live text entry whose text is neither nullish nor a string makes the
    derivation throw, wherever it stands in the scene. *)
Theorem deriveTitleFromElements_throws (pre post : list json) (el v : json) :
  live_text el = true ->
  nullish_or (nullish_or (prop el "text") (prop el "rawText")) (Some (JStr "")) = Some v ->
  (forall s, v <> JStr s) ->
  deriveTitleFromElements (pre ++ el :: post) = None.
Proof.
  intros Hlive Hv Hstr. unfold deriveTitleFromElements, title_parts.
  rewrite title_loop_app. destruct (title_loop (∅, []) pre) as [st|]; [|reflexivity].
  cbn [mbind option_bind title_loop].
  assert (Hstep : title_step st el = None); [|now rewrite Hstep].
  unfold live_text in Hlive. apply andb_true_iff in Hlive as [[Ht Hd]%andb_true_iff Hty].
  assert (Hnn : not_null el) by (intros ->; discriminate Ht).
  unfold title_step. rewrite Ht. cbn [negb].
  rewrite (get_not_null el "isDeleted" Hnn). cbn [mbind option_bind].
  apply negb_true_iff in Hd. rewrite Hd.
  rewrite (type_is_not_null _ el Hnn), Hty. cbn [mbind option_bind].
  rewrite (get_not_null el "text" Hnn), (get_not_null el "rawText" Hnn). cbn [mbind option_bind].
  rewrite Hv. unfold add_part.
  assert (nullish_or (Some v) (Some (JStr "")) = Some v) as ->.
  { destruct v; try reflexivity.
    destruct (nullish_or (prop el "text") (prop el "rawText")) as [[]|]; discriminate Hv. }
  destruct v; try reflexivity. now destruct (Hstr s).
Qed.


(** Two titles that differ by case only count once, and a line break
    becomes a space. *)
Lemma deriveTitleFromElements_title_witness :
  deriveTitleFromElements
    [text_entry "t1" "Login"; labelled "rectangle" "r1" "LOGIN";
     text_entry "t2" (String "F"%char (String "010"%char "low"))]
  = Some "Login - F low".
Proof.
  destruct (deriveTitleFromElements_title
              [text_entry "t1" "Login"; labelled "rectangle" "r1" "LOGIN";
               text_entry "t2" (String "F"%char (String "010"%char "low"))]
              ["Login"; "F low"]) as (_ & _ & title & -> & _ & Ht & _).
  - vm_compute. reflexivity.
  - now rewrite Ht.
Defined.

Lemma deriveTitleFromElements_throws_witness :
  deriveTitleFromElements
    [text_entry "t1" "Login"; JObj [("type", JStr "text"); ("text", JNum 5)]] = None.
Proof.
  apply (deriveTitleFromElements_throws [text_entry "t1" "Login"] []
           (JObj [("type", JStr "text"); ("text", JNum 5)]) (JNum 5)).
  - reflexivity.
  - reflexivity.
  - discriminate.
Defined.

Module TitlesFacts.
Import Titles.
Local Open Scope Q_scope.























End TitlesFacts.

(** ** Scene bounds *)

Module SceneBoundsFacts.
Import SceneBounds.
Local Open Scope Q_scope.







End SceneBoundsFacts.
